(** * PULP-DSP strided matrix kernels and dot-product dispatch

    A shallow embedding of

    - [plp_mat_mult_trans_stride_i32p_xpulpv2]
    - [plp_mat_mult_trans_cmplx_stride_i16p_xpulpv2]
    - [plp_mat_sub_stride_i16p_xpulpv2]
    - [plp_dot_prod_i32s]

    The kernels are C loop nests over [uint32_t] counters that read two
    [__restrict__] input buffers and write one output buffer.  Machine
    integers are integers of [Z] with the wrap-around written out, buffers
    are lists indexed from 0, an access outside a buffer is a [Fault], and
    the loops run on a fuel budget so that a loop that never exits is
    visible as [OutOfFuel]. *)

From Stdlib Require Import ZArith Lia List.
From stdpp Require Import base list.

Local Open Scope Z_scope.

(** ** Machine integers *)

(** [uint32_t]: arithmetic modulo 2^32. *)
Definition wrap_u32 (z : Z) : Z := z mod 2 ^ 32.

(** [int32_t] on the target: two's complement, overflow wraps. *)
Definition wrap_i32 (z : Z) : Z := (z + 2 ^ 31) mod 2 ^ 32 - 2 ^ 31.

(** Conversion to [int16_t]: the low 16 bits, read as two's complement. *)
Definition wrap_i16 (z : Z) : Z := (z + 2 ^ 15) mod 2 ^ 16 - 2 ^ 15.

Definition add_u32 (x y : Z) : Z := wrap_u32 (x + y).
Definition mul_u32 (x y : Z) : Z := wrap_u32 (x * y).
Definition add_i32 (x y : Z) : Z := wrap_i32 (x + y).
Definition sub_i32 (x y : Z) : Z := wrap_i32 (x - y).
Definition mul_i32 (x y : Z) : Z := wrap_i32 (x * y).

Definition in_i32 (z : Z) : Prop := - 2 ^ 31 <= z < 2 ^ 31.
Definition in_i16 (z : Z) : Prop := - 2 ^ 15 <= z < 2 ^ 15.

(** ** Memory

    The three pointers of a kernel are [__restrict__]-qualified: they name
    three separate buffers.  The store keeps one list per buffer. *)

Record store : Type := mkStore {
  pSrcA : list Z;
  pSrcB : list Z;
  pDst : list Z
}.

Inductive result (A : Type) : Type :=
| Done (a : A)
| Fault
| OutOfFuel.

Arguments Done {A} a.
Arguments Fault {A}.
Arguments OutOfFuel {A}.

(** A command reads and updates the store, and may fault or run out of
    fuel. *)
Definition cmd (A : Type) : Type := store -> result (A * store).

Definition ret {A : Type} (a : A) : cmd A := fun st => Done (a, st).

Definition bind {A B : Type} (c : cmd A) (k : A -> cmd B) : cmd B :=
  fun st =>
    match c st with
    | Done (a, st') => k a st'
    | Fault => Fault
    | OutOfFuel => OutOfFuel
    end.

Notation "'let*' x ':=' c 'in' k" := (bind c (fun x => k))
  (at level 10, x name, c at level 100, k at level 200).

(** [buf[i]] as an rvalue. *)
Definition load (buf : store -> list Z) (i : Z) : cmd Z :=
  fun st =>
    match buf st !! Z.to_nat i with
    | Some v => Done (v, st)
    | None => Fault
    end.

(** [pDst[i] = v]. *)
Definition store_dst (i v : Z) : cmd unit :=
  fun st =>
    if decide (Z.to_nat i < length (pDst st))%nat
    then Done (tt, mkStore (pSrcA st) (pSrcB st) (<[Z.to_nat i := v]> (pDst st)))
    else Fault.

(** ** Loops

    [for (i = i0; i < bound; i += step) body], with [i], [bound] and
    [step] of type [uint32_t]; [acc] carries the local variables that the
    body updates. *)
Fixpoint for_u32 {T : Type} (fuel : nat) (i bound step : Z)
    (body : Z -> T -> cmd T) (acc : T) : cmd T :=
  fun st =>
    if i <? bound then
      match fuel with
      | 0%nat => OutOfFuel
      | S fuel' =>
          match body i acc st with
          | Done (acc', st') =>
              for_u32 fuel' (add_u32 i step) bound step body acc' st'
          | Fault => Fault
          | OutOfFuel => OutOfFuel
          end
      end
    else Done (acc, st).

(** The values the counter of such a loop takes, in order; [None] when the
    budget does not reach the exit. *)
Fixpoint loop_trace (fuel : nat) (i bound step : Z) : option (list Z) :=
  if i <? bound then
    match fuel with
    | 0%nat => None
    | S fuel' =>
        match loop_trace fuel' (add_u32 i step) bound step with
        | Some rs => Some (i :: rs)
        | None => None
        end
    end
  else Some [].

(** The body run once per element of a list, left to right. *)
Fixpoint run_list {T : Type} (body : Z -> T -> cmd T) (rs : list Z) (acc : T)
    : cmd T :=
  match rs with
  | [] => ret acc
  | r :: rs' => let* acc' := body r acc in run_list body rs' acc'
  end.

(** Modelled from the spec: the fork/join scheduler is an external
    service that starts one copy of a kernel entry point per core on the
    shared descriptor and joins them.  Here the copies run one after the
    other, in the order of [cores]; the statements quantify over that
    order. *)
Fixpoint run_cores (kernel : Z -> cmd unit) (cores : list Z) : cmd unit :=
  match cores with
  | [] => ret tt
  | c :: cs => let* _ := kernel c in run_cores kernel cs
  end.

(** Exact sum of [f] over a list of indices. *)
Definition sum_over (f : Z -> Z) (ns : list Z) : Z :=
  foldr (fun n s => f n + s) 0 ns.

(** Element [i] of a buffer, 0 outside it. *)
Definition elt (buf : list Z) (i : Z) : Z := default 0 (buf !! Z.to_nat i).

(** The rows worker [core_id] is assigned: [core_id], [core_id + nPE], ...
    below [M]. *)
Definition assigned (M nPE core_id r : Z) : Prop :=
  0 <= r < M /\ core_id <= r /\ (r - core_id) mod nPE = 0.

(** ** Strided multiply-transpose, 32-bit integers *)

Module MatMultTransStride.

(** Modelled from the spec: the struct [plp_mat_mult_stride_instance_i32]
    is declared outside src/; these are the scalar fields the kernel
    reads from it (the Work Descriptor of the spec).  Its three pointer
    fields are the buffers of the store, [pDstC] being [pDst]. *)
Record plp_mat_mult_stride_instance_i32 : Type := mkInstance {
  M : Z;
  N : Z;
  O : Z;
  strideA : Z;
  strideB : Z;
  strideC : Z;
  nPE : Z
}.

(** Lines 76-78: one multiply-accumulate. *)
Definition mac (a : plp_mat_mult_stride_instance_i32) (m o n sum : Z)
    : cmd Z :=
  let* valA := load pSrcA (add_u32 (mul_u32 m (strideA a)) n) in
  let* valB := load pSrcB (add_u32 (mul_u32 o (strideB a)) n) in
  ret (add_i32 sum (mul_i32 valA valB)).

(** Lines 74-79: [sum = 0] and the loop over [n]. *)
Definition inner (fuel : nat) (a : plp_mat_mult_stride_instance_i32)
    (m o : Z) : cmd Z :=
  for_u32 fuel 0 (N a) 1 (mac a m o) 0.

(** Lines 74-80: one output element. *)
Definition column (fuel : nat) (a : plp_mat_mult_stride_instance_i32)
    (m o : Z) (_ : unit) : cmd unit :=
  let* sum := inner fuel a m o in
  store_dst (add_u32 (mul_u32 m (strideC a)) o) sum.

(** Lines 73-81: one output row. *)
Definition row (fuel : nat) (a : plp_mat_mult_stride_instance_i32)
    (m : Z) (_ : unit) : cmd unit :=
  for_u32 fuel 0 (O a) 1 (column fuel a m) tt.

(** Lines 72-82; [core_id] is what [rt_core_id()] returned. *)
Definition plp_mat_mult_trans_stride_i32p_xpulpv2 (fuel : nat)
    (core_id : Z) (a : plp_mat_mult_stride_instance_i32) : cmd unit :=
  for_u32 fuel (wrap_u32 core_id) (M a) (nPE a) (row fuel a) tt.

(** The instance fields are [uint32_t]. *)
Record typed (a : plp_mat_mult_stride_instance_i32) : Prop := {
  M_u32 : 0 <= M a < 2 ^ 32;
  N_u32 : 0 <= N a < 2 ^ 32;
  O_u32 : 0 <= O a < 2 ^ 32;
  strideA_u32 : 0 <= strideA a < 2 ^ 32;
  strideB_u32 : 0 <= strideB a < 2 ^ 32;
  strideC_u32 : 0 <= strideC a < 2 ^ 32;
  nPE_u32 : 0 <= nPE a < 2 ^ 32
}.

(** The output matrix lies inside the output buffer, its rows do not
    overlap, and the buffer of 4-byte elements fits a 32-bit address
    space. *)
Record dst_ok (a : plp_mat_mult_stride_instance_i32) (L : nat) : Prop := {
  cols_fit : O a <= strideC a;
  C_fits : forall m o, 0 <= m < M a -> 0 <= o < O a ->
             m * strideC a + o < Z.of_nat L;
  C_addressable : 4 * Z.of_nat L <= 2 ^ 32
}.

(** Both input matrices lie inside their buffers. *)
Record src_ok (a : plp_mat_mult_stride_instance_i32) (A B : list Z)
    : Prop := {
  A_fits : forall m n, 0 <= m < M a -> 0 <= n < N a ->
             m * strideA a + n < Z.of_nat (length A);
  B_fits : forall o n, 0 <= o < O a -> 0 <= n < N a ->
             o * strideB a + n < Z.of_nat (length B);
  A_addressable : 4 * Z.of_nat (length A) <= 2 ^ 32;
  B_addressable : 4 * Z.of_nat (length B) <= 2 ^ 32
}.

(** The same descriptor for another number of workers. *)
Definition with_nPE (a : plp_mat_mult_stride_instance_i32) (n : Z)
    : plp_mat_mult_stride_instance_i32 :=
  mkInstance (M a) (N a) (O a) (strideA a) (strideB a) (strideC a) n.

(** A valid descriptor with its buffers. *)
Definition valid (a : plp_mat_mult_stride_instance_i32) (st : store)
    : Prop :=
  typed a /\ src_ok a (pSrcA st) (pSrcB st) /\ dst_ok a (length (pDst st)).

(** Loop budget that covers every loop of the nest. *)
Definition budget (a : plp_mat_mult_stride_instance_i32) : nat :=
  Z.to_nat (Z.max (M a) (Z.max (N a) (O a))).

(** The exact sum over [n] of [A[m*strideA + n] * B[o*strideB + n]]. *)
Definition dot (a : plp_mat_mult_stride_instance_i32) (A B : list Z)
    (m o : Z) : Z :=
  sum_over (fun n => elt A (m * strideA a + n) * elt B (o * strideB a + n))
    (seqZ 0 (N a)).

(** What iteration [o] of row [m] stores, and where. *)
Definition cell (a : plp_mat_mult_stride_instance_i32) (A B : list Z)
    (m o : Z) (i : nat) : option Z :=
  if decide (i = Z.to_nat (m * strideC a + o))
  then Some (wrap_i32 (dot a A B m o)) else None.

(** The value row [m] gives to output element [i], when it owns it. *)
Definition rowval (a : plp_mat_mult_stride_instance_i32) (A B : list Z)
    (m : Z) (i : nat) : option Z :=
  if decide (m * strideC a <= Z.of_nat i < m * strideC a + O a)
  then Some (wrap_i32 (dot a A B m (Z.of_nat i - m * strideC a)))
  else None.

End MatMultTransStride.

(** ** Strided multiply-transpose, complex 16-bit integers *)

Module MatMultTransCmplxStride.

(** Modelled from the spec: the struct
    [plp_mat_mult_cmplx_stride_instance_i16] is declared outside src/;
    these are the scalar fields the kernel reads from it.  Strides count
    complex elements. *)
Record plp_mat_mult_cmplx_stride_instance_i16 : Type := mkInstance {
  M : Z;
  N : Z;
  O : Z;
  strideA : Z;
  strideB : Z;
  strideC : Z;
  nPE : Z
}.

(** The index expression [(r * stride + n) * 2 + k], in [uint32_t]. *)
Definition cidx (r stride n k : Z) : Z :=
  add_u32 (mul_u32 (add_u32 (mul_u32 r stride) n) 2) k.

(** Lines 80-85: one complex multiply-accumulate on the pair
    [(sum_re, sum_im)]. *)
Definition mac (a : plp_mat_mult_cmplx_stride_instance_i16)
    (m o n : Z) (sums : Z * Z) : cmd (Z * Z) :=
  let* a_re := load pSrcA (cidx m (strideA a) n 0) in
  let* a_im := load pSrcA (cidx m (strideA a) n 1) in
  let* b_re := load pSrcB (cidx o (strideB a) n 0) in
  let* b_im := load pSrcB (cidx o (strideB a) n 1) in
  ret (add_i32 (fst sums) (sub_i32 (mul_i32 a_re b_re) (mul_i32 a_im b_im)),
       add_i32 (snd sums) (add_i32 (mul_i32 a_re b_im) (mul_i32 a_im b_re))).

(** Lines 77-86: [sum_re = 0], [sum_im = 0] and the loop over [n]. *)
Definition inner (fuel : nat) (a : plp_mat_mult_cmplx_stride_instance_i16)
    (m o : Z) : cmd (Z * Z) :=
  for_u32 fuel 0 (N a) 1 (mac a m o) (0, 0).

(** Lines 77-88: one output element, a pair. *)
Definition column (fuel : nat) (a : plp_mat_mult_cmplx_stride_instance_i16)
    (m o : Z) (_ : unit) : cmd unit :=
  let* sums := inner fuel a m o in
  let* _ := store_dst (cidx m (strideC a) o 0) (fst sums) in
  store_dst (cidx m (strideC a) o 1) (snd sums).

(** Lines 76-89. *)
Definition row (fuel : nat) (a : plp_mat_mult_cmplx_stride_instance_i16)
    (m : Z) (_ : unit) : cmd unit :=
  for_u32 fuel 0 (O a) 1 (column fuel a m) tt.

(** Lines 75-90.  The three counters are declared [int] here; each use
    converts them to [uint32_t] (they are compared with, added to and
    multiplied by [uint32_t] values), so they are kept as their 32-bit
    patterns and the loops are those of [uint32_t] counters. *)
Definition plp_mat_mult_trans_cmplx_stride_i16p_xpulpv2 (fuel : nat)
    (core_id : Z) (a : plp_mat_mult_cmplx_stride_instance_i16) : cmd unit :=
  for_u32 fuel (wrap_u32 core_id) (M a) (nPE a) (row fuel a) tt.

(** The instance fields are [uint32_t]. *)
Record typed (a : plp_mat_mult_cmplx_stride_instance_i16) : Prop := {
  M_u32 : 0 <= M a < 2 ^ 32;
  N_u32 : 0 <= N a < 2 ^ 32;
  O_u32 : 0 <= O a < 2 ^ 32;
  strideA_u32 : 0 <= strideA a < 2 ^ 32;
  strideB_u32 : 0 <= strideB a < 2 ^ 32;
  strideC_u32 : 0 <= strideC a < 2 ^ 32;
  nPE_u32 : 0 <= nPE a < 2 ^ 32
}.

(** The output matrix of interleaved pairs lies inside the output buffer,
    its rows do not overlap, and the buffer of 4-byte elements fits a
    32-bit address space. *)
Record dst_ok (a : plp_mat_mult_cmplx_stride_instance_i16) (L : nat)
    : Prop := {
  cols_fit : O a <= strideC a;
  C_fits : forall m o, 0 <= m < M a -> 0 <= o < O a ->
             (m * strideC a + o) * 2 + 1 < Z.of_nat L;
  C_addressable : 4 * Z.of_nat L <= 2 ^ 32
}.

(** Both input matrices lie inside their buffers of 2-byte elements. *)
Record src_ok (a : plp_mat_mult_cmplx_stride_instance_i16) (A B : list Z)
    : Prop := {
  A_fits : forall m n, 0 <= m < M a -> 0 <= n < N a ->
             (m * strideA a + n) * 2 + 1 < Z.of_nat (length A);
  B_fits : forall o n, 0 <= o < O a -> 0 <= n < N a ->
             (o * strideB a + n) * 2 + 1 < Z.of_nat (length B);
  A_addressable : 2 * Z.of_nat (length A) <= 2 ^ 32;
  B_addressable : 2 * Z.of_nat (length B) <= 2 ^ 32
}.

Definition with_nPE (a : plp_mat_mult_cmplx_stride_instance_i16) (n : Z)
    : plp_mat_mult_cmplx_stride_instance_i16 :=
  mkInstance (M a) (N a) (O a) (strideA a) (strideB a) (strideC a) n.

Definition valid (a : plp_mat_mult_cmplx_stride_instance_i16) (st : store)
    : Prop :=
  typed a /\ src_ok a (pSrcA st) (pSrcB st) /\ dst_ok a (length (pDst st)).

Definition budget (a : plp_mat_mult_cmplx_stride_instance_i16) : nat :=
  Z.to_nat (Z.max (M a) (Z.max (N a) (O a))).

(** Real and imaginary part of complex element [e] of a buffer. *)
Definition re (buf : list Z) (e : Z) : Z := elt buf (e * 2 + 0).
Definition im (buf : list Z) (e : Z) : Z := elt buf (e * 2 + 1).

(** The exact sums over [n] of [a_re*b_re - a_im*b_im] and of
    [a_re*b_im + a_im*b_re]. *)
Definition dot_re (a : plp_mat_mult_cmplx_stride_instance_i16)
    (A B : list Z) (m o : Z) : Z :=
  sum_over (fun n => re A (m * strideA a + n) * re B (o * strideB a + n)
                     - im A (m * strideA a + n) * im B (o * strideB a + n))
    (seqZ 0 (N a)).

Definition dot_im (a : plp_mat_mult_cmplx_stride_instance_i16)
    (A B : list Z) (m o : Z) : Z :=
  sum_over (fun n => re A (m * strideA a + n) * im B (o * strideB a + n)
                     + im A (m * strideA a + n) * re B (o * strideB a + n))
    (seqZ 0 (N a)).

(** What iteration [o] of row [m] stores, and where. *)
Definition cell (a : plp_mat_mult_cmplx_stride_instance_i16) (A B : list Z)
    (m o : Z) (i : nat) : option Z :=
  if decide (i = Z.to_nat ((m * strideC a + o) * 2 + 0))
  then Some (wrap_i32 (dot_re a A B m o))
  else if decide (i = Z.to_nat ((m * strideC a + o) * 2 + 1))
  then Some (wrap_i32 (dot_im a A B m o))
  else None.

(** The value row [m] gives to output element [i], when it owns it. *)
Definition rowval (a : plp_mat_mult_cmplx_stride_instance_i16)
    (A B : list Z) (m : Z) (i : nat) : option Z :=
  if decide (m * strideC a * 2 <= Z.of_nat i < (m * strideC a + O a) * 2)
  then Some (if decide (Z.of_nat i mod 2 = 0)
             then wrap_i32 (dot_re a A B m (Z.of_nat i / 2 - m * strideC a))
             else wrap_i32 (dot_im a A B m (Z.of_nat i / 2 - m * strideC a)))
  else None.

End MatMultTransCmplxStride.

(** ** Strided subtraction, 16-bit integers *)

Module MatSubStride.

(** Modelled from the spec: the struct [plp_mat_sub_stride_instance_i16]
    is declared outside src/; these are the scalar fields the kernel
    reads from it. *)
Record plp_mat_sub_stride_instance_i16 : Type := mkInstance {
  M : Z;
  N : Z;
  strideA : Z;
  strideB : Z;
  strideY : Z;
  nPE : Z
}.

(** Line 77.  The operands are promoted to [int], subtracted, and the
    difference is converted to [int16_t] by the assignment. *)
Definition column (a : plp_mat_sub_stride_instance_i16) (m n : Z)
    (_ : unit) : cmd unit :=
  let* x := load pSrcA (add_u32 (mul_u32 m (strideA a)) n) in
  let* y := load pSrcB (add_u32 (mul_u32 m (strideB a)) n) in
  store_dst (add_u32 (mul_u32 m (strideY a)) n) (wrap_i16 (sub_i32 x y)).

(** Lines 76-78. *)
Definition row (fuel : nat) (a : plp_mat_sub_stride_instance_i16)
    (m : Z) (_ : unit) : cmd unit :=
  for_u32 fuel 0 (N a) 1 (column a m) tt.

(** Lines 75-79. *)
Definition plp_mat_sub_stride_i16p_xpulpv2 (fuel : nat) (core_id : Z)
    (a : plp_mat_sub_stride_instance_i16) : cmd unit :=
  for_u32 fuel (wrap_u32 core_id) (M a) (nPE a) (row fuel a) tt.

(** The instance fields are [uint32_t]. *)
Record typed (a : plp_mat_sub_stride_instance_i16) : Prop := {
  M_u32 : 0 <= M a < 2 ^ 32;
  N_u32 : 0 <= N a < 2 ^ 32;
  strideA_u32 : 0 <= strideA a < 2 ^ 32;
  strideB_u32 : 0 <= strideB a < 2 ^ 32;
  strideY_u32 : 0 <= strideY a < 2 ^ 32;
  nPE_u32 : 0 <= nPE a < 2 ^ 32
}.

(** The output matrix lies inside the output buffer, its rows do not
    overlap, and the buffer of 2-byte elements fits a 32-bit address
    space. *)
Record dst_ok (a : plp_mat_sub_stride_instance_i16) (L : nat) : Prop := {
  cols_fit : N a <= strideY a;
  Y_fits : forall m n, 0 <= m < M a -> 0 <= n < N a ->
             m * strideY a + n < Z.of_nat L;
  Y_addressable : 2 * Z.of_nat L <= 2 ^ 32
}.

(** Both input matrices lie inside their buffers. *)
Record src_ok (a : plp_mat_sub_stride_instance_i16) (A B : list Z)
    : Prop := {
  A_fits : forall m n, 0 <= m < M a -> 0 <= n < N a ->
             m * strideA a + n < Z.of_nat (length A);
  B_fits : forall m n, 0 <= m < M a -> 0 <= n < N a ->
             m * strideB a + n < Z.of_nat (length B);
  A_addressable : 2 * Z.of_nat (length A) <= 2 ^ 32;
  B_addressable : 2 * Z.of_nat (length B) <= 2 ^ 32
}.

Definition with_nPE (a : plp_mat_sub_stride_instance_i16) (n : Z)
    : plp_mat_sub_stride_instance_i16 :=
  mkInstance (M a) (N a) (strideA a) (strideB a) (strideY a) n.

Definition valid (a : plp_mat_sub_stride_instance_i16) (st : store)
    : Prop :=
  typed a /\ src_ok a (pSrcA st) (pSrcB st) /\ dst_ok a (length (pDst st)).

Definition budget (a : plp_mat_sub_stride_instance_i16) : nat :=
  Z.to_nat (Z.max (M a) (N a)).

(** [A[m*strideA + n] - B[m*strideB + n]] as a 16-bit integer. *)
Definition diff (a : plp_mat_sub_stride_instance_i16) (A B : list Z)
    (m n : Z) : Z :=
  wrap_i16 (elt A (m * strideA a + n) - elt B (m * strideB a + n)).

(** What iteration [n] of row [m] stores, and where. *)
Definition cell (a : plp_mat_sub_stride_instance_i16) (A B : list Z)
    (m n : Z) (i : nat) : option Z :=
  if decide (i = Z.to_nat (m * strideY a + n))
  then Some (diff a A B m n) else None.

(** The value row [m] gives to output element [i], when it owns it. *)
Definition rowval (a : plp_mat_sub_stride_instance_i16) (A B : list Z)
    (m : Z) (i : nat) : option Z :=
  if decide (m * strideY a <= Z.of_nat i < m * strideY a + N a)
  then Some (diff a A B m (Z.of_nat i - m * strideY a))
  else None.

(** Output elements outside the rows assigned to [core_id] are the same
    in [st'] as in [st]. *)
Definition leaves_other_rows (a : plp_mat_sub_stride_instance_i16)
    (core_id : Z) (st st' : store) : Prop :=
  forall i,
    (forall m n, assigned (M a) (nPE a) core_id m -> 0 <= n < N a ->
                 i <> Z.to_nat (m * strideY a + n)) ->
    pDst st' !! i = pDst st !! i.

End MatSubStride.

(** ** Dot-product glue code *)

Module DotProd.

(** The two kernels the glue code can call. *)
Inductive kernel : Type := rv32im | xpulpv2.

(** What a dispatch layer can do with a call: hand it to a kernel, or stop. *)
Inductive outcome : Type :=
| Forward (k : kernel)
| HardStop.

(** [plp_dot_prod_i32s], lines 76-88.  [ARCHI_FC_CID] comes from the
    runtime headers and [cluster_id] is what [rt_cluster_id()] returned.
    The two kernels are declared in plp_math.h and defined outside src/,
    so they are arguments here: a kernel maps the two vectors, the block
    size and the old [*pRes] to the new [*pRes]. *)
Definition plp_dot_prod_i32s {R : Type}
    (plp_dot_prod_i32s_rv32im plp_dot_prod_i32s_xpulpv2
       : list Z -> list Z -> Z -> R -> R)
    (ARCHI_FC_CID cluster_id : Z)
    (pSrcA pSrcB : list Z) (blockSize : Z) (pRes : R) : R :=
  if cluster_id =? ARCHI_FC_CID
  then plp_dot_prod_i32s_rv32im pSrcA pSrcB blockSize pRes
  else plp_dot_prod_i32s_xpulpv2 pSrcA pSrcB blockSize pRes.

(** What the glue code does with a call from [cluster_id]: it is run on
    two kernels that write their own name into the result cell, and the
    cell starts as [HardStop], which it keeps when no kernel is called. *)
Definition dispatch (ARCHI_FC_CID cluster_id : Z) : outcome :=
  plp_dot_prod_i32s
    (fun _ _ _ _ => Forward rv32im) (fun _ _ _ _ => Forward xpulpv2)
    ARCHI_FC_CID cluster_id [] [] 0 HardStop.

(** A dispatch layer that stops on every cluster it has no kernel for,
    [known] being the clusters it has one for. *)
Definition fails_fast (ARCHI_FC_CID : Z) (known : Z -> Prop) : Prop :=
  forall cluster_id, ~ known cluster_id ->
    dispatch ARCHI_FC_CID cluster_id = HardStop.

End DotProd.

(** ** Vocabulary of the statements *)

(** The inputs are [A] and [B], and the output buffer has [L] elements. *)
Definition frame (A B : list Z) (L : nat) (st : store) : Prop :=
  pSrcA st = A /\ pSrcB st = B /\ length (pDst st) = L.

(** [st'] is [st] with some output elements overwritten: [owned i] is the
    new value of element [i] when there is one.  Inputs are untouched. *)
Definition overwrites (owned : nat -> option Z) (st st' : store) : Prop :=
  pSrcA st' = pSrcA st /\ pSrcB st' = pSrcB st
  /\ length (pDst st') = length (pDst st)
  /\ forall i, (i < length (pDst st))%nat ->
       pDst st' !! i = match owned i with
                       | Some v => Some v
                       | None => pDst st !! i
                       end.

(** [st'] is [st] after the rows [rs] were written, [rowval m i] being the
    value row [m] gives to output element [i] when it owns it. *)
Definition rows_written (rowval : Z -> nat -> option Z) (rs : list Z)
    (st st' : store) : Prop :=
  pSrcA st' = pSrcA st /\ pSrcB st' = pSrcB st
  /\ length (pDst st') = length (pDst st)
  /\ (forall m i v, m ∈ rs -> (i < length (pDst st))%nat ->
        rowval m i = Some v -> pDst st' !! i = Some v)
  /\ (forall i, (forall m, m ∈ rs -> rowval m i = None) ->
        pDst st' !! i = pDst st !! i).

(** The rows the outer loop [for (m = core_id; m < M; m += nPE)] of worker
    [core_id] goes through, in order. *)
Definition traversal (fuel : nat) (core_id M nPE : Z) : option (list Z) :=
  loop_trace fuel (wrap_u32 core_id) M nPE.

(** The traversals of the workers [0 .. nPE-1] split [0, M): worker [c]
    goes through the rows [r] below [M] with [r mod nPE = c], once each,
    and through nothing else. *)
Definition is_partition (fuel : nat) (M nPE : Z) : Prop :=
  forall c, 0 <= c < nPE ->
    exists rs, traversal fuel c M nPE = Some rs
               /\ NoDup rs
               /\ forall r, r ∈ rs <-> (0 <= r < M /\ r mod nPE = c).

(** ** Sample descriptors *)

Module Sample.

(** A 2x2 by 2x2 product shared by three workers, one more than rows. *)
Definition mult_a : MatMultTransStride.plp_mat_mult_stride_instance_i32 :=
  MatMultTransStride.mkInstance 2 2 2 2 2 2 3.
Definition mult_st : store := mkStore [1; 2; 3; 4] [5; 6; 7; 8] [0; 0; 0; 0].

(** A 2x1 by 1x1 complex product shared by three workers. *)
Definition cmplx_a
    : MatMultTransCmplxStride.plp_mat_mult_cmplx_stride_instance_i16 :=
  MatMultTransCmplxStride.mkInstance 2 1 1 1 1 1 3.
Definition cmplx_st : store := mkStore [1; 2; 0; 1] [3; 4] [0; 0; 0; 0].

(** A 4x2 subtraction shared by two workers, inside buffers of pitch 3. *)
Definition sub_a : MatSubStride.plp_mat_sub_stride_instance_i16 :=
  MatSubStride.mkInstance 4 2 3 3 3 2.
Definition sub_st : store :=
  mkStore [10; 20; 0; 30; 40; 0; 50; 60; 0; 70; 80; 0]
          [1; 2; 0; 3; 4; 0; 5; 6; 0; 7; 8; 0]
          [9; 9; 9; 9; 9; 9; 9; 9; 9; 9; 9; 9].

(** Products with an empty inner dimension. *)
Definition mult_empty : MatMultTransStride.plp_mat_mult_stride_instance_i32 :=
  MatMultTransStride.mkInstance 2 0 2 0 0 2 3.
Definition cmplx_empty
    : MatMultTransCmplxStride.plp_mat_mult_cmplx_stride_instance_i16 :=
  MatMultTransCmplxStride.mkInstance 2 0 1 0 0 1 3.

End Sample.

(** ** Vocabulary of the further statements *)

(** The input buffers and the size of the output buffer are in [st'] what
    they are in [st]. *)
Definition same_shape (st st' : store) : Prop :=
  pSrcA st' = pSrcA st /\ pSrcB st' = pSrcB st
  /\ length (pDst st') = length (pDst st).

(** Index [i], as the kernel computed it, lies inside the buffer. *)
Definition inside (buf : list Z) (i : Z) : Prop :=
  (Z.to_nat i < length buf)%nat.

(** The three accesses of iteration [(m, n)] of the subtraction kernel stay
    inside their buffers. *)
Definition sub_cell_inside (a : MatSubStride.plp_mat_sub_stride_instance_i16)
    (st : store) (m n : Z) : Prop :=
  inside (pSrcA st) (add_u32 (mul_u32 m (MatSubStride.strideA a)) n)
  /\ inside (pSrcB st) (add_u32 (mul_u32 m (MatSubStride.strideB a)) n)
  /\ inside (pDst st) (add_u32 (mul_u32 m (MatSubStride.strideY a)) n).

(** The accesses of iteration [(m, o)] of the 32-bit multiply-transpose
    kernel stay inside their buffers: the two loads of every inner step
    and the store. *)
Definition mult_cell_inside
    (a : MatMultTransStride.plp_mat_mult_stride_instance_i32)
    (st : store) (m o : Z) : Prop :=
  (forall n, 0 <= n < MatMultTransStride.N a ->
     inside (pSrcA st) (add_u32 (mul_u32 m (MatMultTransStride.strideA a)) n)
     /\ inside (pSrcB st)
          (add_u32 (mul_u32 o (MatMultTransStride.strideB a)) n))
  /\ inside (pDst st) (add_u32 (mul_u32 m (MatMultTransStride.strideC a)) o).

(** Output elements outside the rows assigned to [core_id] are the same in
    [st'] as in [st], for the two multiply-transpose kernels. *)
Definition mult_leaves_other_rows
    (a : MatMultTransStride.plp_mat_mult_stride_instance_i32)
    (core_id : Z) (st st' : store) : Prop :=
  forall i,
    (forall m o,
       assigned (MatMultTransStride.M a) (MatMultTransStride.nPE a) core_id m ->
       0 <= o < MatMultTransStride.O a ->
       i <> Z.to_nat (m * MatMultTransStride.strideC a + o)) ->
    pDst st' !! i = pDst st !! i.

Definition cmplx_leaves_other_rows
    (a : MatMultTransCmplxStride.plp_mat_mult_cmplx_stride_instance_i16)
    (core_id : Z) (st st' : store) : Prop :=
  forall i,
    (forall m o,
       assigned (MatMultTransCmplxStride.M a) (MatMultTransCmplxStride.nPE a)
         core_id m ->
       0 <= o < MatMultTransCmplxStride.O a ->
       i <> Z.to_nat ((m * MatMultTransCmplxStride.strideC a + o) * 2)
       /\ i <> Z.to_nat ((m * MatMultTransCmplxStride.strideC a + o) * 2 + 1)) ->
    pDst st' !! i = pDst st !! i.

(** The descriptor of the product with the two operands exchanged: [B] by
    the transpose of [A], an [O] by [M] matrix of pitch [strideC']. *)
Definition exchanged (a : MatMultTransStride.plp_mat_mult_stride_instance_i32)
    (strideC' : Z) : MatMultTransStride.plp_mat_mult_stride_instance_i32 :=
  MatMultTransStride.mkInstance
    (MatMultTransStride.O a) (MatMultTransStride.N a) (MatMultTransStride.M a)
    (MatMultTransStride.strideB a) (MatMultTransStride.strideA a) strideC'
    (MatMultTransStride.nPE a).

(** * Properties *)

(** ** Sample runs *)

(** Worker 0 of three computes row 0 of the 2x2 product, worker 1 row 1,
    worker 2 nothing. *)
Example mult_worker0 :
  MatMultTransStride.plp_mat_mult_trans_stride_i32p_xpulpv2 2 0
    Sample.mult_a Sample.mult_st
  = Done (tt, mkStore [1; 2; 3; 4] [5; 6; 7; 8] [17; 23; 0; 0]).
Proof. reflexivity. Qed.

Example mult_worker1 :
  MatMultTransStride.plp_mat_mult_trans_stride_i32p_xpulpv2 2 1
    Sample.mult_a Sample.mult_st
  = Done (tt, mkStore [1; 2; 3; 4] [5; 6; 7; 8] [0; 0; 39; 53]).
Proof. reflexivity. Qed.

Example mult_worker2 :
  MatMultTransStride.plp_mat_mult_trans_stride_i32p_xpulpv2 2 2
    Sample.mult_a Sample.mult_st
  = Done (tt, Sample.mult_st).
Proof. reflexivity. Qed.

(** A product that leaves the 32-bit range wraps. *)
Example mult_overflow :
  MatMultTransStride.plp_mat_mult_trans_stride_i32p_xpulpv2 1 0
    (MatMultTransStride.mkInstance 1 1 1 1 1 1 1)
    (mkStore [2147483647] [2] [0])
  = Done (tt, mkStore [2147483647] [2] [-2]).
Proof. reflexivity. Qed.

(** Reading past the end of an input buffer is a fault. *)
Example mult_short_input :
  MatMultTransStride.plp_mat_mult_trans_stride_i32p_xpulpv2 2 0
    Sample.mult_a (mkStore [1; 2; 3] [5] [0; 0; 0; 0])
  = Fault.
Proof. reflexivity. Qed.

(** Worker 1 of two subtracts rows 1 and 3 and leaves the padding of the
    output alone. *)
Example sub_worker1 :
  MatSubStride.plp_mat_sub_stride_i16p_xpulpv2 4 1 Sample.sub_a Sample.sub_st
  = Done (tt, mkStore (pSrcA Sample.sub_st) (pSrcB Sample.sub_st)
                      [9; 9; 9; 27; 36; 9; 9; 9; 9; 63; 72; 9]).
Proof. reflexivity. Qed.

(** A difference that leaves the 16-bit range wraps when it is stored. *)
Example sub_narrowing :
  MatSubStride.plp_mat_sub_stride_i16p_xpulpv2 1 0
    (MatSubStride.mkInstance 1 1 1 1 1 1) (mkStore [32767] [-1] [0])
  = Done (tt, mkStore [32767] [-1] [-32768]).
Proof. reflexivity. Qed.

(** A budget below the number of rows of a worker runs out. *)
Example sub_short_budget :
  MatSubStride.plp_mat_sub_stride_i16p_xpulpv2 1 1 Sample.sub_a Sample.sub_st
  = OutOfFuel.
Proof. reflexivity. Qed.

Example cmplx_worker1 :
  MatMultTransCmplxStride.plp_mat_mult_trans_cmplx_stride_i16p_xpulpv2 2 1
    Sample.cmplx_a Sample.cmplx_st
  = Done (tt, mkStore [1; 2; 0; 1] [3; 4] [0; 0; -4; 3]).
Proof. reflexivity. Qed.

(** ** Machine integers *)

Ltac unwrap :=
  unfold add_u32, mul_u32, add_i32, sub_i32, mul_i32,
    wrap_u32, wrap_i32, wrap_i16, in_i32, in_i16 in *;
  change (2 ^ 32) with 4294967296 in *;
  change (2 ^ 31) with 2147483648 in *;
  change (2 ^ 16) with 65536 in *;
  change (2 ^ 15) with 32768 in *.

Lemma wrap_u32_small (z : Z) : 0 <= z < 2 ^ 32 -> wrap_u32 z = z.
Proof. intros Hz. unfold wrap_u32. apply Z.mod_small. exact Hz. Qed.

Lemma wrap_u32_range (z : Z) : 0 <= wrap_u32 z < 2 ^ 32.
Proof. unfold wrap_u32. apply Z.mod_pos_bound. reflexivity. Qed.

Lemma wrap_u32_over (z : Z) :
  2 ^ 32 <= z < 2 ^ 33 -> wrap_u32 z = z - 2 ^ 32.
Proof.
  intros Hz. unfold wrap_u32.
  replace z with ((z - 2 ^ 32) + 1 * 2 ^ 32) at 1 by ring.
  rewrite Z_mod_plus_full. apply Z.mod_small.
  change (2 ^ 33) with (2 * 2 ^ 32) in Hz. lia.
Qed.

Lemma wrap_i32_range (z : Z) : in_i32 (wrap_i32 z).
Proof.
  unfold in_i32, wrap_i32.
  pose proof (Z.mod_pos_bound (z + 2 ^ 31) (2 ^ 32) eq_refl) as Hb.
  change (2 ^ 32) with (2 * 2 ^ 31) in *. lia.
Qed.

Lemma wrap_i32_small (z : Z) : in_i32 z -> wrap_i32 z = z.
Proof.
  unfold in_i32, wrap_i32. intros Hz.
  rewrite Z.mod_small; [ring|].
  change (2 ^ 32) with (2 * 2 ^ 31). lia.
Qed.

Lemma wrap_i16_range (z : Z) : in_i16 (wrap_i16 z).
Proof.
  unfold in_i16, wrap_i16.
  pose proof (Z.mod_pos_bound (z + 2 ^ 15) (2 ^ 16) eq_refl) as Hb.
  change (2 ^ 16) with (2 * 2 ^ 15) in *. lia.
Qed.

Lemma wrap_i16_small (z : Z) : in_i16 z -> wrap_i16 z = z.
Proof.
  unfold in_i16, wrap_i16. intros Hz.
  rewrite Z.mod_small; [ring|].
  change (2 ^ 16) with (2 * 2 ^ 15). lia.
Qed.

(** [wrap_i32] picks a representative of the class modulo 2^32. *)
Lemma wrap_i32_mod (z : Z) : wrap_i32 z mod 2 ^ 32 = z mod 2 ^ 32.
Proof.
  unfold wrap_i32.
  rewrite Zminus_mod_idemp_l.
  replace (z + 2 ^ 31 - 2 ^ 31) with z by ring. reflexivity.
Qed.

Lemma wrap_i32_congr (x y : Z) :
  x mod 2 ^ 32 = y mod 2 ^ 32 -> wrap_i32 x = wrap_i32 y.
Proof.
  intros Hxy. unfold wrap_i32.
  rewrite <- (Zplus_mod_idemp_l x), <- (Zplus_mod_idemp_l y), Hxy.
  reflexivity.
Qed.

Lemma wrap_i32_add (x y : Z) :
  wrap_i32 (wrap_i32 x + wrap_i32 y) = wrap_i32 (x + y).
Proof.
  apply wrap_i32_congr.
  rewrite Zplus_mod, !wrap_i32_mod, <- Zplus_mod. reflexivity.
Qed.

Lemma wrap_i32_sub (x y : Z) :
  wrap_i32 (wrap_i32 x - wrap_i32 y) = wrap_i32 (x - y).
Proof.
  apply wrap_i32_congr.
  rewrite Zminus_mod, !wrap_i32_mod, <- Zminus_mod. reflexivity.
Qed.

Lemma wrap_i32_mul (x y : Z) :
  wrap_i32 (wrap_i32 x * wrap_i32 y) = wrap_i32 (x * y).
Proof.
  apply wrap_i32_congr.
  rewrite Zmult_mod, !wrap_i32_mod, <- Zmult_mod. reflexivity.
Qed.

Lemma wrap_i32_add_l (x y : Z) : wrap_i32 (wrap_i32 x + y) = wrap_i32 (x + y).
Proof.
  apply wrap_i32_congr.
  rewrite Zplus_mod, wrap_i32_mod, <- Zplus_mod. reflexivity.
Qed.

Lemma wrap_i32_add_r (x y : Z) : wrap_i32 (x + wrap_i32 y) = wrap_i32 (x + y).
Proof. rewrite Z.add_comm, wrap_i32_add_l, Z.add_comm. reflexivity. Qed.

Lemma wrap_i32_idem (x : Z) : wrap_i32 (wrap_i32 x) = wrap_i32 x.
Proof. apply wrap_i32_small, wrap_i32_range. Qed.

(** One accumulation step [sum += t] keeps the sum exact modulo 2^32. *)
Lemma add_i32_acc (s t : Z) :
  add_i32 (wrap_i32 s) (wrap_i32 t) = wrap_i32 (s + t).
Proof. unfold add_i32. apply wrap_i32_add. Qed.

(** Narrowing to 16 bits forgets the 32-bit wrap. *)
Lemma wrap_i16_i32 (z : Z) : wrap_i16 (wrap_i32 z) = wrap_i16 z.
Proof.
  unwrap. Z.div_mod_to_equations. lia.
Qed.

(** ** Loops and their traces *)

Lemma bind_done {A B : Type} (c : cmd A) (k : A -> cmd B) st a st' :
  c st = Done (a, st') -> bind c k st = k a st'.
Proof. intros Hc. unfold bind. rewrite Hc. reflexivity. Qed.

(** A loop whose counter trace is known is the body run along the trace. *)
Lemma for_u32_trace {T : Type} fuel i bound step (body : Z -> T -> cmd T)
    rs acc st :
  loop_trace fuel i bound step = Some rs ->
  for_u32 fuel i bound step body acc st = run_list body rs acc st.
Proof.
  revert i rs acc st.
  induction fuel as [|fuel IH]; intros i rs acc st; cbn [loop_trace for_u32].
  - destruct (i <? bound); [discriminate|].
    intros [= <-]. reflexivity.
  - destruct (i <? bound).
    + destruct (loop_trace fuel (add_u32 i step) bound step) as [rs'|] eqn:E;
        [|discriminate].
      intros [= <-]. cbn [run_list]. unfold bind.
      destruct (body i acc st) as [[acc' st']| |]; auto.
    + intros [= <-]. reflexivity.
Qed.

Lemma run_list_app {T : Type} (body : Z -> T -> cmd T) l1 l2 acc st :
  run_list body (l1 ++ l2) acc st
  = bind (run_list body l1 acc) (run_list body l2) st.
Proof.
  revert acc st. induction l1 as [|r l1 IH]; intros acc st; [reflexivity|].
  cbn [app run_list]. unfold bind.
  destruct (body r acc st) as [[acc' st']| |]; [|reflexivity..].
  rewrite IH. reflexivity.
Qed.

(** Invariant rule: [Inv pre] holds after the elements [pre] were
    processed. *)
Lemma run_list_inv {T : Type} (body : Z -> T -> cmd T)
    (Inv : list Z -> T -> store -> Prop) rs :
  (forall pre r acc st, r ∈ rs -> Inv pre acc st ->
     exists acc' st', body r acc st = Done (acc', st')
                      /\ Inv (pre ++ [r]) acc' st') ->
  forall pre acc st, Inv pre acc st ->
  exists acc' st', run_list body rs acc st = Done (acc', st')
                   /\ Inv (pre ++ rs) acc' st'.
Proof.
  induction rs as [|r rs IH]; intros Hstep pre acc st Hinv.
  - exists acc, st. rewrite app_nil_r. split; [reflexivity|exact Hinv].
  - destruct (Hstep pre r acc st) as (acc1 & st1 & Hb & Hinv1);
      [left|exact Hinv|].
    destruct (IH (fun pre' r' acc' st' Hr' =>
                    Hstep pre' r' acc' st' (list_elem_of_further _ _ _ Hr'))
                (pre ++ [r]) acc1 st1 Hinv1) as (acc2 & st2 & Hr & Hinv2).
    exists acc2, st2. split.
    + cbn [run_list]. rewrite (bind_done _ _ _ _ _ Hb). exact Hr.
    + rewrite <- app_assoc in Hinv2. exact Hinv2.
Qed.

(** A loop [for (n = 0; n < bound; n++)] visits [0 .. bound-1]. *)
Lemma loop_trace_unit fuel i bound :
  0 <= i -> bound < 2 ^ 32 -> (Z.to_nat (bound - i) <= fuel)%nat ->
  loop_trace fuel i bound 1 = Some (seqZ i (bound - i)).
Proof.
  revert i. induction fuel as [|fuel IH]; intros i Hi Hb Hf;
    cbn [loop_trace]; destruct (Z.ltb_spec i bound) as [Hlt|Hge].
  - lia.
  - rewrite seqZ_nil by lia. reflexivity.
  - unfold add_u32. rewrite wrap_u32_small by lia.
    rewrite IH by lia.
    rewrite (seqZ_cons i) by lia.
    do 3 f_equal; lia.
  - rewrite seqZ_nil by lia. reflexivity.
Qed.

Lemma multiple_ge_step (d step : Z) :
  0 < step -> 0 < d -> d mod step = 0 -> step <= d.
Proof.
  intros Hs Hd Hmod. apply Z.mod_divide in Hmod; [|lia].
  destruct Hmod as [k ->].
  assert (0 < k) by nia. nia.
Qed.

(** Every visited counter value passed the loop test. *)
Lemma loop_trace_bound fuel i bound step rs r :
  loop_trace fuel i bound step = Some rs -> 0 <= i -> r ∈ rs ->
  0 <= r < bound.
Proof.
  revert i rs. induction fuel as [|fuel IH]; intros i rs; cbn [loop_trace];
    destruct (Z.ltb_spec i bound) as [Hlt|Hge]; try discriminate;
    try (intros [= <-] _ Hr; apply elem_of_nil in Hr; contradiction).
  destruct (loop_trace fuel (add_u32 i step) bound step) as [rs'|] eqn:E;
    [|discriminate].
  intros [= <-] Hi Hr. apply elem_of_cons in Hr as [->|Hr]; [lia|].
  apply (IH _ _ E); [|exact Hr].
  apply wrap_u32_range.
Qed.

(** The loop reaches every value of its arithmetic progression below the
    bound: up to there the counter cannot wrap. *)
Lemma loop_trace_covers fuel i bound step rs r :
  loop_trace fuel i bound step = Some rs ->
  0 < step -> bound <= 2 ^ 32 ->
  0 <= i <= r -> r < bound -> (r - i) mod step = 0 ->
  r ∈ rs.
Proof.
  intros Htr Hstep Hb. revert i rs Htr.
  induction fuel as [|fuel IH]; intros i rs; cbn [loop_trace];
    destruct (Z.ltb_spec i bound) as [Hlt|Hge]; try discriminate;
    try (intros _ ? ? _; lia).
  destruct (loop_trace fuel (add_u32 i step) bound step) as [rs'|] eqn:E;
    [|discriminate].
  intros [= <-] Hi Hr Hmod.
  destruct (decide (r = i)) as [->|Hne]; [left|right].
  assert (Hk : step <= r - i) by (apply multiple_ge_step; lia).
  apply (IH _ _ E).
  - unfold add_u32. rewrite wrap_u32_small by lia. lia.
  - lia.
  - unfold add_u32. rewrite wrap_u32_small by lia.
    replace (r - (i + step)) with (r - i + (-1) * step) by ring.
    rewrite Z_mod_plus_full. exact Hmod.
Qed.

(** When the counter cannot wrap, the loop visits exactly its arithmetic
    progression, each value once. *)
Lemma loop_trace_nowrap fuel i bound step rs :
  loop_trace fuel i bound step = Some rs ->
  0 < step -> bound + step <= 2 ^ 32 -> 0 <= i ->
  (forall r, r ∈ rs <-> (i <= r < bound /\ (r - i) mod step = 0))
  /\ NoDup rs.
Proof.
  intros Htr Hstep Hb. revert i rs Htr.
  induction fuel as [|fuel IH]; intros i rs; cbn [loop_trace];
    destruct (Z.ltb_spec i bound) as [Hlt|Hge]; try discriminate;
    try (intros [= <-] Hi; split; [|constructor];
         intros r; split; [intros Hr; apply elem_of_nil in Hr; contradiction|lia]).
  destruct (loop_trace fuel (add_u32 i step) bound step) as [rs'|] eqn:E;
    [|discriminate].
  intros [= <-] Hi.
  unfold add_u32 in E. rewrite wrap_u32_small in E by lia.
  destruct (IH _ _ E) as [Hmem Hnd]; [lia|].
  split.
  - intros r. rewrite elem_of_cons, Hmem. split.
    + intros [->|[Hr Hmod]].
      * split; [lia|]. rewrite Z.sub_diag. apply Z.mod_0_l. lia.
      * split; [lia|].
        replace (r - i) with (r - (i + step) + 1 * step) by ring.
        rewrite Z_mod_plus_full. exact Hmod.
    + intros [Hr Hmod].
      destruct (decide (r = i)) as [->|Hne]; [left; reflexivity|right].
      assert (Hk : step <= r - i) by (apply multiple_ge_step; lia).
      split; [lia|].
      replace (r - (i + step)) with (r - i + (-1) * step) by ring.
      rewrite Z_mod_plus_full. exact Hmod.
  - constructor; [|exact Hnd].
    rewrite Hmem. lia.
Qed.

(** Termination of the strided loop.  While the counter stays below
    [bound <= 2^31] it either grows without wrapping, or (for a step above
    2^31) wraps to a smaller value; both can happen at most [bound] times. *)
Lemma loop_trace_small_step fuel i bound step :
  0 < step -> bound + step <= 2 ^ 32 -> 0 <= i ->
  (Z.to_nat (bound - i) <= fuel)%nat ->
  is_Some (loop_trace fuel i bound step).
Proof.
  intros Hstep Hb. revert i.
  induction fuel as [|fuel IH]; intros i Hi Hf; cbn [loop_trace];
    destruct (Z.ltb_spec i bound) as [Hlt|Hge]; try (eexists; reflexivity).
  - lia.
  - destruct (IH (add_u32 i step)) as [rs' Hrs'].
    + apply wrap_u32_range.
    + unfold add_u32. rewrite wrap_u32_small; lia.
    + rewrite Hrs'. eexists; reflexivity.
Qed.

Lemma loop_trace_large_step fuel i bound step :
  2 ^ 31 < step < 2 ^ 32 -> bound <= 2 ^ 31 -> 0 <= i < 2 ^ 32 ->
  (i < bound -> (Z.to_nat (i + 1) <= fuel)%nat) ->
  is_Some (loop_trace fuel i bound step).
Proof.
  intros Hstep Hb. revert i.
  induction fuel as [|fuel IH]; intros i Hi Hf; cbn [loop_trace];
    destruct (Z.ltb_spec i bound) as [Hlt|Hge]; try (eexists; reflexivity).
  - specialize (Hf Hlt). lia.
  - specialize (Hf Hlt).
    destruct (IH (add_u32 i step)) as [rs' Hrs'].
    + apply wrap_u32_range.
    + unfold add_u32. destruct (Z_lt_ge_dec (i + step) (2 ^ 32)) as [Hs|Hs].
      * rewrite wrap_u32_small by lia. lia.
      * rewrite wrap_u32_over by (unwrap; lia). unwrap. lia.
    + rewrite Hrs'. eexists; reflexivity.
Qed.

Lemma loop_trace_terminates fuel i bound step :
  0 < step < 2 ^ 32 -> bound <= 2 ^ 31 -> 0 <= i < 2 ^ 32 ->
  (Z.to_nat bound <= fuel)%nat ->
  is_Some (loop_trace fuel i bound step).
Proof.
  intros Hstep Hb Hi Hf.
  destruct (Z_le_gt_dec step (2 ^ 31)) as [Hs|Hs].
  - apply loop_trace_small_step; unwrap; lia.
  - apply loop_trace_large_step; lia.
Qed.

(** ** Row-partitioned kernels

    What the three kernels share: an outer loop over rows whose body
    overwrites the output elements of one row and nothing else. *)

Section Rows.

Variables (A B : list Z) (L : nat).
Variable rows : Z.
Variable body : Z -> unit -> cmd unit.
Variable rowval : Z -> nat -> option Z.

Hypothesis body_ok : forall m st,
  0 <= m < rows -> frame A B L st ->
  exists st', body m tt st = Done (tt, st') /\ overwrites (rowval m) st st'.

Hypothesis rows_disjoint : forall m m' i v v',
  0 <= m < rows -> 0 <= m' < rows -> (i < L)%nat ->
  rowval m i = Some v -> rowval m' i = Some v' -> m = m'.

Lemma rows_written_nil st : rows_written rowval [] st st.
Proof.
  repeat split; try reflexivity.
  intros m i v Hm. apply elem_of_nil in Hm. contradiction.
Qed.

Lemma rows_written_snoc pre r st0 st1 st2 :
  (forall m, m ∈ pre -> 0 <= m < rows) -> 0 <= r < rows ->
  frame A B L st0 ->
  rows_written rowval pre st0 st1 ->
  overwrites (rowval r) st1 st2 ->
  rows_written rowval (pre ++ [r]) st0 st2.
Proof.
  intros Hpre Hr (_ & _ & HL) (HA1 & HB1 & HL1 & Hw1 & Hk1)
    (HA2 & HB2 & HL2 & Ho).
  split; [congruence|]. split; [congruence|]. split; [congruence|].
  split.
  - intros m i v Hm Hi Hv.
    rewrite Ho by lia.
    destruct (rowval r i) as [v'|] eqn:Er.
    + assert (m = r) as ->.
      { apply (rows_disjoint m r i v v'); try lia; try assumption.
        apply elem_of_app in Hm as [Hm| ->%list_elem_of_singleton]; auto. }
      congruence.
    + apply elem_of_app in Hm as [Hm|Hm%list_elem_of_singleton].
      * apply (Hw1 m i v); assumption.
      * congruence.
  - intros i Hnone.
    destruct (decide (i < length (pDst st0))%nat) as [Hi|Hi].
    + rewrite Ho by lia.
      rewrite (Hnone r) by (apply elem_of_app; right; left).
      apply Hk1. intros m Hm. apply Hnone, elem_of_app. left. exact Hm.
    + rewrite !lookup_ge_None_2 by lia. reflexivity.
Qed.

(** Running the row body along any list of rows writes those rows. *)
Lemma rows_run rs st :
  (forall r, r ∈ rs -> 0 <= r < rows) -> frame A B L st ->
  exists st', run_list body rs tt st = Done (tt, st')
              /\ frame A B L st' /\ rows_written rowval rs st st'.
Proof.
  intros Hrs Hfr.
  destruct (run_list_inv body
              (fun pre (_ : unit) st' =>
                 (forall m, m ∈ pre -> 0 <= m < rows)
                 /\ frame A B L st' /\ rows_written rowval pre st st') rs)
    with (pre := @nil Z) (acc := tt) (st := st) as ([] & st' & Hrun & _ & Hfr' & Hw).
  - intros pre r [] st1 Hr (Hpre & Hfr1 & Hw1).
    destruct (body_ok r st1 (Hrs r Hr) Hfr1) as (st2 & Hb & Ho).
    exists tt, st2. split; [exact Hb|]. split; [|split].
    + intros m [Hm| ->%list_elem_of_singleton]%elem_of_app; auto.
    + destruct Hfr1 as (? & ? & ?), Ho as (? & ? & ? & _).
      repeat split; congruence.
    + eapply rows_written_snoc; eauto.
  - split; [|split; [exact Hfr|apply rows_written_nil]].
    intros m Hm. apply elem_of_nil in Hm. contradiction.
  - exists st'. auto.
Qed.

Lemma rowval_dec (rs : list Z) i :
  (exists m v, m ∈ rs /\ rowval m i = Some v)
  \/ (forall m, m ∈ rs -> rowval m i = None).
Proof.
  induction rs as [|r rs IH].
  - right. intros m Hm. apply elem_of_nil in Hm. contradiction.
  - destruct (rowval r i) as [v|] eqn:Er.
    + left. exists r, v. split; [left|exact Er].
    + destruct IH as [(m & v & Hm & Hv)|Hnone].
      * left. exists m, v. split; [right; exact Hm|exact Hv].
      * right. intros m [->|Hm]%elem_of_cons; auto.
Qed.

(** The final store depends only on the set of rows written. *)
Lemma rows_written_unique (rs1 rs2 : list Z) st st1 st2 :
  (forall m, m ∈ rs1 <-> m ∈ rs2) ->
  rows_written rowval rs1 st st1 -> rows_written rowval rs2 st st2 ->
  st1 = st2.
Proof.
  intros Hsame (HA1 & HB1 & HL1 & Hw1 & Hk1) (HA2 & HB2 & HL2 & Hw2 & Hk2).
  destruct st1 as [a1 b1 d1], st2 as [a2 b2 d2]; cbn in *.
  f_equal; try congruence.
  apply list_eq. intros i.
  destruct (decide (i < length (pDst st))%nat) as [Hi|Hi].
  - destruct (rowval_dec rs1 i) as [(m & v & Hm & Hv)|Hnone].
    + rewrite (Hw1 m i v), (Hw2 m i v); auto. apply Hsame, Hm.
    + rewrite Hk1, Hk2; auto. intros m Hm. apply Hnone, Hsame, Hm.
  - rewrite !lookup_ge_None_2 by lia. reflexivity.
Qed.

(** Workers run one after the other are one run along the concatenation
    of their rows. *)
Lemma run_cores_rows (kernel : Z -> cmd unit) (visited : Z -> list Z)
    cores st :
  (forall c st', c ∈ cores ->
     kernel c st' = run_list body (visited c) tt st') ->
  run_cores kernel cores st
  = run_list body (mjoin (visited <$> cores)) tt st.
Proof.
  revert st. induction cores as [|c cs IH]; intros st Hk; [reflexivity|].
  cbn [run_cores]. rewrite fmap_cons. cbn [mjoin list_join].
  rewrite run_list_app. unfold bind.
  rewrite Hk by left.
  destruct (run_list body (visited c) tt st) as [[[] st']| |];
    [|reflexivity..].
  apply IH. intros c' st'' Hc'. apply Hk. right. exact Hc'.
Qed.

(** *** One worker: the outer loop [for (m = core_id; m < rows; m += nPE)] *)

Variable nPE : Z.

Lemma worker_run fuel core_id rs st :
  loop_trace fuel (wrap_u32 core_id) rows nPE = Some rs ->
  frame A B L st ->
  exists st',
    for_u32 fuel (wrap_u32 core_id) rows nPE body tt st = Done (tt, st')
    /\ frame A B L st' /\ rows_written rowval rs st st'.
Proof.
  intros Htr Hfr. rewrite (for_u32_trace _ _ _ _ _ _ _ _ Htr).
  apply rows_run; [|exact Hfr].
  intros r Hr. apply (loop_trace_bound _ _ _ _ _ _ Htr); [|exact Hr].
  apply wrap_u32_range.
Qed.

Lemma rows_written_same_set (rs1 rs2 : list Z) st st' :
  (forall m, m ∈ rs1 <-> m ∈ rs2) ->
  rows_written rowval rs1 st st' -> rows_written rowval rs2 st st'.
Proof.
  intros Hsame (HA & HB & HL & Hw & Hk). repeat split; try assumption.
  - intros m i v Hm. apply Hw, Hsame, Hm.
  - intros i Hnone. apply Hk. intros m Hm. apply Hnone, Hsame, Hm.
Qed.

(** *** All workers: every row below [rows] gets written, whatever the
    number of workers and the order they run in. *)
Lemma workers_run fuel (cores : list Z) st :
  0 < nPE < 2 ^ 32 -> rows <= 2 ^ 31 -> (Z.to_nat rows <= fuel)%nat ->
  (forall c, c ∈ cores <-> 0 <= c < nPE) ->
  frame A B L st ->
  exists st',
    run_cores (fun c => for_u32 fuel (wrap_u32 c) rows nPE body tt) cores st
    = Done (tt, st')
    /\ frame A B L st' /\ rows_written rowval (seqZ 0 rows) st st'.
Proof.
  intros HnPE Hrows Hf Hcores Hfr.
  set (visited := fun c =>
         default [] (loop_trace fuel (wrap_u32 c) rows nPE)).
  assert (Hvis : forall c, 0 <= c < nPE ->
            loop_trace fuel (wrap_u32 c) rows nPE = Some (visited c)).
  { intros c Hc. unfold visited.
    destruct (loop_trace_terminates fuel (wrap_u32 c) rows nPE)
      as [rs Hrs]; auto using wrap_u32_range.
    rewrite Hrs. reflexivity. }
  rewrite (run_cores_rows _ visited).
  2:{ intros c st' Hc. apply for_u32_trace, Hvis, Hcores, Hc. }
  destruct (rows_run (mjoin (visited <$> cores)) st) as (st' & Hrun & Hfr' & Hw).
  - intros r (rs & Hr & (c & -> & Hc)%list_elem_of_fmap)%list_elem_of_join.
    apply Hcores in Hc.
    apply (loop_trace_bound _ _ _ _ _ _ (Hvis c Hc));
      [apply wrap_u32_range|exact Hr].
  - exact Hfr.
  - exists st'. split; [exact Hrun|]. split; [exact Hfr'|].
    apply (rows_written_same_set (mjoin (visited <$> cores))); [|exact Hw].
    intros m. rewrite elem_of_seqZ, list_elem_of_join. split.
    + intros (rs & Hr & (c & -> & Hc)%list_elem_of_fmap).
      apply Hcores in Hc.
      pose proof (loop_trace_bound _ _ _ _ _ _ (Hvis c Hc)
                    (proj1 (wrap_u32_range c)) Hr). lia.
    + intros Hm.
      assert (Hc : 0 <= m mod nPE < nPE) by (apply Z.mod_pos_bound; lia).
      exists (visited (m mod nPE)). split.
      * apply (loop_trace_covers _ _ _ _ _ _ (Hvis _ Hc)); try lia.
        -- rewrite wrap_u32_small by lia.
           pose proof (Z.mod_le m nPE). lia.
        -- rewrite wrap_u32_small by lia.
           rewrite Zminus_mod_idemp_r, Z.sub_diag. apply Z.mod_0_l. lia.
      * apply list_elem_of_fmap. exists (m mod nPE).
        split; [reflexivity|]. apply Hcores, Hc.
Qed.

End Rows.

(** ** Accesses *)

Lemma load_ok (buf : store -> list Z) i st :
  0 <= i < Z.of_nat (length (buf st)) ->
  load buf i st = Done (elt (buf st) i, st).
Proof.
  intros Hi. unfold load, elt.
  destruct (buf st !! Z.to_nat i) as [v|] eqn:E; [reflexivity|].
  apply lookup_ge_None in E. lia.
Qed.

Lemma store_dst_ok i v st :
  0 <= i < Z.of_nat (length (pDst st)) ->
  exists st', store_dst i v st = Done (tt, st')
    /\ overwrites (fun j => if decide (j = Z.to_nat i) then Some v else None)
         st st'.
Proof.
  intros Hi. unfold store_dst.
  destruct (decide (Z.to_nat i < length (pDst st))%nat) as [Hlt|]; [|lia].
  eexists. split; [reflexivity|].
  cbn. split; [reflexivity|]. split; [reflexivity|].
  split; [apply length_insert|].
  intros j Hj. destruct (decide (j = Z.to_nat i)) as [->|Hne].
  - apply list_lookup_insert_eq. exact Hlt.
  - apply list_lookup_insert_ne. congruence.
Qed.

Lemma overwrites_ext (f g : nat -> option Z) st st' :
  (forall i, (i < length (pDst st))%nat -> f i = g i) ->
  overwrites f st st' -> overwrites g st st'.
Proof.
  intros Hfg (HA & HB & HL & Ho). repeat split; try assumption.
  intros i Hi. rewrite <- Hfg by exact Hi. apply Ho, Hi.
Qed.

Lemma overwrites_trans (f g : nat -> option Z) st st1 st2 :
  overwrites f st st1 -> overwrites g st1 st2 ->
  overwrites (fun i => match g i with Some v => Some v | None => f i end)
    st st2.
Proof.
  intros (HA & HB & HL & Ho) (HA' & HB' & HL' & Ho').
  split; [congruence|]. split; [congruence|]. split; [congruence|].
  intros i Hi. rewrite Ho' by lia. destruct (g i); [reflexivity|].
  apply Ho, Hi.
Qed.

Lemma overwrites_frame A B L (f : nat -> option Z) st st' :
  frame A B L st -> overwrites f st st' -> frame A B L st'.
Proof.
  intros (? & ? & ?) (? & ? & ? & _). repeat split; congruence.
Qed.

(** Rows written one by one amount to one overwrite. *)
Lemma rows_written_overwrites (rowval : Z -> nat -> option Z)
    (owned : nat -> option Z) (rs : list Z) st st' :
  (forall i v, owned i = Some v -> exists m, m ∈ rs /\ rowval m i = Some v) ->
  (forall i m, owned i = None -> m ∈ rs -> rowval m i = None) ->
  rows_written rowval rs st st' -> overwrites owned st st'.
Proof.
  intros Hsome Hnone (HA & HB & HL & Hw & Hk).
  repeat split; try assumption.
  intros i Hi. destruct (owned i) as [v|] eqn:E.
  - destruct (Hsome i v E) as (m & Hm & Hv). apply (Hw m i v); assumption.
  - apply Hk. intros m Hm. apply (Hnone i m E Hm).
Qed.

(** Index expressions that stay below 2^32 are exact. *)
Lemma index_exact (r stride n : Z) :
  0 <= r -> 0 <= stride -> 0 <= n -> r * stride + n < 2 ^ 32 ->
  add_u32 (mul_u32 r stride) n = r * stride + n.
Proof.
  intros Hr Hs Hn Hlt. unfold add_u32, mul_u32.
  assert (0 <= r * stride) by nia.
  rewrite (wrap_u32_small (r * stride)) by lia.
  apply wrap_u32_small. lia.
Qed.

(** ** The 32-bit multiply-transpose kernel *)

Section MultTransInner.

Import MatMultTransStride.

Variable a : plp_mat_mult_stride_instance_i32.
Variables (A B : list Z) (L : nat).
Hypothesis Htyped : typed a.
Hypothesis Hsrc : src_ok a A B.

Lemma mult_mac_run m o n acc st :
  0 <= m < M a -> 0 <= o < O a -> 0 <= n < N a -> frame A B L st ->
  mac a m o n (wrap_i32 acc) st
  = Done (wrap_i32 (acc + elt A (m * strideA a + n)
                          * elt B (o * strideB a + n)), st).
Proof.
  intros Hm Ho Hn (HA & HB & _).
  destruct Htyped, Hsrc.
  pose proof (A_fits0 m n Hm Hn). pose proof (B_fits0 o n Ho Hn).
  unfold mac.
  rewrite !index_exact by (unwrap; lia).
  erewrite bind_done by (apply load_ok; rewrite HA; lia).
  erewrite bind_done by (apply load_ok; rewrite HB; lia).
  unfold ret. rewrite HA, HB. do 2 f_equal.
  unfold mul_i32. rewrite <- (wrap_i32_idem (_ * _)).
  rewrite add_i32_acc.
  rewrite <- wrap_i32_add, wrap_i32_idem, wrap_i32_add. reflexivity.
Qed.

Lemma mult_accumulate m o st (ns : list Z) :
  0 <= m < M a -> 0 <= o < O a -> frame A B L st ->
  (forall n, n ∈ ns -> 0 <= n < N a) ->
  forall acc,
  run_list (mac a m o) ns (wrap_i32 acc) st
  = Done (wrap_i32 (acc + sum_over
                            (fun n => elt A (m * strideA a + n)
                                      * elt B (o * strideB a + n)) ns), st).
Proof.
  intros Hm Ho Hfr. induction ns as [|n ns IH]; intros Hns acc.
  - cbn. rewrite Z.add_0_r. reflexivity.
  - cbn [run_list].
    erewrite bind_done by (apply mult_mac_run; auto; apply Hns; left).
    rewrite IH by (intros n' Hn'; apply Hns; right; exact Hn').
    unfold sum_over. cbn [foldr]. rewrite Z.add_assoc. reflexivity.
Qed.

(** The accumulation loop returns the exact sum reduced to 32 bits and
    leaves the store alone. *)
Lemma mult_inner_run fuel m o st :
  0 <= m < M a -> 0 <= o < O a -> frame A B L st ->
  (Z.to_nat (N a) <= fuel)%nat ->
  inner fuel a m o st = Done (wrap_i32 (dot a A B m o), st).
Proof.
  intros Hm Ho Hfr Hf. unfold inner.
  rewrite (for_u32_trace _ _ _ _ _ (seqZ 0 (N a - 0)))
    by (apply loop_trace_unit; destruct Htyped; lia).
  rewrite Z.sub_0_r.
  assert (Hns : forall n, n ∈ seqZ 0 (N a) -> 0 <= n < N a)
    by (intros n Hn%elem_of_seqZ; lia).
  pose proof (mult_accumulate m o st _ Hm Ho Hfr Hns 0) as Hacc.
  change (wrap_i32 0) with 0 in Hacc. exact Hacc.
Qed.

End MultTransInner.

Section MultTransRows.

Import MatMultTransStride.

Variable a : plp_mat_mult_stride_instance_i32.
Variables (A B : list Z) (L : nat).
Variable fuel : nat.
Hypothesis Htyped : typed a.
Hypothesis Hdst : dst_ok a L.
Hypothesis Hfuel : (Z.to_nat (O a) <= fuel)%nat.

(** The accumulation loop is abstracted by what it returns, so that the
    rows can be studied with and without input buffers. *)
Hypothesis Hinner : forall m o st,
  0 <= m < M a -> 0 <= o < O a -> frame A B L st ->
  inner fuel a m o st = Done (wrap_i32 (dot a A B m o), st).

Lemma mult_column_run m o st :
  0 <= m < M a -> 0 <= o < O a -> frame A B L st ->
  exists st', column fuel a m o tt st = Done (tt, st')
              /\ overwrites (cell a A B m o) st st'.
Proof.
  intros Hm Ho Hfr. unfold column.
  rewrite (bind_done _ _ _ _ _ (Hinner m o st Hm Ho Hfr)).
  destruct Htyped, Hdst. pose proof (C_fits0 m o Hm Ho).
  rewrite index_exact by (unwrap; lia).
  destruct Hfr as (_ & _ & HL).
  apply store_dst_ok. rewrite HL. lia.
Qed.

Lemma mult_cells_disjoint m o o' i v v' :
  0 <= m < M a -> 0 <= o < O a -> 0 <= o' < O a ->
  cell a A B m o i = Some v -> cell a A B m o' i = Some v' -> o = o'.
Proof.
  intros Hm Ho Ho'. unfold cell.
  destruct Htyped.
  destruct (decide (i = _)) as [->|]; [|discriminate].
  destruct (decide (_ = _)) as [Heq|]; [|discriminate].
  intros _ _. nia.
Qed.

Lemma mult_row_run m st :
  0 <= m < M a -> frame A B L st ->
  exists st', row fuel a m tt st = Done (tt, st')
              /\ overwrites (rowval a A B m) st st'.
Proof.
  intros Hm Hfr. unfold row. destruct Htyped.
  rewrite (for_u32_trace _ _ _ _ _ (seqZ 0 (O a - 0)))
    by (apply loop_trace_unit; lia).
  rewrite Z.sub_0_r.
  destruct (rows_run A B L (O a) (column fuel a m) (cell a A B m))
    with (rs := seqZ 0 (O a)) (st := st) as (st' & Hrun & _ & Hw).
  - intros o st1 Ho Hfr1. apply mult_column_run; assumption.
  - intros o o' i v v' Ho Ho' _. apply mult_cells_disjoint; assumption.
  - intros o Ho%elem_of_seqZ. lia.
  - exact Hfr.
  - exists st'. split; [exact Hrun|].
    eapply rows_written_overwrites; [| |exact Hw].
    + intros i v. unfold rowval, cell.
      destruct (decide (_ <= _ < _)) as [Hi|]; [|discriminate].
      intros [= <-]. exists (Z.of_nat i - m * strideC a).
      split; [apply elem_of_seqZ; lia|].
      rewrite decide_True by lia. reflexivity.
    + intros i o. unfold rowval, cell.
      destruct (decide (_ <= _ < _)) as [|Hi]; [discriminate|].
      intros _ Ho%elem_of_seqZ.
      rewrite decide_False; [reflexivity|].
      intros ->. apply Hi. nia.
Qed.

Lemma mult_rows_disjoint m m' i v v' :
  0 <= m < M a -> 0 <= m' < M a -> (i < L)%nat ->
  rowval a A B m i = Some v -> rowval a A B m' i = Some v' -> m = m'.
Proof.
  intros Hm Hm' _. unfold rowval. destruct Htyped, Hdst.
  destruct (decide (_ <= _ < _)) as [Hi|]; [|discriminate].
  destruct (decide (_ <= _ < _)) as [Hi'|]; [|discriminate].
  intros _ _. nia.
Qed.

Lemma mult_worker_run core_id rs st :
  loop_trace fuel (wrap_u32 core_id) (M a) (nPE a) = Some rs ->
  frame A B L st ->
  exists st',
    plp_mat_mult_trans_stride_i32p_xpulpv2 fuel core_id a st = Done (tt, st')
    /\ frame A B L st' /\ rows_written (rowval a A B) rs st st'.
Proof.
  unfold plp_mat_mult_trans_stride_i32p_xpulpv2.
  apply (worker_run A B L (M a) (row fuel a) (rowval a A B)).
  - intros m st0. apply mult_row_run.
  - apply mult_rows_disjoint.
Qed.

Lemma mult_workers_run (cores : list Z) st :
  1 <= nPE a -> M a <= 2 ^ 31 -> (Z.to_nat (M a) <= fuel)%nat ->
  (forall c, c ∈ cores <-> 0 <= c < nPE a) ->
  frame A B L st ->
  exists st',
    run_cores (fun c => plp_mat_mult_trans_stride_i32p_xpulpv2 fuel c a)
      cores st = Done (tt, st')
    /\ frame A B L st' /\ rows_written (rowval a A B) (seqZ 0 (M a)) st st'.
Proof.
  intros HnPE HM Hf Hcores Hfr.
  unfold plp_mat_mult_trans_stride_i32p_xpulpv2.
  apply (workers_run A B L (M a) (row fuel a) (rowval a A B)); auto.
  - intros m st0. apply mult_row_run.
  - apply mult_rows_disjoint.
  - destruct Htyped. lia.
Qed.

End MultTransRows.

(** ** The 16-bit subtraction kernel *)

Section SubRows.

Import MatSubStride.

Variable a : plp_mat_sub_stride_instance_i16.
Variables (A B : list Z) (L : nat).
Variable fuel : nat.
Hypothesis Htyped : typed a.
Hypothesis Hsrc : src_ok a A B.
Hypothesis Hdst : dst_ok a L.
Hypothesis Hfuel : (Z.to_nat (N a) <= fuel)%nat.

Lemma sub_column_run m n st :
  0 <= m < M a -> 0 <= n < N a -> frame A B L st ->
  exists st', column a m n tt st = Done (tt, st')
              /\ overwrites (cell a A B m n) st st'.
Proof.
  intros Hm Hn (HA & HB & HL). unfold column.
  destruct Htyped, Hsrc, Hdst.
  pose proof (A_fits0 m n Hm Hn). pose proof (B_fits0 m n Hm Hn).
  pose proof (Y_fits0 m n Hm Hn).
  rewrite !index_exact by (unwrap; lia).
  erewrite bind_done by (apply load_ok; rewrite HA; lia).
  erewrite bind_done by (apply load_ok; rewrite HB; lia).
  unfold sub_i32. rewrite wrap_i16_i32, HA, HB.
  apply store_dst_ok. rewrite HL. lia.
Qed.

Lemma sub_cells_disjoint m n n' i v v' :
  0 <= m < M a -> 0 <= n < N a -> 0 <= n' < N a ->
  cell a A B m n i = Some v -> cell a A B m n' i = Some v' -> n = n'.
Proof.
  intros Hm Hn Hn'. unfold cell.
  destruct Htyped.
  destruct (decide (i = _)) as [->|]; [|discriminate].
  destruct (decide (_ = _)) as [Heq|]; [|discriminate].
  intros _ _. nia.
Qed.

Lemma sub_row_run m st :
  0 <= m < M a -> frame A B L st ->
  exists st', row fuel a m tt st = Done (tt, st')
              /\ overwrites (rowval a A B m) st st'.
Proof.
  intros Hm Hfr. unfold row. destruct Htyped.
  rewrite (for_u32_trace _ _ _ _ _ (seqZ 0 (N a - 0)))
    by (apply loop_trace_unit; lia).
  rewrite Z.sub_0_r.
  destruct (rows_run A B L (N a) (column a m) (cell a A B m))
    with (rs := seqZ 0 (N a)) (st := st) as (st' & Hrun & _ & Hw).
  - intros n st1 Hn Hfr1. apply sub_column_run; assumption.
  - intros n n' i v v' Hn Hn' _. apply sub_cells_disjoint; assumption.
  - intros n Hn%elem_of_seqZ. lia.
  - exact Hfr.
  - exists st'. split; [exact Hrun|].
    eapply rows_written_overwrites; [| |exact Hw].
    + intros i v. unfold rowval, cell.
      destruct (decide (_ <= _ < _)) as [Hi|]; [|discriminate].
      intros [= <-]. exists (Z.of_nat i - m * strideY a).
      split; [apply elem_of_seqZ; lia|].
      rewrite decide_True by lia. reflexivity.
    + intros i n. unfold rowval, cell.
      destruct (decide (_ <= _ < _)) as [|Hi]; [discriminate|].
      intros _ Hn%elem_of_seqZ.
      rewrite decide_False; [reflexivity|].
      intros ->. apply Hi. nia.
Qed.

Lemma sub_rows_disjoint m m' i v v' :
  0 <= m < M a -> 0 <= m' < M a -> (i < L)%nat ->
  rowval a A B m i = Some v -> rowval a A B m' i = Some v' -> m = m'.
Proof.
  intros Hm Hm' _. unfold rowval. destruct Htyped, Hdst.
  destruct (decide (_ <= _ < _)) as [Hi|]; [|discriminate].
  destruct (decide (_ <= _ < _)) as [Hi'|]; [|discriminate].
  intros _ _. nia.
Qed.

Lemma sub_worker_run core_id rs st :
  loop_trace fuel (wrap_u32 core_id) (M a) (nPE a) = Some rs ->
  frame A B L st ->
  exists st',
    plp_mat_sub_stride_i16p_xpulpv2 fuel core_id a st = Done (tt, st')
    /\ frame A B L st' /\ rows_written (rowval a A B) rs st st'.
Proof.
  unfold plp_mat_sub_stride_i16p_xpulpv2.
  apply (worker_run A B L (M a) (row fuel a) (rowval a A B)).
  - intros m st0. apply sub_row_run.
  - apply sub_rows_disjoint.
Qed.

Lemma sub_workers_run (cores : list Z) st :
  1 <= nPE a -> M a <= 2 ^ 31 -> (Z.to_nat (M a) <= fuel)%nat ->
  (forall c, c ∈ cores <-> 0 <= c < nPE a) ->
  frame A B L st ->
  exists st',
    run_cores (fun c => plp_mat_sub_stride_i16p_xpulpv2 fuel c a) cores st
    = Done (tt, st')
    /\ frame A B L st' /\ rows_written (rowval a A B) (seqZ 0 (M a)) st st'.
Proof.
  intros HnPE HM Hf Hcores Hfr.
  unfold plp_mat_sub_stride_i16p_xpulpv2.
  apply (workers_run A B L (M a) (row fuel a) (rowval a A B)); auto.
  - intros m st0. apply sub_row_run.
  - apply sub_rows_disjoint.
  - destruct Htyped. lia.
Qed.

End SubRows.

(** ** The complex 16-bit multiply-transpose kernel *)

Lemma cidx_exact (r stride n k : Z) :
  0 <= r -> 0 <= stride -> 0 <= n -> 0 <= k ->
  (r * stride + n) * 2 + k < 2 ^ 32 ->
  MatMultTransCmplxStride.cidx r stride n k = (r * stride + n) * 2 + k.
Proof.
  intros Hr Hs Hn Hk Hlt. unfold MatMultTransCmplxStride.cidx.
  assert (0 <= r * stride) by nia.
  rewrite (index_exact r stride n) by (unwrap; lia).
  unfold add_u32, mul_u32.
  rewrite (wrap_u32_small (_ * 2)) by (unwrap; lia).
  apply wrap_u32_small. unwrap. lia.
Qed.

Section MultTransCmplxInner.

Import MatMultTransCmplxStride.

Variable a : plp_mat_mult_cmplx_stride_instance_i16.
Variables (A B : list Z) (L : nat).
Hypothesis Htyped : typed a.
Hypothesis Hsrc : src_ok a A B.

Lemma cmplx_mac_run m o n s1 s2 st :
  0 <= m < M a -> 0 <= o < O a -> 0 <= n < N a -> frame A B L st ->
  mac a m o n (wrap_i32 s1, wrap_i32 s2) st
  = Done ((wrap_i32 (s1 + (re A (m * strideA a + n) * re B (o * strideB a + n)
                           - im A (m * strideA a + n) * im B (o * strideB a + n))),
           wrap_i32 (s2 + (re A (m * strideA a + n) * im B (o * strideB a + n)
                           + im A (m * strideA a + n) * re B (o * strideB a + n)))),
          st).
Proof.
  intros Hm Ho Hn (HA & HB & _).
  destruct Htyped, Hsrc.
  pose proof (A_fits0 m n Hm Hn). pose proof (B_fits0 o n Ho Hn).
  unfold mac.
  rewrite !cidx_exact by (unwrap; lia).
  erewrite bind_done by (apply load_ok; rewrite HA; lia).
  erewrite bind_done by (apply load_ok; rewrite HA; lia).
  erewrite bind_done by (apply load_ok; rewrite HB; lia).
  erewrite bind_done by (apply load_ok; rewrite HB; lia).
  unfold ret, re, im. rewrite HA, HB. cbn [fst snd].
  unfold sub_i32, mul_i32, add_i32.
  rewrite wrap_i32_sub, (wrap_i32_add (_ * _) (_ * _)), !wrap_i32_add.
  reflexivity.
Qed.

Lemma cmplx_accumulate m o st (ns : list Z) :
  0 <= m < M a -> 0 <= o < O a -> frame A B L st ->
  (forall n, n ∈ ns -> 0 <= n < N a) ->
  forall s1 s2,
  run_list (mac a m o) ns (wrap_i32 s1, wrap_i32 s2) st
  = Done ((wrap_i32 (s1 + sum_over
             (fun n => re A (m * strideA a + n) * re B (o * strideB a + n)
                       - im A (m * strideA a + n) * im B (o * strideB a + n))
             ns),
           wrap_i32 (s2 + sum_over
             (fun n => re A (m * strideA a + n) * im B (o * strideB a + n)
                       + im A (m * strideA a + n) * re B (o * strideB a + n))
             ns)),
          st).
Proof.
  intros Hm Ho Hfr. induction ns as [|n ns IH]; intros Hns s1 s2.
  - cbn. rewrite !Z.add_0_r. reflexivity.
  - cbn [run_list].
    erewrite bind_done by (apply cmplx_mac_run; auto; apply Hns; left).
    rewrite IH by (intros n' Hn'; apply Hns; right; exact Hn').
    unfold sum_over. cbn [foldr]. rewrite !Z.add_assoc. reflexivity.
Qed.

(** The accumulation loop returns the two exact sums reduced to 32 bits
    and leaves the store alone. *)
Lemma cmplx_inner_run fuel m o st :
  0 <= m < M a -> 0 <= o < O a -> frame A B L st ->
  (Z.to_nat (N a) <= fuel)%nat ->
  inner fuel a m o st
  = Done ((wrap_i32 (dot_re a A B m o), wrap_i32 (dot_im a A B m o)), st).
Proof.
  intros Hm Ho Hfr Hf. unfold inner.
  rewrite (for_u32_trace _ _ _ _ _ (seqZ 0 (N a - 0)))
    by (apply loop_trace_unit; destruct Htyped; lia).
  rewrite Z.sub_0_r.
  assert (Hns : forall n, n ∈ seqZ 0 (N a) -> 0 <= n < N a)
    by (intros n Hn%elem_of_seqZ; lia).
  pose proof (cmplx_accumulate m o st _ Hm Ho Hfr Hns 0 0) as Hacc.
  change (wrap_i32 0) with 0 in Hacc. exact Hacc.
Qed.

End MultTransCmplxInner.

Section MultTransCmplxRows.

Import MatMultTransCmplxStride.

Variable a : plp_mat_mult_cmplx_stride_instance_i16.
Variables (A B : list Z) (L : nat).
Variable fuel : nat.
Hypothesis Htyped : typed a.
Hypothesis Hdst : dst_ok a L.
Hypothesis Hfuel : (Z.to_nat (O a) <= fuel)%nat.

Hypothesis Hinner : forall m o st,
  0 <= m < M a -> 0 <= o < O a -> frame A B L st ->
  inner fuel a m o st
  = Done ((wrap_i32 (dot_re a A B m o), wrap_i32 (dot_im a A B m o)), st).

Lemma cmplx_column_run m o st :
  0 <= m < M a -> 0 <= o < O a -> frame A B L st ->
  exists st', column fuel a m o tt st = Done (tt, st')
              /\ overwrites (cell a A B m o) st st'.
Proof.
  intros Hm Ho Hfr. unfold column.
  rewrite (bind_done _ _ _ _ _ (Hinner m o st Hm Ho Hfr)).
  destruct Htyped, Hdst. pose proof (C_fits0 m o Hm Ho).
  rewrite !cidx_exact by (unwrap; lia).
  destruct Hfr as (_ & _ & HL). cbn [fst snd].
  destruct (store_dst_ok ((m * strideC a + o) * 2 + 0)
              (wrap_i32 (dot_re a A B m o)) st) as (st1 & Hs1 & Ho1);
    [rewrite HL; lia|].
  rewrite (bind_done _ _ _ _ _ Hs1).
  destruct (store_dst_ok ((m * strideC a + o) * 2 + 1)
              (wrap_i32 (dot_im a A B m o)) st1) as (st2 & Hs2 & Ho2).
  { destruct Ho1 as (_ & _ & HL1 & _). rewrite HL1, HL. lia. }
  exists st2. split; [exact Hs2|].
  eapply overwrites_ext; [|exact (overwrites_trans _ _ _ _ _ Ho1 Ho2)].
  intros i _. cbv beta. unfold cell.
  destruct (decide (i = Z.to_nat (_ + 1))) as [->|Hne1].
  - rewrite decide_False by lia. reflexivity.
  - reflexivity.
Qed.

Lemma cmplx_cells_disjoint m o o' i v v' :
  0 <= m < M a -> 0 <= o < O a -> 0 <= o' < O a ->
  cell a A B m o i = Some v -> cell a A B m o' i = Some v' -> o = o'.
Proof.
  intros Hm Ho Ho'. unfold cell. destruct Htyped.
  repeat (destruct (decide (i = _)); try discriminate); intros _ _; nia.
Qed.

Lemma cmplx_row_run m st :
  0 <= m < M a -> frame A B L st ->
  exists st', row fuel a m tt st = Done (tt, st')
              /\ overwrites (rowval a A B m) st st'.
Proof.
  intros Hm Hfr. unfold row. destruct Htyped.
  rewrite (for_u32_trace _ _ _ _ _ (seqZ 0 (O a - 0)))
    by (apply loop_trace_unit; lia).
  rewrite Z.sub_0_r.
  destruct (rows_run A B L (O a) (column fuel a m) (cell a A B m))
    with (rs := seqZ 0 (O a)) (st := st) as (st' & Hrun & _ & Hw).
  - intros o st1 Ho Hfr1. apply cmplx_column_run; assumption.
  - intros o o' i v v' Ho Ho' _. apply cmplx_cells_disjoint; assumption.
  - intros o Ho%elem_of_seqZ. lia.
  - exact Hfr.
  - exists st'. split; [exact Hrun|].
    eapply rows_written_overwrites; [| |exact Hw].
    + intros i v. unfold rowval, cell.
      destruct (decide (_ <= _ < _)) as [Hi|]; [|discriminate].
      intros [= <-]. exists (Z.of_nat i / 2 - m * strideC a).
      split; [apply elem_of_seqZ; Z.div_mod_to_equations; lia|].
      destruct (decide (Z.of_nat i mod 2 = 0)) as [He|Ho].
      * rewrite decide_True; [reflexivity|].
        Z.div_mod_to_equations. lia.
      * rewrite decide_False by (Z.div_mod_to_equations; lia).
        rewrite decide_True; [reflexivity|].
        Z.div_mod_to_equations. lia.
    + intros i o. unfold rowval, cell.
      destruct (decide (_ <= _ < _)) as [|Hi]; [discriminate|].
      intros _ Ho%elem_of_seqZ.
      rewrite !decide_False; [reflexivity| |]; intros ->; apply Hi; nia.
Qed.

Lemma cmplx_rows_disjoint m m' i v v' :
  0 <= m < M a -> 0 <= m' < M a -> (i < L)%nat ->
  rowval a A B m i = Some v -> rowval a A B m' i = Some v' -> m = m'.
Proof.
  intros Hm Hm' _. unfold rowval. destruct Htyped, Hdst.
  destruct (decide (_ <= _ < _)) as [Hi|]; [|discriminate].
  destruct (decide (_ <= _ < _)) as [Hi'|]; [|discriminate].
  intros _ _. nia.
Qed.

Lemma cmplx_worker_run core_id rs st :
  loop_trace fuel (wrap_u32 core_id) (M a) (nPE a) = Some rs ->
  frame A B L st ->
  exists st',
    plp_mat_mult_trans_cmplx_stride_i16p_xpulpv2 fuel core_id a st
    = Done (tt, st')
    /\ frame A B L st' /\ rows_written (rowval a A B) rs st st'.
Proof.
  unfold plp_mat_mult_trans_cmplx_stride_i16p_xpulpv2.
  apply (worker_run A B L (M a) (row fuel a) (rowval a A B)).
  - intros m st0. apply cmplx_row_run.
  - apply cmplx_rows_disjoint.
Qed.

Lemma cmplx_workers_run (cores : list Z) st :
  1 <= nPE a -> M a <= 2 ^ 31 -> (Z.to_nat (M a) <= fuel)%nat ->
  (forall c, c ∈ cores <-> 0 <= c < nPE a) ->
  frame A B L st ->
  exists st',
    run_cores
      (fun c => plp_mat_mult_trans_cmplx_stride_i16p_xpulpv2 fuel c a)
      cores st = Done (tt, st')
    /\ frame A B L st' /\ rows_written (rowval a A B) (seqZ 0 (M a)) st st'.
Proof.
  intros HnPE HM Hf Hcores Hfr.
  unfold plp_mat_mult_trans_cmplx_stride_i16p_xpulpv2.
  apply (workers_run A B L (M a) (row fuel a) (rowval a A B)); auto.
  - intros m st0. apply cmplx_row_run.
  - apply cmplx_rows_disjoint.
  - destruct Htyped. lia.
Qed.

End MultTransCmplxRows.

(** ** Schedules and row counts *)

Lemma schedule_cores (cores : list Z) (n : Z) :
  cores ≡ₚ seqZ 0 n -> forall c, c ∈ cores <-> 0 <= c < n.
Proof. intros Hp c. rewrite Hp, elem_of_seqZ. lia. Qed.

(** The worker that owns row [m] reaches it. *)
Lemma owner_reaches fuel M nPE m rs :
  0 < nPE < 2 ^ 32 -> M <= 2 ^ 32 -> 0 <= m < M ->
  loop_trace fuel (wrap_u32 (m mod nPE)) M nPE = Some rs ->
  m ∈ rs.
Proof.
  intros HnPE HM Hm Htr.
  assert (Hc : 0 <= m mod nPE < nPE) by (apply Z.mod_pos_bound; lia).
  pose proof (Z.mod_le m nPE).
  rewrite wrap_u32_small in Htr by lia.
  apply (loop_trace_covers _ _ _ _ _ _ Htr); try lia.
  rewrite Zminus_mod_idemp_r, Z.sub_diag. apply Z.mod_0_l. lia.
Qed.

Section MultTransValid.

Import MatMultTransStride.

Lemma mult_rows_bounded a L :
  typed a -> dst_ok a L -> 0 < O a -> M a <= 2 ^ 31.
Proof.
  intros [] [] HO.
  destruct (Z_le_gt_dec (M a) 0) as [|HM]; [unwrap; lia|].
  pose proof (C_fits0 (M a - 1) 0). unwrap. nia.
Qed.

Lemma mult_rowval_at a A B m o :
  0 <= m -> 0 <= strideC a -> 0 <= o < O a ->
  rowval a A B m (Z.to_nat (m * strideC a + o))
  = Some (wrap_i32 (dot a A B m o)).
Proof.
  intros Hm Hs Ho. unfold rowval.
  rewrite Z2Nat.id by nia.
  rewrite decide_True by lia.
  do 3 f_equal. lia.
Qed.

Lemma mult_valid_worker a st fuel core_id rs :
  valid a st -> (budget a <= fuel)%nat ->
  loop_trace fuel (wrap_u32 core_id) (M a) (nPE a) = Some rs ->
  exists st',
    plp_mat_mult_trans_stride_i32p_xpulpv2 fuel core_id a st = Done (tt, st')
    /\ rows_written (rowval a (pSrcA st) (pSrcB st)) rs st st'.
Proof.
  intros (Ht & Hs & Hd) Hf Htr. unfold budget in Hf.
  destruct (mult_worker_run a (pSrcA st) (pSrcB st) (length (pDst st)) fuel
              Ht Hd) with (core_id := core_id) (rs := rs) (st := st)
    as (st' & Hrun & _ & Hw); auto.
  - destruct Ht. lia.
  - intros m o st0 Hm Ho Hfr.
    apply (mult_inner_run a _ _ (length (pDst st))); auto. lia.
  - repeat split.
  - exists st'. auto.
Qed.

Lemma mult_valid_workers a st fuel (cores : list Z) :
  valid a st -> 0 < O a -> 1 <= nPE a -> (budget a <= fuel)%nat ->
  cores ≡ₚ seqZ 0 (nPE a) ->
  exists st',
    run_cores (fun c => plp_mat_mult_trans_stride_i32p_xpulpv2 fuel c a)
      cores st = Done (tt, st')
    /\ rows_written (rowval a (pSrcA st) (pSrcB st)) (seqZ 0 (M a)) st st'.
Proof.
  intros (Ht & Hs & Hd) HO HnPE Hf Hcores. unfold budget in Hf.
  destruct (mult_workers_run a (pSrcA st) (pSrcB st) (length (pDst st)) fuel
              Ht Hd) with (cores := cores) (st := st)
    as (st' & Hrun & _ & Hw); auto.
  - destruct Ht. lia.
  - intros m o st0 Hm Ho Hfr.
    apply (mult_inner_run a _ _ (length (pDst st))); auto. lia.
  - apply (mult_rows_bounded a (length (pDst st))); auto.
  - lia.
  - apply schedule_cores, Hcores.
  - repeat split.
  - exists st'. auto.
Qed.

End MultTransValid.

Section SubValid.

Import MatSubStride.

Lemma sub_rows_bounded a L :
  typed a -> dst_ok a L -> 0 < N a -> M a <= 2 ^ 31.
Proof.
  intros [] [] HN.
  destruct (Z_le_gt_dec (M a) 0) as [|HM]; [unwrap; lia|].
  pose proof (Y_fits0 (M a - 1) 0). unwrap. nia.
Qed.

Lemma sub_rowval_at a A B m n :
  0 <= m -> 0 <= strideY a -> 0 <= n < N a ->
  rowval a A B m (Z.to_nat (m * strideY a + n)) = Some (diff a A B m n).
Proof.
  intros Hm Hs Hn. unfold rowval.
  rewrite Z2Nat.id by nia.
  rewrite decide_True by lia.
  do 2 f_equal. lia.
Qed.

Lemma sub_valid_worker a st fuel core_id rs :
  valid a st -> (budget a <= fuel)%nat ->
  loop_trace fuel (wrap_u32 core_id) (M a) (nPE a) = Some rs ->
  exists st',
    plp_mat_sub_stride_i16p_xpulpv2 fuel core_id a st = Done (tt, st')
    /\ rows_written (rowval a (pSrcA st) (pSrcB st)) rs st st'.
Proof.
  intros (Ht & Hs & Hd) Hf Htr. unfold budget in Hf.
  destruct (sub_worker_run a (pSrcA st) (pSrcB st) (length (pDst st)) fuel
              Ht Hs Hd) with (core_id := core_id) (rs := rs) (st := st)
    as (st' & Hrun & _ & Hw); auto.
  - destruct Ht. lia.
  - repeat split.
  - exists st'. auto.
Qed.

Lemma sub_valid_workers a st fuel (cores : list Z) :
  valid a st -> 0 < N a -> 1 <= nPE a -> (budget a <= fuel)%nat ->
  cores ≡ₚ seqZ 0 (nPE a) ->
  exists st',
    run_cores (fun c => plp_mat_sub_stride_i16p_xpulpv2 fuel c a) cores st
    = Done (tt, st')
    /\ rows_written (rowval a (pSrcA st) (pSrcB st)) (seqZ 0 (M a)) st st'.
Proof.
  intros (Ht & Hs & Hd) HN HnPE Hf Hcores. unfold budget in Hf.
  destruct (sub_workers_run a (pSrcA st) (pSrcB st) (length (pDst st)) fuel
              Ht Hs Hd) with (cores := cores) (st := st)
    as (st' & Hrun & _ & Hw); auto.
  - destruct Ht. lia.
  - apply (sub_rows_bounded a (length (pDst st))); auto.
  - lia.
  - apply schedule_cores, Hcores.
  - repeat split.
  - exists st'. auto.
Qed.

End SubValid.

Section MultTransCmplxValid.

Import MatMultTransCmplxStride.

Lemma cmplx_rows_bounded a L :
  typed a -> dst_ok a L -> 0 < O a -> M a <= 2 ^ 31.
Proof.
  intros [] [] HO.
  destruct (Z_le_gt_dec (M a) 0) as [|HM]; [unwrap; lia|].
  pose proof (C_fits0 (M a - 1) 0). unwrap. nia.
Qed.

Lemma cmplx_rowval_re a A B m o :
  0 <= m -> 0 <= strideC a -> 0 <= o < O a ->
  rowval a A B m (Z.to_nat ((m * strideC a + o) * 2 + 0))
  = Some (wrap_i32 (dot_re a A B m o)).
Proof.
  intros Hm Hs Ho. unfold rowval.
  assert (0 <= m * strideC a) by nia.
  rewrite Z2Nat.id by lia.
  rewrite decide_True by lia.
  rewrite decide_True by (Z.div_mod_to_equations; lia).
  do 3 f_equal. Z.div_mod_to_equations. lia.
Qed.

Lemma cmplx_rowval_im a A B m o :
  0 <= m -> 0 <= strideC a -> 0 <= o < O a ->
  rowval a A B m (Z.to_nat ((m * strideC a + o) * 2 + 1))
  = Some (wrap_i32 (dot_im a A B m o)).
Proof.
  intros Hm Hs Ho. unfold rowval.
  assert (0 <= m * strideC a) by nia.
  rewrite Z2Nat.id by lia.
  rewrite decide_True by lia.
  rewrite decide_False by (Z.div_mod_to_equations; lia).
  do 3 f_equal. Z.div_mod_to_equations. lia.
Qed.

Lemma cmplx_valid_worker a st fuel core_id rs :
  valid a st -> (budget a <= fuel)%nat ->
  loop_trace fuel (wrap_u32 core_id) (M a) (nPE a) = Some rs ->
  exists st',
    plp_mat_mult_trans_cmplx_stride_i16p_xpulpv2 fuel core_id a st
    = Done (tt, st')
    /\ rows_written (rowval a (pSrcA st) (pSrcB st)) rs st st'.
Proof.
  intros (Ht & Hs & Hd) Hf Htr. unfold budget in Hf.
  destruct (cmplx_worker_run a (pSrcA st) (pSrcB st) (length (pDst st)) fuel
              Ht Hd) with (core_id := core_id) (rs := rs) (st := st)
    as (st' & Hrun & _ & Hw); auto.
  - destruct Ht. lia.
  - intros m o st0 Hm Ho Hfr.
    apply (cmplx_inner_run a _ _ (length (pDst st))); auto. lia.
  - repeat split.
  - exists st'. auto.
Qed.

Lemma cmplx_valid_workers a st fuel (cores : list Z) :
  valid a st -> 0 < O a -> 1 <= nPE a -> (budget a <= fuel)%nat ->
  cores ≡ₚ seqZ 0 (nPE a) ->
  exists st',
    run_cores
      (fun c => plp_mat_mult_trans_cmplx_stride_i16p_xpulpv2 fuel c a)
      cores st = Done (tt, st')
    /\ rows_written (rowval a (pSrcA st) (pSrcB st)) (seqZ 0 (M a)) st st'.
Proof.
  intros (Ht & Hs & Hd) HO HnPE Hf Hcores. unfold budget in Hf.
  destruct (cmplx_workers_run a (pSrcA st) (pSrcB st) (length (pDst st)) fuel
              Ht Hd) with (cores := cores) (st := st)
    as (st' & Hrun & _ & Hw); auto.
  - destruct Ht. lia.
  - intros m o st0 Hm Ho Hfr.
    apply (cmplx_inner_run a _ _ (length (pDst st))); auto. lia.
  - apply (cmplx_rows_bounded a (length (pDst st))); auto.
  - lia.
  - apply schedule_cores, Hcores.
  - repeat split.
  - exists st'. auto.
Qed.

End MultTransCmplxValid.

(** ** Traversals that cannot wrap *)

Lemma residue_progression (M nPE c r : Z) :
  0 < nPE -> 0 <= c < nPE ->
  (c <= r < M /\ (r - c) mod nPE = 0) <-> (0 <= r < M /\ r mod nPE = c).
Proof.
  intros HnPE Hc. split.
  - intros [Hr Hmod]. split; [lia|].
    apply Z.mod_divide in Hmod; [|lia]. destruct Hmod as [k Hk].
    replace r with (c + k * nPE) by lia.
    rewrite Z_mod_plus_full. apply Z.mod_small. exact Hc.
  - intros [Hr Hmod]. pose proof (Z.mod_le r nPE). split; [lia|].
    rewrite <- Hmod, Zminus_mod_idemp_r, Z.sub_diag. apply Z.mod_0_l. lia.
Qed.

(** Without wrap the [k]-th row visited is [i + k*step]: the counter grows
    by [step] at each iteration. *)
Lemma loop_trace_nowrap_lookup fuel i bound step rs :
  loop_trace fuel i bound step = Some rs ->
  0 < step -> bound + step <= 2 ^ 32 -> 0 <= i ->
  forall (k : nat) r, rs !! k = Some r -> r = i + Z.of_nat k * step /\ r < bound.
Proof.
  intros Htr Hstep Hb. revert i rs Htr.
  induction fuel as [|fuel IH]; intros i rs; cbn [loop_trace];
    destruct (Z.ltb_spec i bound) as [Hlt|Hge]; try discriminate;
    try (intros [= <-] _ k r Hk; rewrite lookup_nil in Hk; discriminate).
  destruct (loop_trace fuel (add_u32 i step) bound step) as [rs'|] eqn:E;
    [|discriminate].
  intros [= <-] Hi k r Hk.
  unfold add_u32 in E. rewrite wrap_u32_small in E by lia.
  destruct k as [|k]; cbn in Hk.
  - injection Hk as <-. lia.
  - destruct (IH _ _ E ltac:(lia) k r Hk) as [-> Hlt']. lia.
Qed.

Lemma traversal_partition fuel M nPE :
  1 <= nPE -> 0 <= M -> M + nPE <= 2 ^ 32 -> (Z.to_nat M <= fuel)%nat ->
  is_partition fuel M nPE.
Proof.
  intros HnPE HM Hnowrap Hf c Hc. unfold traversal.
  rewrite wrap_u32_small by lia.
  destruct (loop_trace_small_step fuel c M nPE) as [rs Hrs]; try lia.
  exists rs. split; [exact Hrs|].
  destruct (loop_trace_nowrap _ _ _ _ _ Hrs) as [Hmem Hnd]; try lia.
  split; [exact Hnd|].
  intros r. rewrite Hmem. apply residue_progression; lia.
Qed.

(** ** Loops that finish within the budget *)

Lemma bind_in_time {T U : Type} (c : cmd T) (k : T -> cmd U) st :
  c st <> OutOfFuel -> (forall t st', k t st' <> OutOfFuel) ->
  bind c k st <> OutOfFuel.
Proof.
  intros Hc Hk. unfold bind.
  destruct (c st) as [[t st']| |]; [apply Hk|discriminate|congruence].
Qed.

Lemma load_in_time (buf : store -> list Z) i st : load buf i st <> OutOfFuel.
Proof. unfold load. destruct (buf st !! Z.to_nat i); discriminate. Qed.

Lemma store_dst_in_time i v st : store_dst i v st <> OutOfFuel.
Proof. unfold store_dst. destruct (decide _); discriminate. Qed.

Lemma run_list_in_time {T : Type} (body : Z -> T -> cmd T) rs acc st :
  (forall r acc' st', body r acc' st' <> OutOfFuel) ->
  run_list body rs acc st <> OutOfFuel.
Proof.
  intros Hbody. revert acc st.
  induction rs as [|r rs IH]; intros acc st; cbn [run_list].
  - discriminate.
  - apply bind_in_time; auto.
Qed.

Lemma unit_loop_in_time {T : Type} fuel bound (body : Z -> T -> cmd T)
    acc st :
  0 <= bound < 2 ^ 32 -> (Z.to_nat bound <= fuel)%nat ->
  (forall r acc' st', body r acc' st' <> OutOfFuel) ->
  for_u32 fuel 0 bound 1 body acc st <> OutOfFuel.
Proof.
  intros Hb Hf Hbody.
  rewrite (for_u32_trace _ _ _ _ _ (seqZ 0 (bound - 0)))
    by (apply loop_trace_unit; lia).
  apply run_list_in_time, Hbody.
Qed.

Lemma mult_row_in_time fuel a m u st :
  MatMultTransStride.typed a -> (MatMultTransStride.budget a <= fuel)%nat ->
  MatMultTransStride.row fuel a m u st <> OutOfFuel.
Proof.
  intros [] Hf. unfold MatMultTransStride.budget in Hf.
  unfold MatMultTransStride.row.
  apply unit_loop_in_time; [lia..|].
  intros o [] st1. unfold MatMultTransStride.column.
  apply bind_in_time; [|intros; apply store_dst_in_time].
  unfold MatMultTransStride.inner.
  apply unit_loop_in_time; [lia..|].
  intros n sum st2. unfold MatMultTransStride.mac.
  repeat (apply bind_in_time; [apply load_in_time|intros]).
  discriminate.
Qed.

Lemma sub_row_in_time fuel a m u st :
  MatSubStride.typed a -> (MatSubStride.budget a <= fuel)%nat ->
  MatSubStride.row fuel a m u st <> OutOfFuel.
Proof.
  intros [] Hf. unfold MatSubStride.budget in Hf.
  unfold MatSubStride.row.
  apply unit_loop_in_time; [lia..|].
  intros n [] st1. unfold MatSubStride.column.
  repeat (apply bind_in_time; [apply load_in_time|intros]).
  apply store_dst_in_time.
Qed.

(** ** Sums *)

Lemma sum_over_ext_in (f g : Z -> Z) (ns : list Z) :
  (forall n, n ∈ ns -> f n = g n) -> sum_over f ns = sum_over g ns.
Proof.
  induction ns as [|n ns IH]; intros Hfg; [reflexivity|].
  unfold sum_over in *. cbn [foldr].
  rewrite (Hfg n) by left. rewrite IH; [reflexivity|].
  intros n' Hn'. apply Hfg. right. exact Hn'.
Qed.

Lemma sum_over_zero (f : Z -> Z) (ns : list Z) :
  (forall n, n ∈ ns -> f n = 0) -> sum_over f ns = 0.
Proof.
  induction ns as [|n ns IH]; intros Hf; [reflexivity|].
  unfold sum_over in *. cbn [foldr].
  rewrite (Hf n) by left. rewrite IH; [reflexivity|].
  intros n' Hn'. apply Hf. right. exact Hn'.
Qed.

(** A sum whose terms vanish except at [o] is its term at [o]. *)
Lemma sum_over_pick (f : Z -> Z) (o : Z) (ns : list Z) :
  NoDup ns -> o ∈ ns -> (forall n, n ∈ ns -> n <> o -> f n = 0) ->
  sum_over f ns = f o.
Proof.
  induction ns as [|n ns IH]; intros Hnd Ho Hf.
  - apply elem_of_nil in Ho. contradiction.
  - apply NoDup_cons in Hnd as [Hn Hnd].
    unfold sum_over in *. cbn [foldr].
    destruct (decide (n = o)) as [->|Hne].
    + change (foldr (fun n s => f n + s) 0 ns) with (sum_over f ns).
      rewrite sum_over_zero; [lia|].
      intros n' Hn'. apply Hf; [right; exact Hn'|]. intros ->. contradiction.
    + rewrite (Hf n) by (left || assumption).
      apply elem_of_cons in Ho as [->|Ho]; [contradiction|].
      rewrite IH; auto. intros n' Hn'. apply Hf. right. exact Hn'.
Qed.

(** A sum of terms within [-c, c] is within the number of terms times
    that. *)
Lemma sum_over_bound (f : Z -> Z) (c : Z) (ns : list Z) :
  (forall n, n ∈ ns -> - c <= f n <= c) ->
  - (Z.of_nat (length ns) * c) <= sum_over f ns <= Z.of_nat (length ns) * c.
Proof.
  induction ns as [|n ns IH]; intros Hf; [cbn; lia|].
  unfold sum_over in *. cbn [foldr length].
  pose proof (Hf n ltac:(left)).
  assert (forall n', n' ∈ ns -> - c <= f n' <= c)
    by (intros n' Hn'; apply Hf; right; exact Hn').
  specialize (IH H0). lia.
Qed.

Lemma product_bound (x y K K' : Z) :
  - K <= x <= K -> - K' <= y <= K' -> - (K * K') <= x * y <= K * K'.
Proof. intros Hx Hy. nia. Qed.

(** ** Sums within the capacity of the accumulator *)

Lemma mult_dot_capacity a A B m o K K' :
  0 <= MatMultTransStride.N a ->
  (forall n, 0 <= n < MatMultTransStride.N a ->
     - K <= elt A (m * MatMultTransStride.strideA a + n) <= K) ->
  (forall n, 0 <= n < MatMultTransStride.N a ->
     - K' <= elt B (o * MatMultTransStride.strideB a + n) <= K') ->
  MatMultTransStride.N a * (K * K') < 2 ^ 31 ->
  in_i32 (MatMultTransStride.dot a A B m o).
Proof.
  intros HN HA HB Hcap. unfold MatMultTransStride.dot.
  pose proof (sum_over_bound
                (fun n =>
                   elt A (m * MatMultTransStride.strideA a + n)
                   * elt B (o * MatMultTransStride.strideB a + n))
                (K * K') (seqZ 0 (MatMultTransStride.N a))) as Hb.
  rewrite length_seqZ, Z2Nat.id in Hb by lia.
  unfold in_i32.
  enough (- (MatMultTransStride.N a * (K * K'))
          <= sum_over
               (fun n =>
                  elt A (m * MatMultTransStride.strideA a + n)
                  * elt B (o * MatMultTransStride.strideB a + n))
               (seqZ 0 (MatMultTransStride.N a))
          <= MatMultTransStride.N a * (K * K')) by lia.
  apply Hb. intros n Hn%elem_of_seqZ.
  apply product_bound; [apply HA|apply HB]; lia.
Qed.

Lemma cmplx_dot_capacity a A B m o K K' :
  0 <= MatMultTransCmplxStride.N a ->
  (forall n k, 0 <= n < MatMultTransCmplxStride.N a -> 0 <= k <= 1 ->
     - K <= elt A ((m * MatMultTransCmplxStride.strideA a + n) * 2 + k)
     <= K) ->
  (forall n k, 0 <= n < MatMultTransCmplxStride.N a -> 0 <= k <= 1 ->
     - K' <= elt B ((o * MatMultTransCmplxStride.strideB a + n) * 2 + k)
     <= K') ->
  MatMultTransCmplxStride.N a * (2 * (K * K')) < 2 ^ 31 ->
  in_i32 (MatMultTransCmplxStride.dot_re a A B m o)
  /\ in_i32 (MatMultTransCmplxStride.dot_im a A B m o).
Proof.
  intros HN HA HB Hcap.
  assert (Hterm : forall n k k', 0 <= n < MatMultTransCmplxStride.N a ->
            0 <= k <= 1 -> 0 <= k' <= 1 ->
            - (K * K')
            <= elt A ((m * MatMultTransCmplxStride.strideA a + n) * 2 + k)
               * elt B ((o * MatMultTransCmplxStride.strideB a + n) * 2 + k')
            <= K * K').
  { intros n k k' Hn Hk Hk'.
    apply product_bound; [apply HA|apply HB]; lia. }
  split; unfold in_i32.
  - pose proof (sum_over_bound
                  (fun n =>
                     MatMultTransCmplxStride.re A
                       (m * MatMultTransCmplxStride.strideA a + n)
                     * MatMultTransCmplxStride.re B
                         (o * MatMultTransCmplxStride.strideB a + n)
                     - MatMultTransCmplxStride.im A
                         (m * MatMultTransCmplxStride.strideA a + n)
                       * MatMultTransCmplxStride.im B
                           (o * MatMultTransCmplxStride.strideB a + n))
                  (2 * (K * K')) (seqZ 0 (MatMultTransCmplxStride.N a)))
      as Hb.
    rewrite length_seqZ, Z2Nat.id in Hb by lia.
    unfold MatMultTransCmplxStride.dot_re.
    enough (Hall : forall n, n ∈ seqZ 0 (MatMultTransCmplxStride.N a) ->
              - (2 * (K * K'))
              <= MatMultTransCmplxStride.re A
                   (m * MatMultTransCmplxStride.strideA a + n)
                 * MatMultTransCmplxStride.re B
                     (o * MatMultTransCmplxStride.strideB a + n)
                 - MatMultTransCmplxStride.im A
                     (m * MatMultTransCmplxStride.strideA a + n)
                   * MatMultTransCmplxStride.im B
                       (o * MatMultTransCmplxStride.strideB a + n)
              <= 2 * (K * K')) by (specialize (Hb Hall); lia).
    intros n Hn%elem_of_seqZ.
    unfold MatMultTransCmplxStride.re, MatMultTransCmplxStride.im.
    pose proof (Hterm n 0 0 ltac:(lia) ltac:(lia) ltac:(lia)).
    pose proof (Hterm n 1 1 ltac:(lia) ltac:(lia) ltac:(lia)).
    lia.
  - pose proof (sum_over_bound
                  (fun n =>
                     MatMultTransCmplxStride.re A
                       (m * MatMultTransCmplxStride.strideA a + n)
                     * MatMultTransCmplxStride.im B
                         (o * MatMultTransCmplxStride.strideB a + n)
                     + MatMultTransCmplxStride.im A
                         (m * MatMultTransCmplxStride.strideA a + n)
                       * MatMultTransCmplxStride.re B
                           (o * MatMultTransCmplxStride.strideB a + n))
                  (2 * (K * K')) (seqZ 0 (MatMultTransCmplxStride.N a)))
      as Hb.
    rewrite length_seqZ, Z2Nat.id in Hb by lia.
    unfold MatMultTransCmplxStride.dot_im.
    enough (Hall : forall n, n ∈ seqZ 0 (MatMultTransCmplxStride.N a) ->
              - (2 * (K * K'))
              <= MatMultTransCmplxStride.re A
                   (m * MatMultTransCmplxStride.strideA a + n)
                 * MatMultTransCmplxStride.im B
                     (o * MatMultTransCmplxStride.strideB a + n)
                 + MatMultTransCmplxStride.im A
                     (m * MatMultTransCmplxStride.strideA a + n)
                   * MatMultTransCmplxStride.re B
                       (o * MatMultTransCmplxStride.strideB a + n)
              <= 2 * (K * K')) by (specialize (Hb Hall); lia).
    intros n Hn%elem_of_seqZ.
    unfold MatMultTransCmplxStride.re, MatMultTransCmplxStride.im.
    pose proof (Hterm n 0 1 ltac:(lia) ltac:(lia) ltac:(lia)).
    pose proof (Hterm n 1 0 ltac:(lia) ltac:(lia) ltac:(lia)).
    lia.
Qed.

(** * The claims *)

Section Claim3.

Import MatMultTransStride.

(** C3.  For a valid descriptor, once every worker has run (in any
    order), the output element at offset [m*strideC + o] is, for every
    [m] in [0, M) and [o] in [0, O), the sum over [n] in [0, N) of
    [A[m*strideA + n] * B[o*strideB + n]] computed in 32-bit integer
    arithmetic; and the worker that owns row [m] alone already leaves
    that value there. *)
Theorem C3_mult_trans_output a st fuel (cores : list Z) m o :
  valid a st -> 1 <= nPE a -> (budget a <= fuel)%nat ->
  cores ≡ₚ seqZ 0 (nPE a) ->
  0 <= m < M a -> 0 <= o < O a ->
  let value :=
    wrap_i32 (sum_over (fun n => elt (pSrcA st) (m * strideA a + n)
                                 * elt (pSrcB st) (o * strideB a + n))
                (seqZ 0 (N a))) in
  (exists st',
     run_cores (fun c => plp_mat_mult_trans_stride_i32p_xpulpv2 fuel c a)
       cores st = Done (tt, st')
     /\ pDst st' !! Z.to_nat (m * strideC a + o) = Some value)
  /\ (exists st',
        plp_mat_mult_trans_stride_i32p_xpulpv2 fuel (m mod nPE a) a st
        = Done (tt, st')
        /\ pDst st' !! Z.to_nat (m * strideC a + o) = Some value).
Proof.
  intros Hv HnPE Hf Hcores Hm Ho value.
  assert (Hlt : (Z.to_nat (m * strideC a + o) < length (pDst st))%nat).
  { destruct Hv as ([] & _ & []). pose proof (C_fits0 m o Hm Ho). nia. }
  assert (Hval : rowval a (pSrcA st) (pSrcB st) m
                   (Z.to_nat (m * strideC a + o)) = Some value).
  { destruct Hv as ([] & _). apply mult_rowval_at; lia. }
  split.
  - destruct (mult_valid_workers a st fuel cores)
      as (st' & Hrun & _ & _ & _ & Hw & _); auto; [lia|].
    exists st'. split; [exact Hrun|].
    apply (Hw m); auto. apply elem_of_seqZ. lia.
  - pose proof Hv as (Ht & _ & Hd).
    assert (HM : M a <= 2 ^ 31)
      by (apply (mult_rows_bounded a (length (pDst st))); auto; lia).
    destruct (loop_trace_terminates fuel (wrap_u32 (m mod nPE a))
                (M a) (nPE a)) as [rs Hrs].
    + destruct Ht. lia.
    + exact HM.
    + apply wrap_u32_range.
    + unfold budget in Hf. lia.
    + destruct (mult_valid_worker a st fuel (m mod nPE a) rs)
        as (st' & Hrun & _ & _ & _ & Hw & _); auto.
      exists st'. split; [exact Hrun|].
      apply (Hw m); auto.
      apply (owner_reaches fuel (M a) (nPE a)); auto.
      * destruct Ht. lia.
      * unwrap. lia.
Qed.

End Claim3.

Section Claim4.

Import MatMultTransCmplxStride.

(** C4.  For a valid descriptor, once every worker has run, output
    position [(m, o)] holds the interleaved pair [(sum_re, sum_im)] at
    primitive offsets [(m*strideC + o)*2] and [(m*strideC + o)*2 + 1],
    where [sum_re] is the sum over [n] of [a_re*b_re - a_im*b_im] and
    [sum_im] the sum over [n] of [a_re*b_im + a_im*b_re], the parts of
    an input element being read at [(row*stride + n)*2] and
    [(row*stride + n)*2 + 1].  For A = [(1,2)], B = [(3,4)] and one inner
    step the kernel stores [sum_re = -5] and [sum_im = 10]. *)
Theorem C4_cmplx_output :
  (forall a st fuel (cores : list Z) m o,
     valid a st -> 1 <= nPE a -> (budget a <= fuel)%nat ->
     cores ≡ₚ seqZ 0 (nPE a) ->
     0 <= m < M a -> 0 <= o < O a ->
     exists st',
       run_cores
         (fun c => plp_mat_mult_trans_cmplx_stride_i16p_xpulpv2 fuel c a)
         cores st = Done (tt, st')
       /\ pDst st' !! Z.to_nat ((m * strideC a + o) * 2)
          = Some (wrap_i32 (sum_over
              (fun n =>
                 elt (pSrcA st) ((m * strideA a + n) * 2)
                 * elt (pSrcB st) ((o * strideB a + n) * 2)
                 - elt (pSrcA st) ((m * strideA a + n) * 2 + 1)
                   * elt (pSrcB st) ((o * strideB a + n) * 2 + 1))
              (seqZ 0 (N a))))
       /\ pDst st' !! Z.to_nat ((m * strideC a + o) * 2 + 1)
          = Some (wrap_i32 (sum_over
              (fun n =>
                 elt (pSrcA st) ((m * strideA a + n) * 2)
                 * elt (pSrcB st) ((o * strideB a + n) * 2 + 1)
                 + elt (pSrcA st) ((m * strideA a + n) * 2 + 1)
                   * elt (pSrcB st) ((o * strideB a + n) * 2))
              (seqZ 0 (N a)))))
  /\ plp_mat_mult_trans_cmplx_stride_i16p_xpulpv2 1 0
       (mkInstance 1 1 1 1 1 1 1) (mkStore [1; 2] [3; 4] [0; 0])
     = Done (tt, mkStore [1; 2] [3; 4] [-5; 10]).
Proof.
  split; [|reflexivity].
  intros a st fuel cores m o Hv HnPE Hf Hcores Hm Ho.
  destruct (cmplx_valid_workers a st fuel cores)
    as (st' & Hrun & _ & _ & _ & Hw & _); auto; [lia|].
  exists st'. split; [exact Hrun|].
  destruct Hv as ([] & _ & []). pose proof (C_fits0 m o Hm Ho).
  assert (0 <= m * strideC a) by nia.
  split.
  - apply (Hw m); [apply elem_of_seqZ; lia|lia|].
    rewrite <- (Z.add_0_r (_ * 2)).
    rewrite cmplx_rowval_re by lia.
    unfold dot_re, re, im. do 2 f_equal.
    apply foldr_ext; [|reflexivity..].
    intros n s. rewrite !Z.add_0_r. reflexivity.
  - apply (Hw m); [apply elem_of_seqZ; lia|lia|].
    rewrite cmplx_rowval_im by lia.
    unfold dot_im, re, im. do 2 f_equal.
    apply foldr_ext; [|reflexivity..].
    intros n s. rewrite !Z.add_0_r. reflexivity.
Qed.

End Claim4.

Section Claim5.

Import MatSubStride.

(** C5.  For a valid descriptor, once every worker has run, the output
    element at offset [m*strideY + n] is, for every [m] in [0, M) and [n]
    in [0, N), the difference [A[m*strideA + n] - B[m*strideB + n]]
    stored as a 16-bit integer, each buffer addressed with its own
    stride; the worker that owns row [m] alone already leaves it
    there. *)
Theorem C5_sub_output a st fuel (cores : list Z) m n :
  valid a st -> 1 <= nPE a -> (budget a <= fuel)%nat ->
  cores ≡ₚ seqZ 0 (nPE a) ->
  0 <= m < M a -> 0 <= n < N a ->
  let value :=
    wrap_i16 (elt (pSrcA st) (m * strideA a + n)
              - elt (pSrcB st) (m * strideB a + n)) in
  in_i16 value
  /\ (exists st',
        run_cores (fun c => plp_mat_sub_stride_i16p_xpulpv2 fuel c a)
          cores st = Done (tt, st')
        /\ pDst st' !! Z.to_nat (m * strideY a + n) = Some value)
  /\ (exists st',
        plp_mat_sub_stride_i16p_xpulpv2 fuel (m mod nPE a) a st
        = Done (tt, st')
        /\ pDst st' !! Z.to_nat (m * strideY a + n) = Some value).
Proof.
  intros Hv HnPE Hf Hcores Hm Hn value.
  assert (Hlt : (Z.to_nat (m * strideY a + n) < length (pDst st))%nat).
  { destruct Hv as ([] & _ & []). pose proof (Y_fits0 m n Hm Hn). nia. }
  assert (Hval : rowval a (pSrcA st) (pSrcB st) m
                   (Z.to_nat (m * strideY a + n)) = Some value).
  { destruct Hv as ([] & _). apply sub_rowval_at; lia. }
  split; [apply wrap_i16_range|]. split.
  - destruct (sub_valid_workers a st fuel cores)
      as (st' & Hrun & _ & _ & _ & Hw & _); auto; [lia|].
    exists st'. split; [exact Hrun|].
    apply (Hw m); auto. apply elem_of_seqZ. lia.
  - pose proof Hv as (Ht & _ & Hd).
    assert (HM : M a <= 2 ^ 31)
      by (apply (sub_rows_bounded a (length (pDst st))); auto; lia).
    destruct (loop_trace_terminates fuel (wrap_u32 (m mod nPE a))
                (M a) (nPE a)) as [rs Hrs].
    + destruct Ht. lia.
    + exact HM.
    + apply wrap_u32_range.
    + unfold budget in Hf. lia.
    + destruct (sub_valid_worker a st fuel (m mod nPE a) rs)
        as (st' & Hrun & _ & _ & _ & Hw & _); auto.
      exists st'. split; [exact Hrun|].
      apply (Hw m); auto.
      apply (owner_reaches fuel (M a) (nPE a)); auto.
      * destruct Ht. lia.
      * unwrap. lia.
Qed.

End Claim5.

Lemma run_cores_single (kernel : Z -> cmd unit) c st :
  run_cores kernel [c] st = kernel c st.
Proof.
  cbn. unfold bind, ret. destruct (kernel c st) as [[[] st']| |]; reflexivity.
Qed.

Lemma single_schedule : [0] ≡ₚ seqZ 0 1.
Proof. reflexivity. Qed.

(** C2.  For every valid descriptor (one with at least one output column,
    zero-length dimensions being invalid geometry) and every [nPE >= 1],
    also above [M], running the parallel kernel once per [core_id] in
    [0, nPE), in any order, ends in the store that the same descriptor
    with [nPE = 1] produces: the output does not depend on [nPE].  Shown
    for the 32-bit and for the complex 16-bit multiply-transpose kernel. *)
Theorem C2_output_independent_of_nPE :
  (forall a st fuel (cores : list Z),
     MatMultTransStride.valid a st ->
     0 < MatMultTransStride.O a -> 1 <= MatMultTransStride.nPE a ->
     (MatMultTransStride.budget a <= fuel)%nat ->
     cores ≡ₚ seqZ 0 (MatMultTransStride.nPE a) ->
     exists st',
       run_cores
         (fun c =>
            MatMultTransStride.plp_mat_mult_trans_stride_i32p_xpulpv2
              fuel c a) cores st = Done (tt, st')
       /\ MatMultTransStride.plp_mat_mult_trans_stride_i32p_xpulpv2
            fuel 0 (MatMultTransStride.with_nPE a 1) st = Done (tt, st'))
  /\ (forall a st fuel (cores : list Z),
        MatMultTransCmplxStride.valid a st ->
        0 < MatMultTransCmplxStride.O a ->
        1 <= MatMultTransCmplxStride.nPE a ->
        (MatMultTransCmplxStride.budget a <= fuel)%nat ->
        cores ≡ₚ seqZ 0 (MatMultTransCmplxStride.nPE a) ->
        exists st',
          run_cores
            (fun c =>
               MatMultTransCmplxStride.plp_mat_mult_trans_cmplx_stride_i16p_xpulpv2
                 fuel c a) cores st = Done (tt, st')
          /\ MatMultTransCmplxStride.plp_mat_mult_trans_cmplx_stride_i16p_xpulpv2
               fuel 0 (MatMultTransCmplxStride.with_nPE a 1) st
             = Done (tt, st')).
Proof.
  split.
  - intros a st fuel cores Hv HO HnPE Hf Hcores.
    destruct (mult_valid_workers a st fuel cores Hv HO HnPE Hf Hcores)
      as (st1 & Hrun1 & Hw1).
    assert (Hv' : MatMultTransStride.valid (MatMultTransStride.with_nPE a 1) st).
    { destruct Hv as ([] & Hs & Hd). split; [|split].
      - constructor; cbn; try assumption. unwrap. lia.
      - destruct Hs. constructor; assumption.
      - destruct Hd. constructor; assumption. }
    destruct (mult_valid_workers (MatMultTransStride.with_nPE a 1) st fuel [0]
                Hv' HO ltac:(cbn; lia) Hf single_schedule)
      as (st2 & Hrun2 & Hw2).
    rewrite run_cores_single in Hrun2.
    exists st1. split; [exact Hrun1|].
    rewrite Hrun2. do 2 f_equal. symmetry.
    eapply rows_written_unique; [|exact Hw1|exact Hw2]. reflexivity.
  - intros a st fuel cores Hv HO HnPE Hf Hcores.
    destruct (cmplx_valid_workers a st fuel cores Hv HO HnPE Hf Hcores)
      as (st1 & Hrun1 & Hw1).
    assert (Hv' : MatMultTransCmplxStride.valid
                    (MatMultTransCmplxStride.with_nPE a 1) st).
    { destruct Hv as ([] & Hs & Hd). split; [|split].
      - constructor; cbn; try assumption. unwrap. lia.
      - destruct Hs. constructor; assumption.
      - destruct Hd. constructor; assumption. }
    destruct (cmplx_valid_workers (MatMultTransCmplxStride.with_nPE a 1) st
                fuel [0] Hv' HO ltac:(cbn; lia) Hf single_schedule)
      as (st2 & Hrun2 & Hw2).
    rewrite run_cores_single in Hrun2.
    exists st1. split; [exact Hrun1|].
    rewrite Hrun2. do 2 f_equal. symmetry.
    eapply rows_written_unique; [|exact Hw1|exact Hw2]. reflexivity.
Qed.

(** C1 (amended).  For every worker count [nPE >= 1] and every row count
    [M] with [M + nPE <= 2^32] (the 32-bit row counter cannot wrap), the
    row sets the outer loops go through form a partition of [0, M) across
    [core_id] in [0, nPE): worker [c] visits exactly the rows [r] below [M]
    with [r mod nPE = c], each once.  The outer loops of the multiply-
    transpose and of the subtraction kernel run their row body along these
    traversals. *)
Theorem C1_rows_partition fuel M nPE :
  1 <= nPE -> 0 <= M -> M + nPE <= 2 ^ 32 -> (Z.to_nat M <= fuel)%nat ->
  is_partition fuel M nPE
  /\ (forall a core_id st rs,
        MatMultTransStride.M a = M -> MatMultTransStride.nPE a = nPE ->
        traversal fuel core_id M nPE = Some rs ->
        MatMultTransStride.plp_mat_mult_trans_stride_i32p_xpulpv2
          fuel core_id a st
        = run_list (MatMultTransStride.row fuel a) rs tt st)
  /\ (forall a core_id st rs,
        MatSubStride.M a = M -> MatSubStride.nPE a = nPE ->
        traversal fuel core_id M nPE = Some rs ->
        MatSubStride.plp_mat_sub_stride_i16p_xpulpv2 fuel core_id a st
        = run_list (MatSubStride.row fuel a) rs tt st).
Proof.
  intros HnPE HM Hnowrap Hf. split; [|split].
  - apply traversal_partition; assumption.
  - intros a core_id st rs <- <- Htr. apply for_u32_trace, Htr.
  - intros a core_id st rs <- <- Htr. apply for_u32_trace, Htr.
Qed.

(** With [M = 2] rows and [nPE = 2^32 - 1] workers the counter of worker 1
    wraps from row 1 to row 0, which worker 0 visits as well: the
    traversals are no partition. *)
Lemma C1_counterexample :
  traversal 3 0 2 4294967295 = Some [0]
  /\ traversal 3 1 2 4294967295 = Some [1; 0]
  /\ ~ is_partition 3 2 4294967295.
Proof.
  split; [reflexivity|]. split; [reflexivity|].
  intros Hpart. destruct (Hpart 1) as (rs & Htr & _ & Hmem); [lia|].
  assert (rs = [1; 0]) as -> by (vm_compute in Htr; congruence).
  assert (Hin : 0 ∈ [1; 0]) by (right; left).
  apply Hmem in Hin as [_ Hmod]. vm_compute in Hmod. discriminate.
Qed.

(** Rows of pitch [s] and width [N <= s] do not meet. *)
Lemma rows_apart (s N m m' n n' : Z) :
  N <= s -> 0 <= n < N -> 0 <= n' < N -> m < m' ->
  m * s + n < m' * s + n'.
Proof.
  intros Hs Hn Hn' Hm. assert (m * s + s <= m' * s) by nia. lia.
Qed.

(** A loop that is not entered returns at once, with any budget. *)
Lemma for_u32_skip {T : Type} fuel i bound step (body : Z -> T -> cmd T)
    acc st :
  bound <= i -> for_u32 fuel i bound step body acc st = Done (acc, st).
Proof.
  intros Hge. destruct fuel; cbn [for_u32];
    rewrite (proj2 (Z.ltb_ge i bound) Hge); reflexivity.
Qed.

Section Claim6.

Import MatSubStride.

(** C6 (amended).  For every valid descriptor with [M + nPE <= 2^32] and
    every [core_id] in [0, nPE), one invocation of the subtraction kernel
    leaves both input buffers as they were and changes only output
    elements [m*strideY + n] of rows [m] assigned to [core_id]; the rows
    of the other workers are unchanged.  A worker with no row below [M]
    returns the store untouched, for any descriptor and any buffers. *)
Theorem C6_sub_writes_own_rows :
  (forall a st fuel core_id,
     valid a st -> 1 <= nPE a -> 0 <= core_id < nPE a ->
     M a + nPE a <= 2 ^ 32 -> (budget a <= fuel)%nat ->
     exists st',
       plp_mat_sub_stride_i16p_xpulpv2 fuel core_id a st = Done (tt, st')
       /\ pSrcA st' = pSrcA st /\ pSrcB st' = pSrcB st
       /\ length (pDst st') = length (pDst st)
       /\ leaves_other_rows a core_id st st'
       /\ (forall m n, 0 <= m < M a -> m mod nPE a <> core_id ->
             0 <= n < N a ->
             pDst st' !! Z.to_nat (m * strideY a + n)
             = pDst st !! Z.to_nat (m * strideY a + n)))
  /\ (forall a st fuel core_id,
        M a <= wrap_u32 core_id ->
        plp_mat_sub_stride_i16p_xpulpv2 fuel core_id a st = Done (tt, st)).
Proof.
  split.
  - intros a st fuel core_id Hv HnPE Hc Hnowrap Hf.
    pose proof Hv as (Ht & Hs & Hd).
    assert (Hu : wrap_u32 core_id = core_id)
      by (apply wrap_u32_small; destruct Ht; lia).
    destruct (loop_trace_small_step fuel (wrap_u32 core_id) (M a) (nPE a))
      as [rs Hrs]; try (unfold budget in Hf; rewrite ?Hu; lia).
    destruct (sub_valid_worker a st fuel core_id rs Hv Hf Hrs)
      as (st' & Hrun & HA & HB & HL & _ & Hk).
    rewrite Hu in Hrs.
    destruct (loop_trace_nowrap _ _ _ _ _ Hrs) as [Hmem _]; try lia.
    assert (Hleaves : leaves_other_rows a core_id st st').
    { intros i Hi. apply Hk. intros m Hm%Hmem. unfold rowval.
      destruct (decide (_ <= _ < _)) as [Hin|]; [|reflexivity].
      exfalso. apply (Hi m (Z.of_nat i - m * strideY a)).
      - unfold assigned. lia.
      - lia.
      - lia. }
    exists st'. repeat (split; [assumption|]).
    intros m n Hm Hother Hn. apply Hleaves.
    intros m' n' (Hm' & Hge & Hmod) Hn'.
    assert (m' mod nPE a = core_id)
      by (apply (residue_progression (M a) (nPE a) core_id m'); lia).
    assert (Hne : m <> m') by congruence.
    pose proof (cols_fit _ _ Hd) as Hfit.
    pose proof (strideY_u32 _ Ht) as HsY.
    assert (0 <= m * strideY a) by nia.
    assert (0 <= m' * strideY a) by nia.
    intros Heq. apply Z2Nat.inj in Heq; [|lia..].
    destruct (Z.lt_trichotomy m m') as [Hlt|[->|Hgt]]; [|congruence|].
    + pose proof (rows_apart (strideY a) (N a) m m' n n' Hfit Hn Hn' Hlt).
      lia.
    + pose proof (rows_apart (strideY a) (N a) m' m n' n Hfit Hn' Hn Hgt).
      lia.
  - intros a st fuel core_id Hge.
    apply for_u32_skip, Hge.
Qed.

(** With [M = 2] rows and [nPE = 2^32 - 1] workers, worker 1 wraps from
    row 1 to row 0 and overwrites output element 0, which belongs to row
    0 of worker 0. *)
Lemma C6_counterexample :
  let a := mkInstance 2 1 1 1 1 4294967295 in
  let st := mkStore [5; 7] [1; 2] [0; 0] in
  let st' := mkStore [5; 7] [1; 2] [4; 5] in
  valid a st
  /\ plp_mat_sub_stride_i16p_xpulpv2 2 1 a st = Done (tt, st')
  /\ ~ leaves_other_rows a 1 st st'.
Proof.
  intros a st st'. split; [|split].
  - split; [|split]; constructor; cbn; intros; unwrap; lia.
  - reflexivity.
  - intros Hleaves. specialize (Hleaves 0%nat). cbn in Hleaves.
    enough (Some 4 = Some 0) by discriminate.
    apply Hleaves. intros m n (Hm & Hge & _) Hn. lia.
Qed.

End Claim6.

Section Claim9.

(** C9 (amended).  For every descriptor with [nPE >= 1] and
    [M + nPE <= 2^32], an invocation of the multiply-transpose or of the
    subtraction kernel ends within the budget: the outer loop starts at
    [core_id], adds [nPE] at each iteration and stops at the first value
    not below [M]; the run never exhausts the budget, and on valid
    buffers it completes. *)
Theorem C9_kernels_terminate :
  (forall a st fuel core_id,
     MatMultTransStride.typed a ->
     1 <= MatMultTransStride.nPE a ->
     MatMultTransStride.M a + MatMultTransStride.nPE a <= 2 ^ 32 ->
     0 <= core_id < 2 ^ 32 ->
     (MatMultTransStride.budget a <= fuel)%nat ->
     (exists rs,
        traversal fuel core_id (MatMultTransStride.M a)
          (MatMultTransStride.nPE a) = Some rs
        /\ forall (k : nat) r, rs !! k = Some r ->
             r = core_id + Z.of_nat k * MatMultTransStride.nPE a
             /\ r < MatMultTransStride.M a)
     /\ MatMultTransStride.plp_mat_mult_trans_stride_i32p_xpulpv2
          fuel core_id a st <> OutOfFuel
     /\ (MatMultTransStride.valid a st ->
         exists st',
           MatMultTransStride.plp_mat_mult_trans_stride_i32p_xpulpv2
             fuel core_id a st = Done (tt, st')))
  /\ (forall a st fuel core_id,
        MatSubStride.typed a ->
        1 <= MatSubStride.nPE a ->
        MatSubStride.M a + MatSubStride.nPE a <= 2 ^ 32 ->
        0 <= core_id < 2 ^ 32 ->
        (MatSubStride.budget a <= fuel)%nat ->
        (exists rs,
           traversal fuel core_id (MatSubStride.M a) (MatSubStride.nPE a)
           = Some rs
           /\ forall (k : nat) r, rs !! k = Some r ->
                r = core_id + Z.of_nat k * MatSubStride.nPE a
                /\ r < MatSubStride.M a)
        /\ MatSubStride.plp_mat_sub_stride_i16p_xpulpv2 fuel core_id a st
           <> OutOfFuel
        /\ (MatSubStride.valid a st ->
            exists st',
              MatSubStride.plp_mat_sub_stride_i16p_xpulpv2 fuel core_id a st
              = Done (tt, st'))).
Proof.
  split.
  - intros a st fuel core_id Ht HnPE Hnowrap Hc Hf.
    assert (Hu : wrap_u32 core_id = core_id) by (apply wrap_u32_small; lia).
    destruct (loop_trace_small_step fuel core_id (MatMultTransStride.M a)
                (MatMultTransStride.nPE a)) as [rs Hrs];
      try (unfold MatMultTransStride.budget in Hf; destruct Ht; lia).
    split; [|split].
    + exists rs. unfold traversal. rewrite Hu. split; [exact Hrs|].
      apply (loop_trace_nowrap_lookup _ _ _ _ _ Hrs); lia.
    + unfold MatMultTransStride.plp_mat_mult_trans_stride_i32p_xpulpv2.
      rewrite Hu, (for_u32_trace _ _ _ _ _ _ _ _ Hrs).
      apply run_list_in_time. intros r u st1.
      apply mult_row_in_time; assumption.
    + intros Hv. rewrite <- Hu in Hrs.
      destruct (mult_valid_worker a st fuel core_id rs Hv Hf Hrs)
        as (st' & Hrun & _).
      exists st'. exact Hrun.
  - intros a st fuel core_id Ht HnPE Hnowrap Hc Hf.
    assert (Hu : wrap_u32 core_id = core_id) by (apply wrap_u32_small; lia).
    destruct (loop_trace_small_step fuel core_id (MatSubStride.M a)
                (MatSubStride.nPE a)) as [rs Hrs];
      try (unfold MatSubStride.budget in Hf; destruct Ht; lia).
    split; [|split].
    + exists rs. unfold traversal. rewrite Hu. split; [exact Hrs|].
      apply (loop_trace_nowrap_lookup _ _ _ _ _ Hrs); lia.
    + unfold MatSubStride.plp_mat_sub_stride_i16p_xpulpv2.
      rewrite Hu, (for_u32_trace _ _ _ _ _ _ _ _ Hrs).
      apply run_list_in_time. intros r u st1.
      apply sub_row_in_time; assumption.
    + intros Hv. rewrite <- Hu in Hrs.
      destruct (sub_valid_worker a st fuel core_id rs Hv Hf Hrs)
        as (st' & Hrun & _).
      exists st'. exact Hrun.
Qed.

(** Worker 0 with [M = 2^31 + 1] and [nPE = 2^31], on two-element
    buffers with [N = 1] and pitch 2.  The row counter alternates between
    0 and 2^31 for ever; the index [m * 2] of row 2^31 wraps to 0, so
    every iteration loads [pSrcA[0]] and [pSrcB[0]] and stores their
    difference in [pDst[0]]. *)
Lemma sub_spins fuel0 fuel i d :
  i = 0 \/ i = 2 ^ 31 ->
  for_u32 fuel i (2 ^ 31 + 1) (2 ^ 31)
    (MatSubStride.row fuel0
       (MatSubStride.mkInstance (2 ^ 31 + 1) 1 2 2 2 (2 ^ 31)))
    tt (mkStore [5; 0] [3; 0] [d; 0]) = OutOfFuel.
Proof.
  revert i d. induction fuel as [|fuel IH]; intros i d Hi.
  - destruct Hi as [-> | ->]; reflexivity.
  - cbn [for_u32].
    replace (i <? 2 ^ 31 + 1) with true
      by (destruct Hi as [-> | ->]; reflexivity).
    destruct fuel0 as [|fuel0]; [reflexivity|].
    assert (Hrow : MatSubStride.row (S fuel0)
                     (MatSubStride.mkInstance (2 ^ 31 + 1) 1 2 2 2 (2 ^ 31))
                     i tt (mkStore [5; 0] [3; 0] [d; 0])
                   = Done (tt, mkStore [5; 0] [3; 0] [2; 0])).
    { unfold MatSubStride.row. cbn [for_u32 MatSubStride.N].
      change (0 <? 1) with true. cbv beta iota.
      assert (Hcol : MatSubStride.column
                       (MatSubStride.mkInstance (2 ^ 31 + 1) 1 2 2 2 (2 ^ 31))
                       i 0 tt (mkStore [5; 0] [3; 0] [d; 0])
                     = Done (tt, mkStore [5; 0] [3; 0] [2; 0]))
        by (destruct Hi as [-> | ->]; reflexivity).
      rewrite Hcol. apply for_u32_skip. reflexivity. }
    rewrite Hrow. apply IH.
    destruct Hi as [-> | ->]; [right|left]; reflexivity.
Qed.

(** Two descriptors with [nPE >= 1] and finite dimensions, both with a
    store in every iteration.  On the first, which is valid, the row
    counter of worker 1 does not increase: it goes from row 1 to row 0,
    and the kernel writes both.  On the second, whose accesses all stay
    inside the buffers, the kernel never returns: no budget is enough. *)
Lemma C9_counterexample :
  (let a := MatSubStride.mkInstance 2 1 1 1 1 4294967295 in
   let st := mkStore [5; 7] [1; 2] [0; 0] in
   MatSubStride.valid a st
   /\ 1 <= MatSubStride.nPE a
   /\ traversal 2 1 (MatSubStride.M a) (MatSubStride.nPE a) = Some [1; 0]
   /\ MatSubStride.plp_mat_sub_stride_i16p_xpulpv2 2 1 a st
      = Done (tt, mkStore [5; 7] [1; 2] [4; 5]))
  /\ (let a := MatSubStride.mkInstance 2147483649 1 2 2 2 2147483648 in
      let st := mkStore [5; 0] [3; 0] [0; 0] in
      MatSubStride.typed a
      /\ 1 <= MatSubStride.nPE a
      /\ MatSubStride.row 1 a 0 tt st
         = Done (tt, mkStore [5; 0] [3; 0] [2; 0])
      /\ MatSubStride.row 1 a 2147483648 tt st
         = Done (tt, mkStore [5; 0] [3; 0] [2; 0])
      /\ ~ (exists fuel,
              MatSubStride.plp_mat_sub_stride_i16p_xpulpv2 fuel 0 a st
              <> OutOfFuel)).
Proof.
  split; intros a st.
  - split; [split; [|split]; constructor; cbn; intros; unwrap; lia|].
    split; [cbn; lia|]. split; reflexivity.
  - split; [constructor; cbn; unwrap; lia|].
    split; [cbn; lia|]. split; [reflexivity|]. split; [reflexivity|].
    intros [fuel Hrun]. apply Hrun.
    unfold MatSubStride.plp_mat_sub_stride_i16p_xpulpv2.
    apply (sub_spins fuel fuel 0 0). left. reflexivity.
Qed.

End Claim9.

Lemma worker_trace fuel core_id M nPE :
  1 <= nPE < 2 ^ 32 -> M <= 2 ^ 31 -> (Z.to_nat M <= fuel)%nat ->
  exists rs, loop_trace fuel (wrap_u32 core_id) M nPE = Some rs.
Proof.
  intros HnPE HM Hf.
  destruct (loop_trace_terminates fuel (wrap_u32 core_id) M nPE)
    as [rs Hrs]; [lia|exact HM|apply wrap_u32_range|exact Hf|].
  exists rs. exact Hrs.
Qed.

(** Two runs along the same rows that write the same values end with the
    same output buffer when they start from the same one, whatever the
    input buffers are. *)
Lemma rows_written_dst_eq (rv1 rv2 : Z -> nat -> option Z) (rs : list Z)
    st1 st1' st2 st2' :
  pDst st1 = pDst st2 ->
  (forall m i, m ∈ rs -> rv1 m i = rv2 m i) ->
  rows_written rv1 rs st1 st1' -> rows_written rv2 rs st2 st2' ->
  pDst st1' = pDst st2'.
Proof.
  intros Hdst Hrv (_ & _ & HL1 & Hw1 & Hk1) (_ & _ & HL2 & Hw2 & Hk2).
  apply list_eq. intros i.
  destruct (decide (i < length (pDst st1))%nat) as [Hi|Hi].
  - destruct (rowval_dec rv1 rs i) as [(m & v & Hm & Hv)|Hnone].
    + rewrite (Hw1 m i v Hm Hi Hv). symmetry. apply (Hw2 m i v Hm).
      * rewrite <- Hdst. exact Hi.
      * rewrite <- Hrv; assumption.
    + rewrite Hk1 by exact Hnone. rewrite Hk2, Hdst; [reflexivity|].
      intros m Hm. rewrite <- Hrv; auto.
  - rewrite !lookup_ge_None_2; [reflexivity|rewrite HL2, <- Hdst; lia|lia].
Qed.

Section Claim10.

Lemma mult_zero_inner a fuel core_id (C : list Z) :
  MatMultTransStride.typed a ->
  MatMultTransStride.dst_ok a (length C) ->
  MatMultTransStride.N a = 0 -> 0 < MatMultTransStride.O a ->
  1 <= MatMultTransStride.nPE a ->
  0 <= core_id < MatMultTransStride.nPE a ->
  (MatMultTransStride.budget a <= fuel)%nat ->
  exists C',
    (forall A B,
       MatMultTransStride.plp_mat_mult_trans_stride_i32p_xpulpv2
         fuel core_id a (mkStore A B C) = Done (tt, mkStore A B C'))
    /\ forall m o,
         assigned (MatMultTransStride.M a) (MatMultTransStride.nPE a)
           core_id m ->
         0 <= o < MatMultTransStride.O a ->
         C' !! Z.to_nat (m * MatMultTransStride.strideC a + o) = Some 0.
Proof.
  intros Ht Hd HN HO HnPE Hc Hf.
  unfold MatMultTransStride.budget in Hf.
  assert (HM : MatMultTransStride.M a <= 2 ^ 31)
    by (apply (mult_rows_bounded a (length C)); auto).
  assert (Hu : wrap_u32 core_id = core_id)
    by (apply wrap_u32_small; destruct Ht; lia).
  destruct (worker_trace fuel core_id
              (MatMultTransStride.M a) (MatMultTransStride.nPE a))
    as [rs Hrs]; [destruct Ht; lia|exact HM|lia|].
  assert (Hdot : forall A B m o, MatMultTransStride.dot a A B m o = 0)
    by (intros; unfold MatMultTransStride.dot; rewrite HN; reflexivity).
  assert (Hrun : forall A B, exists st',
             MatMultTransStride.plp_mat_mult_trans_stride_i32p_xpulpv2
               fuel core_id a (mkStore A B C) = Done (tt, st')
             /\ frame A B (length C) st'
             /\ rows_written (MatMultTransStride.rowval a A B) rs
                  (mkStore A B C) st').
  { intros A B.
    apply (mult_worker_run a A B (length C) fuel Ht Hd); auto.
    - lia.
    - intros m o st0 _ _ _. rewrite Hdot.
      unfold MatMultTransStride.inner. rewrite HN.
      apply for_u32_skip. lia.
    - repeat split. }
  destruct (Hrun [] []) as (st0 & Hrun0 & Hfr0 & Hw0).
  exists (pDst st0). split.
  - intros A B. destruct (Hrun A B) as (st' & Hrun' & (HA & HB & _) & Hw').
    rewrite Hrun'. do 2 f_equal. destruct st' as [A' B' C']. cbn in *.
    f_equal; try assumption.
    apply (rows_written_dst_eq (MatMultTransStride.rowval a A B)
             (MatMultTransStride.rowval a [] []) rs
             (mkStore A B C) (mkStore A' B' C') (mkStore [] [] C) st0);
      [reflexivity| |exact Hw'|exact Hw0].
    intros m i _. unfold MatMultTransStride.rowval.
    rewrite !Hdot. reflexivity.
  - intros m o (Hm & Hge & Hmod) Ho.
    destruct Hw0 as (_ & _ & _ & Hw & _). cbn in Hw.
    pose proof (MatMultTransStride.C_fits _ _ Hd m o Hm Ho).
    pose proof (MatMultTransStride.strideC_u32 _ Ht).
    assert (0 <= m * MatMultTransStride.strideC a) by nia.
    apply (Hw m).
    + rewrite Hu in Hrs.
      apply (loop_trace_covers _ _ _ _ _ _ Hrs); unwrap; lia.
    + lia.
    + rewrite mult_rowval_at, Hdot by lia. reflexivity.
Qed.

Lemma cmplx_zero_inner a fuel core_id (C : list Z) :
  MatMultTransCmplxStride.typed a ->
  MatMultTransCmplxStride.dst_ok a (length C) ->
  MatMultTransCmplxStride.N a = 0 -> 0 < MatMultTransCmplxStride.O a ->
  1 <= MatMultTransCmplxStride.nPE a ->
  0 <= core_id < MatMultTransCmplxStride.nPE a ->
  (MatMultTransCmplxStride.budget a <= fuel)%nat ->
  exists C',
    (forall A B,
       MatMultTransCmplxStride.plp_mat_mult_trans_cmplx_stride_i16p_xpulpv2
         fuel core_id a (mkStore A B C) = Done (tt, mkStore A B C'))
    /\ forall m o,
         assigned (MatMultTransCmplxStride.M a)
           (MatMultTransCmplxStride.nPE a) core_id m ->
         0 <= o < MatMultTransCmplxStride.O a ->
         C' !! Z.to_nat ((m * MatMultTransCmplxStride.strideC a + o) * 2)
         = Some 0
         /\ C' !! Z.to_nat
                   ((m * MatMultTransCmplxStride.strideC a + o) * 2 + 1)
            = Some 0.
Proof.
  intros Ht Hd HN HO HnPE Hc Hf.
  unfold MatMultTransCmplxStride.budget in Hf.
  assert (HM : MatMultTransCmplxStride.M a <= 2 ^ 31)
    by (apply (cmplx_rows_bounded a (length C)); auto).
  assert (Hu : wrap_u32 core_id = core_id)
    by (apply wrap_u32_small; destruct Ht; lia).
  destruct (worker_trace fuel core_id
              (MatMultTransCmplxStride.M a) (MatMultTransCmplxStride.nPE a))
    as [rs Hrs]; [destruct Ht; lia|exact HM|lia|].
  assert (Hre : forall A B m o, MatMultTransCmplxStride.dot_re a A B m o = 0)
    by (intros; unfold MatMultTransCmplxStride.dot_re; rewrite HN;
        reflexivity).
  assert (Him : forall A B m o, MatMultTransCmplxStride.dot_im a A B m o = 0)
    by (intros; unfold MatMultTransCmplxStride.dot_im; rewrite HN;
        reflexivity).
  assert (Hrun : forall A B, exists st',
             MatMultTransCmplxStride.plp_mat_mult_trans_cmplx_stride_i16p_xpulpv2
               fuel core_id a (mkStore A B C) = Done (tt, st')
             /\ frame A B (length C) st'
             /\ rows_written (MatMultTransCmplxStride.rowval a A B) rs
                  (mkStore A B C) st').
  { intros A B.
    apply (cmplx_worker_run a A B (length C) fuel Ht Hd); auto.
    - lia.
    - intros m o st0 _ _ _. rewrite Hre, Him.
      unfold MatMultTransCmplxStride.inner. rewrite HN.
      apply for_u32_skip. lia.
    - repeat split. }
  destruct (Hrun [] []) as (st0 & Hrun0 & Hfr0 & Hw0).
  exists (pDst st0). split.
  - intros A B. destruct (Hrun A B) as (st' & Hrun' & (HA & HB & _) & Hw').
    rewrite Hrun'. do 2 f_equal. destruct st' as [A' B' C']. cbn in *.
    f_equal; try assumption.
    apply (rows_written_dst_eq (MatMultTransCmplxStride.rowval a A B)
             (MatMultTransCmplxStride.rowval a [] []) rs
             (mkStore A B C) (mkStore A' B' C') (mkStore [] [] C) st0);
      [reflexivity| |exact Hw'|exact Hw0].
    intros m i _. unfold MatMultTransCmplxStride.rowval.
    rewrite !Hre, !Him. reflexivity.
  - intros m o (Hm & Hge & Hmod) Ho.
    destruct Hw0 as (_ & _ & _ & Hw & _). cbn in Hw.
    pose proof (MatMultTransCmplxStride.C_fits _ _ Hd m o Hm Ho).
    pose proof (MatMultTransCmplxStride.strideC_u32 _ Ht).
    assert (0 <= m * MatMultTransCmplxStride.strideC a) by nia.
    assert (Hin : m ∈ rs).
    { rewrite Hu in Hrs.
      apply (loop_trace_covers _ _ _ _ _ _ Hrs); unwrap; lia. }
    split; apply (Hw m); auto; try lia.
    + rewrite <- (Z.add_0_r (_ * 2)).
      rewrite cmplx_rowval_re, Hre by lia. reflexivity.
    + rewrite cmplx_rowval_im, Him by lia. reflexivity.
Qed.

(** C10.  With inner dimension [N = 0] and [M, O, nPE >= 1], a worker of
    a multiply-transpose kernel completes for whatever input buffers it
    is given (empty ones included: it reads neither), with an output that
    does not depend on them and that holds 0 (the pair (0, 0) in the
    complex kernel) at every position [(m, o)] of its assigned rows.
    With [M = 0] the kernels return the store untouched, even one whose
    three buffers are empty. *)
Theorem C10_zero_dimensions :
  (forall a fuel core_id (C : list Z),
     MatMultTransStride.typed a ->
     MatMultTransStride.dst_ok a (length C) ->
     MatMultTransStride.N a = 0 -> 0 < MatMultTransStride.O a ->
     1 <= MatMultTransStride.nPE a ->
     0 <= core_id < MatMultTransStride.nPE a ->
     (MatMultTransStride.budget a <= fuel)%nat ->
     exists C',
       (forall A B,
          MatMultTransStride.plp_mat_mult_trans_stride_i32p_xpulpv2
            fuel core_id a (mkStore A B C) = Done (tt, mkStore A B C'))
       /\ forall m o,
            assigned (MatMultTransStride.M a) (MatMultTransStride.nPE a)
              core_id m ->
            0 <= o < MatMultTransStride.O a ->
            C' !! Z.to_nat (m * MatMultTransStride.strideC a + o) = Some 0)
  /\ (forall a fuel core_id (C : list Z),
        MatMultTransCmplxStride.typed a ->
        MatMultTransCmplxStride.dst_ok a (length C) ->
        MatMultTransCmplxStride.N a = 0 ->
        0 < MatMultTransCmplxStride.O a ->
        1 <= MatMultTransCmplxStride.nPE a ->
        0 <= core_id < MatMultTransCmplxStride.nPE a ->
        (MatMultTransCmplxStride.budget a <= fuel)%nat ->
        exists C',
          (forall A B,
             MatMultTransCmplxStride.plp_mat_mult_trans_cmplx_stride_i16p_xpulpv2
               fuel core_id a (mkStore A B C) = Done (tt, mkStore A B C'))
          /\ forall m o,
               assigned (MatMultTransCmplxStride.M a)
                 (MatMultTransCmplxStride.nPE a) core_id m ->
               0 <= o < MatMultTransCmplxStride.O a ->
               C' !! Z.to_nat
                       ((m * MatMultTransCmplxStride.strideC a + o) * 2)
               = Some 0
               /\ C' !! Z.to_nat
                         ((m * MatMultTransCmplxStride.strideC a + o) * 2 + 1)
                  = Some 0)
  /\ (forall a fuel core_id st,
        MatMultTransStride.M a = 0 ->
        MatMultTransStride.plp_mat_mult_trans_stride_i32p_xpulpv2
          fuel core_id a st = Done (tt, st))
  /\ (forall a fuel core_id st,
        MatMultTransCmplxStride.M a = 0 ->
        MatMultTransCmplxStride.plp_mat_mult_trans_cmplx_stride_i16p_xpulpv2
          fuel core_id a st = Done (tt, st)).
Proof.
  split; [|split; [|split]].
  - apply mult_zero_inner.
  - apply cmplx_zero_inner.
  - intros a fuel core_id st HM.
    apply for_u32_skip. rewrite HM. apply wrap_u32_range.
  - intros a fuel core_id st HM.
    apply for_u32_skip. rewrite HM. apply wrap_u32_range.
Qed.

End Claim10.

Section Claim8.

(** C8 (amended).  The accumulators [sum], [sum_re] and [sum_im] are
    32-bit whatever the element width.  The accumulation loops of both
    multiply-transpose kernels return, for any element values, the exact
    sum reduced modulo 2^32 into the 32-bit range, without faulting and
    without touching the store; what they return is the exact sum exactly
    when that sum lies in the 32-bit range, which is the case when the
    elements of [A] are within [-K, K], those of [B] within [-K', K'] and
    [N * K * K' < 2^31] (32-bit kernel), resp. [2 * N * K * K' < 2^31]
    (complex kernel).  A single product of two 16-bit elements is always
    exact. *)
Theorem C8_accumulators_wrap :
  (forall x y, in_i16 x -> in_i16 y -> mul_i32 x y = x * y)
  /\ (forall a A B L fuel m o st,
        MatMultTransStride.typed a -> MatMultTransStride.src_ok a A B ->
        frame A B L st ->
        0 <= m < MatMultTransStride.M a ->
        0 <= o < MatMultTransStride.O a ->
        (Z.to_nat (MatMultTransStride.N a) <= fuel)%nat ->
        exists sum,
          MatMultTransStride.inner fuel a m o st = Done (sum, st)
          /\ in_i32 sum
          /\ sum mod 2 ^ 32 = MatMultTransStride.dot a A B m o mod 2 ^ 32
          /\ (sum = MatMultTransStride.dot a A B m o
              <-> in_i32 (MatMultTransStride.dot a A B m o))
          /\ (forall K K',
                (forall n, 0 <= n < MatMultTransStride.N a ->
                   - K <= elt A (m * MatMultTransStride.strideA a + n) <= K) ->
                (forall n, 0 <= n < MatMultTransStride.N a ->
                   - K' <= elt B (o * MatMultTransStride.strideB a + n)
                   <= K') ->
                MatMultTransStride.N a * (K * K') < 2 ^ 31 ->
                sum = MatMultTransStride.dot a A B m o))
  /\ (forall a A B L fuel m o st,
        MatMultTransCmplxStride.typed a ->
        MatMultTransCmplxStride.src_ok a A B ->
        frame A B L st ->
        0 <= m < MatMultTransCmplxStride.M a ->
        0 <= o < MatMultTransCmplxStride.O a ->
        (Z.to_nat (MatMultTransCmplxStride.N a) <= fuel)%nat ->
        exists sum_re sum_im,
          MatMultTransCmplxStride.inner fuel a m o st
          = Done ((sum_re, sum_im), st)
          /\ in_i32 sum_re /\ in_i32 sum_im
          /\ sum_re mod 2 ^ 32
             = MatMultTransCmplxStride.dot_re a A B m o mod 2 ^ 32
          /\ sum_im mod 2 ^ 32
             = MatMultTransCmplxStride.dot_im a A B m o mod 2 ^ 32
          /\ (sum_re = MatMultTransCmplxStride.dot_re a A B m o
              <-> in_i32 (MatMultTransCmplxStride.dot_re a A B m o))
          /\ (sum_im = MatMultTransCmplxStride.dot_im a A B m o
              <-> in_i32 (MatMultTransCmplxStride.dot_im a A B m o))
          /\ (forall K K',
                (forall n k, 0 <= n < MatMultTransCmplxStride.N a ->
                   0 <= k <= 1 ->
                   - K <= elt A ((m * MatMultTransCmplxStride.strideA a + n) * 2
                                 + k) <= K) ->
                (forall n k, 0 <= n < MatMultTransCmplxStride.N a ->
                   0 <= k <= 1 ->
                   - K' <= elt B ((o * MatMultTransCmplxStride.strideB a + n) * 2
                                  + k) <= K') ->
                MatMultTransCmplxStride.N a * (2 * (K * K')) < 2 ^ 31 ->
                sum_re = MatMultTransCmplxStride.dot_re a A B m o
                /\ sum_im = MatMultTransCmplxStride.dot_im a A B m o)).
Proof.
  split; [|split].
  - intros x y Hx Hy. unfold mul_i32. apply wrap_i32_small.
    unwrap. nia.
  - intros a A B L fuel m o st Ht Hs Hfr Hm Ho Hf.
    exists (wrap_i32 (MatMultTransStride.dot a A B m o)).
    split; [apply (mult_inner_run a A B L); assumption|].
    split; [apply wrap_i32_range|].
    split; [apply wrap_i32_mod|]. split.
    + split; [|apply wrap_i32_small].
      intros <-. apply wrap_i32_range.
    + intros K K' HA HB Hcap. apply wrap_i32_small.
      apply (mult_dot_capacity a A B m o K K'); auto.
      destruct Ht. lia.
  - intros a A B L fuel m o st Ht Hs Hfr Hm Ho Hf.
    exists (wrap_i32 (MatMultTransCmplxStride.dot_re a A B m o)),
           (wrap_i32 (MatMultTransCmplxStride.dot_im a A B m o)).
    split; [apply (cmplx_inner_run a A B L); assumption|].
    split; [apply wrap_i32_range|]. split; [apply wrap_i32_range|].
    split; [apply wrap_i32_mod|]. split; [apply wrap_i32_mod|].
    split; [|split].
    + split; [|apply wrap_i32_small].
      intros <-. apply wrap_i32_range.
    + split; [|apply wrap_i32_small].
      intros <-. apply wrap_i32_range.
    + intros K K' HA HB Hcap.
      destruct (cmplx_dot_capacity a A B m o K K') as [Hre Him]; auto.
      { destruct Ht. lia. }
      split; apply wrap_i32_small; assumption.
Qed.

(** The accumulator does not hold the worst case of the element width.
    One product of two 32-bit elements leaves it: the 32-bit kernel stores
    -2 where the sum is 4294967294.  One step of the complex kernel on
    16-bit elements all equal to -32768 leaves it: the imaginary cell
    receives -2147483648 where the sum is 2147483648. *)
Lemma C8_counterexample :
  (let a := MatMultTransStride.mkInstance 1 1 1 1 1 1 1 in
   let st := mkStore [2147483647] [2] [0] in
   MatMultTransStride.valid a st
   /\ in_i32 2147483647 /\ in_i32 2
   /\ MatMultTransStride.dot a (pSrcA st) (pSrcB st) 0 0 = 4294967294
   /\ ~ in_i32 4294967294
   /\ MatMultTransStride.inner 1 a 0 0 st = Done (-2, st)
   /\ MatMultTransStride.plp_mat_mult_trans_stride_i32p_xpulpv2 1 0 a st
      = Done (tt, mkStore [2147483647] [2] [-2]))
  /\ (let a := MatMultTransCmplxStride.mkInstance 1 1 1 1 1 1 1 in
      let st := mkStore [-32768; -32768] [-32768; -32768] [0; 0] in
      MatMultTransCmplxStride.valid a st
      /\ in_i16 (-32768)
      /\ MatMultTransCmplxStride.dot_im a (pSrcA st) (pSrcB st) 0 0
         = 2147483648
      /\ ~ in_i32 2147483648
      /\ MatMultTransCmplxStride.inner 1 a 0 0 st
         = Done ((0, -2147483648), st)
      /\ MatMultTransCmplxStride.plp_mat_mult_trans_cmplx_stride_i16p_xpulpv2
           1 0 a st
         = Done (tt, mkStore [-32768; -32768] [-32768; -32768]
                       [0; -2147483648])).
Proof.
  split; intros a st.
  - split; [split; [|split]; constructor; cbn; intros; unwrap; lia|].
    split; [unwrap; lia|]. split; [unwrap; lia|].
    split; [reflexivity|]. split; [unwrap; lia|].
    split; reflexivity.
  - split; [split; [|split]; constructor; cbn; intros; unwrap; lia|].
    split; [unwrap; lia|].
    split; [reflexivity|]. split; [unwrap; lia|].
    split; reflexivity.
Qed.

End Claim8.

Section Claim7.

Import DotProd.

(** C7 (amended).  [plp_dot_prod_i32s] is total over the cluster
    identities and has no failure path: it hands the call to the RV32IM
    kernel when the cluster identity is [ARCHI_FC_CID] and to the XPULPV2
    kernel for every other identity, never stopping; the kernel it
    selects depends on the cluster identity alone, not on the vectors,
    the block size or the result cell. *)
Theorem C7_dispatch_total (ARCHI_FC_CID cluster_id : Z) :
  dispatch ARCHI_FC_CID cluster_id
  = Forward (if cluster_id =? ARCHI_FC_CID then rv32im else xpulpv2)
  /\ dispatch ARCHI_FC_CID cluster_id <> HardStop
  /\ forall (R : Type) (k_rv32im k_xpulpv2 : list Z -> list Z -> Z -> R -> R)
        A B blockSize pRes,
        plp_dot_prod_i32s k_rv32im k_xpulpv2 ARCHI_FC_CID cluster_id
          A B blockSize pRes
        = match dispatch ARCHI_FC_CID cluster_id with
          | Forward rv32im => k_rv32im A B blockSize pRes
          | Forward xpulpv2 => k_xpulpv2 A B blockSize pRes
          | HardStop => pRes
          end.
Proof.
  unfold dispatch, plp_dot_prod_i32s.
  destruct (cluster_id =? ARCHI_FC_CID); repeat split; discriminate.
Qed.

(** With the fabric controller as cluster 32 and the compute cluster as
    cluster 0, a call from cluster 7 is handed to the XPULPV2 kernel
    instead of being stopped. *)
Lemma C7_counterexample :
  dispatch 32 7 = Forward xpulpv2
  /\ ~ fails_fast 32 (fun cluster_id => cluster_id = 32 \/ cluster_id = 0).
Proof.
  split; [reflexivity|].
  intros Hff. specialize (Hff 7). cbv in Hff.
  enough (Forward xpulpv2 = HardStop) by discriminate.
  apply Hff. intros [H|H]; discriminate H.
Qed.

End Claim7.

(** ** The statements at sample descriptors

    Each statement with hypotheses is applied once to a sample descriptor,
    its hypotheses being checked by computation there. *)

Ltac sample_valid := repeat split; cbn; intros; unwrap; lia.

Ltac sample_arith :=
  first [cbn; unwrap; lia | vm_compute; lia | vm_compute; congruence].

Ltac sample_assigned :=
  unfold assigned; cbn; repeat split; first [lia | reflexivity].

Lemma C1_witness : is_partition 5 5 2.
Proof.
  apply (C1_rows_partition 5%nat 5 2); unwrap; lia.
Defined.

Lemma C2_witness :
  MatMultTransStride.valid Sample.mult_a Sample.mult_st
  /\ MatMultTransCmplxStride.valid Sample.cmplx_a Sample.cmplx_st
  /\ (exists st',
        run_cores
          (fun c =>
             MatMultTransStride.plp_mat_mult_trans_stride_i32p_xpulpv2
               2 c Sample.mult_a) [2; 0; 1] Sample.mult_st = Done (tt, st')
        /\ MatMultTransStride.plp_mat_mult_trans_stride_i32p_xpulpv2 2 0
             (MatMultTransStride.with_nPE Sample.mult_a 1) Sample.mult_st
           = Done (tt, st'))
  /\ (exists st',
        run_cores
          (fun c =>
             MatMultTransCmplxStride.plp_mat_mult_trans_cmplx_stride_i16p_xpulpv2
               2 c Sample.cmplx_a) [2; 0; 1] Sample.cmplx_st = Done (tt, st')
        /\ MatMultTransCmplxStride.plp_mat_mult_trans_cmplx_stride_i16p_xpulpv2
             2 0 (MatMultTransCmplxStride.with_nPE Sample.cmplx_a 1)
             Sample.cmplx_st
           = Done (tt, st')).
Proof.
  assert (Hp : [2; 0; 1] ≡ₚ seqZ 0 3).
  { change (seqZ 0 3) with [0; 1; 2].
    etransitivity; [apply Permutation_cons_append|reflexivity]. }
  split; [sample_valid|]. split; [sample_valid|]. split.
  - apply (proj1 C2_output_independent_of_nPE Sample.mult_a Sample.mult_st 2%nat
             [2; 0; 1]); [sample_valid|sample_arith|sample_arith|sample_arith|exact Hp].
  - apply (proj2 C2_output_independent_of_nPE Sample.cmplx_a Sample.cmplx_st 2%nat
             [2; 0; 1]); [sample_valid|sample_arith|sample_arith|sample_arith|exact Hp].
Defined.

Lemma C3_witness :
  MatMultTransStride.valid Sample.mult_a Sample.mult_st
  /\ exists st',
       run_cores
         (fun c =>
            MatMultTransStride.plp_mat_mult_trans_stride_i32p_xpulpv2
              2 c Sample.mult_a) [0; 1; 2] Sample.mult_st = Done (tt, st')
       /\ pDst st' !! 2%nat = Some 39.
Proof.
  split; [sample_valid|].
  destruct (C3_mult_trans_output Sample.mult_a Sample.mult_st 2%nat [0; 1; 2] 1 0)
    as [(st' & Hrun & Hval) _];
    [sample_valid|sample_arith|sample_arith|reflexivity|sample_arith|sample_arith|].
  exists st'. split; [exact Hrun|exact Hval].
Defined.

Lemma C4_witness :
  MatMultTransCmplxStride.valid Sample.cmplx_a Sample.cmplx_st
  /\ exists st',
       run_cores
         (fun c =>
            MatMultTransCmplxStride.plp_mat_mult_trans_cmplx_stride_i16p_xpulpv2
              2 c Sample.cmplx_a) [0; 1; 2] Sample.cmplx_st = Done (tt, st')
       /\ pDst st' !! 0%nat = Some (-5)
       /\ pDst st' !! 1%nat = Some 10.
Proof.
  split; [sample_valid|].
  destruct (proj1 C4_cmplx_output Sample.cmplx_a Sample.cmplx_st 2%nat
              [0; 1; 2] 0 0)
    as (st' & Hrun & Hre & Him);
    [sample_valid|sample_arith|sample_arith|reflexivity|sample_arith|sample_arith|].
  exists st'. split; [exact Hrun|]. split; [exact Hre|exact Him].
Defined.

Lemma C5_witness :
  MatSubStride.valid Sample.sub_a Sample.sub_st
  /\ exists st',
       run_cores
         (fun c => MatSubStride.plp_mat_sub_stride_i16p_xpulpv2
                     4 c Sample.sub_a) [0; 1] Sample.sub_st = Done (tt, st')
       /\ pDst st' !! 7%nat = Some 54.
Proof.
  split; [sample_valid|].
  destruct (C5_sub_output Sample.sub_a Sample.sub_st 4%nat [0; 1] 2 1)
    as (_ & (st' & Hrun & Hval) & _);
    [sample_valid|sample_arith|sample_arith|reflexivity|sample_arith|sample_arith|].
  exists st'. split; [exact Hrun|exact Hval].
Defined.

Lemma C6_witness :
  MatSubStride.valid Sample.sub_a Sample.sub_st
  /\ exists st',
       MatSubStride.plp_mat_sub_stride_i16p_xpulpv2 4 1 Sample.sub_a
         Sample.sub_st = Done (tt, st')
       /\ pSrcA st' = pSrcA Sample.sub_st /\ pSrcB st' = pSrcB Sample.sub_st
       /\ MatSubStride.leaves_other_rows Sample.sub_a 1 Sample.sub_st st'.
Proof.
  split; [sample_valid|].
  destruct (proj1 C6_sub_writes_own_rows Sample.sub_a Sample.sub_st 4%nat 1)
    as (st' & Hrun & HA & HB & _ & Hleaves & _);
    [sample_valid|sample_arith|sample_arith|sample_arith|sample_arith|].
  exists st'. repeat split; assumption.
Defined.

Lemma C8_witness :
  exists sum,
    MatMultTransStride.inner 2 Sample.mult_a 1 0 Sample.mult_st
    = Done (sum, Sample.mult_st)
    /\ in_i32 sum
    /\ sum mod 2 ^ 32
       = MatMultTransStride.dot Sample.mult_a [1; 2; 3; 4] [5; 6; 7; 8] 1 0
         mod 2 ^ 32
    /\ sum = MatMultTransStride.dot Sample.mult_a [1; 2; 3; 4] [5; 6; 7; 8] 1 0.
Proof.
  destruct (proj1 (proj2 C8_accumulators_wrap)
              Sample.mult_a [1; 2; 3; 4] [5; 6; 7; 8] 4%nat 2%nat 1 0
              Sample.mult_st)
    as (sum & Hrun & Hin & Hmod & _ & Hcap);
    [sample_valid|sample_valid|repeat split|sample_arith|sample_arith
    |sample_arith|].
  exists sum. split; [exact Hrun|]. split; [exact Hin|].
  split; [exact Hmod|].
  apply (Hcap 4 8); [| |sample_arith].
  - cbn. intros n Hn. assert (n = 0 \/ n = 1) as [-> | ->] by lia;
      vm_compute; split; congruence.
  - cbn. intros n Hn. assert (n = 0 \/ n = 1) as [-> | ->] by lia;
      vm_compute; split; congruence.
Defined.

Lemma C9_witness :
  MatSubStride.plp_mat_sub_stride_i16p_xpulpv2 4 1 Sample.sub_a Sample.sub_st
  <> OutOfFuel
  /\ MatMultTransStride.plp_mat_mult_trans_stride_i32p_xpulpv2 2 1
       Sample.mult_a Sample.mult_st <> OutOfFuel.
Proof.
  split.
  - apply (proj2 C9_kernels_terminate Sample.sub_a Sample.sub_st 4%nat 1);
      [sample_valid|sample_arith|sample_arith|sample_arith|sample_arith].
  - apply (proj1 C9_kernels_terminate Sample.mult_a Sample.mult_st 2%nat 1);
      [sample_valid|sample_arith|sample_arith|sample_arith|sample_arith].
Defined.

Lemma C10_witness :
  (exists C',
     (forall A B,
        MatMultTransStride.plp_mat_mult_trans_stride_i32p_xpulpv2 2 1
          Sample.mult_empty (mkStore A B [9; 9; 9; 9])
        = Done (tt, mkStore A B C'))
     /\ C' !! 2%nat = Some 0 /\ C' !! 3%nat = Some 0)
  /\ (exists C',
        (forall A B,
           MatMultTransCmplxStride.plp_mat_mult_trans_cmplx_stride_i16p_xpulpv2
             2 1 Sample.cmplx_empty (mkStore A B [9; 9; 9; 9])
           = Done (tt, mkStore A B C'))
        /\ C' !! 2%nat = Some 0 /\ C' !! 3%nat = Some 0).
Proof.
  split.
  - destruct (proj1 C10_zero_dimensions Sample.mult_empty 2%nat 1
                [9; 9; 9; 9]) as (C' & Hrun & Hzero);
      [sample_valid|sample_valid|reflexivity|sample_arith|sample_arith|sample_arith
      |sample_arith|].
    exists C'. split; [exact Hrun|].
    split; [apply (Hzero 1 0)|apply (Hzero 1 1)];
      first [sample_arith | sample_assigned].
  - destruct (proj1 (proj2 C10_zero_dimensions) Sample.cmplx_empty 2%nat 1
                [9; 9; 9; 9]) as (C' & Hrun & Hzero);
      [sample_valid|sample_valid|reflexivity|sample_arith|sample_arith|sample_arith
      |sample_arith|].
    exists C'. split; [exact Hrun|].
    apply (Hzero 1 0); first [sample_arith | sample_assigned].
Defined.


(** * Further properties of the kernels *)

(** ** Runs keep the shape of the store *)

Lemma same_shape_refl st : same_shape st st.
Proof. repeat split. Qed.

Lemma same_shape_trans st1 st2 st3 :
  same_shape st1 st2 -> same_shape st2 st3 -> same_shape st1 st3.
Proof.
  intros (HA & HB & HL) (HA' & HB' & HL'). repeat split; congruence.
Qed.

Lemma load_done (buf : store -> list Z) i st v st' :
  load buf i st = Done (v, st') ->
  st' = st /\ inside (buf st) i /\ v = elt (buf st) i.
Proof.
  unfold load, inside, elt.
  destruct (buf st !! Z.to_nat i) as [w|] eqn:E; [|discriminate].
  intros [= <- <-]. apply lookup_lt_Some in E. auto.
Qed.

Lemma load_inside (buf : store -> list Z) i st :
  inside (buf st) i -> load buf i st = Done (elt (buf st) i, st).
Proof.
  unfold load, inside, elt. intros Hi.
  destruct (buf st !! Z.to_nat i) as [w|] eqn:E; [reflexivity|].
  apply lookup_ge_None in E. lia.
Qed.

Lemma store_dst_done i v st u st' :
  store_dst i v st = Done (u, st') -> same_shape st st' /\ inside (pDst st) i.
Proof.
  unfold store_dst, inside.
  destruct (decide _) as [Hlt|]; [|discriminate].
  intros [= <- <-]. split; [|exact Hlt].
  repeat split. cbn. apply length_insert.
Qed.

Lemma store_dst_inside i v st :
  inside (pDst st) i -> exists st', store_dst i v st = Done (tt, st').
Proof.
  unfold store_dst, inside. intros Hi.
  destruct (decide _); [eexists; reflexivity|contradiction].
Qed.

Lemma bind_done_inv {T U : Type} (c : cmd T) (k : T -> cmd U) st u st' :
  bind c k st = Done (u, st') ->
  exists t st1, c st = Done (t, st1) /\ k t st1 = Done (u, st').
Proof.
  unfold bind. destruct (c st) as [[t st1]| |]; [|discriminate..].
  intros Hk. exists t, st1. auto.
Qed.

(** A loop keeps whatever relation to the initial store its body keeps. *)
Lemma for_u32_shape {T : Type} st0 fuel i bound step
    (body : Z -> T -> cmd T) acc st acc' st' :
  (forall r acc1 st1 acc2 st2,
     same_shape st0 st1 -> body r acc1 st1 = Done (acc2, st2) ->
     same_shape st0 st2) ->
  same_shape st0 st ->
  for_u32 fuel i bound step body acc st = Done (acc', st') ->
  same_shape st0 st'.
Proof.
  intros Hbody. revert i acc st.
  induction fuel as [|fuel IH]; intros i acc st Hst; cbn [for_u32];
    destruct (i <? bound); try discriminate;
    try (intros [= <- <-]; exact Hst).
  destruct (body i acc st) as [[acc1 st1]| |] eqn:E; [|discriminate..].
  apply IH. apply (Hbody i acc st acc1 st1 Hst E).
Qed.

Lemma mult_row_shape st0 fuel a m u st u' st' :
  same_shape st0 st ->
  MatMultTransStride.row fuel a m u st = Done (u', st') ->
  same_shape st0 st'.
Proof.
  unfold MatMultTransStride.row. apply for_u32_shape.
  intros o [] st1 [] st2 Hst1. unfold MatMultTransStride.column.
  intros (sum & st3 & Hin & Hst)%bind_done_inv.
  apply store_dst_done in Hst as [Hsh _].
  apply (same_shape_trans _ st3); [|exact Hsh].
  revert Hin. unfold MatMultTransStride.inner.
  apply for_u32_shape; [|exact Hst1].
  intros n s st4 s' st5 Hst4. unfold MatMultTransStride.mac.
  intros (vA & st6 & [-> _]%load_done & (vB & st7 & [-> _]%load_done & Hret)%bind_done_inv)%bind_done_inv.
  injection Hret as _ <-. exact Hst4.
Qed.

Lemma cmplx_row_shape st0 fuel a m u st u' st' :
  same_shape st0 st ->
  MatMultTransCmplxStride.row fuel a m u st = Done (u', st') ->
  same_shape st0 st'.
Proof.
  unfold MatMultTransCmplxStride.row. apply for_u32_shape.
  intros o [] st1 [] st2 Hst1. unfold MatMultTransCmplxStride.column.
  intros (sums & st3 & Hin
          & (u1 & st4 & [Hsh1 _]%store_dst_done
             & [Hsh2 _]%store_dst_done)%bind_done_inv)%bind_done_inv.
  apply (same_shape_trans _ st4); [|exact Hsh2].
  apply (same_shape_trans _ st3); [|exact Hsh1].
  revert Hin. unfold MatMultTransCmplxStride.inner.
  apply for_u32_shape; [|exact Hst1].
  intros n s st5 s' st6 Hst5. unfold MatMultTransCmplxStride.mac.
  intros (v1 & st7 & [-> _]%load_done
          & (v2 & st8 & [-> _]%load_done
             & (v3 & st9 & [-> _]%load_done
                & (v4 & st10 & [-> _]%load_done
                   & Hret)%bind_done_inv)%bind_done_inv)%bind_done_inv)%bind_done_inv.
  injection Hret as _ <-. exact Hst5.
Qed.

Lemma sub_row_shape st0 fuel a m u st u' st' :
  same_shape st0 st ->
  MatSubStride.row fuel a m u st = Done (u', st') ->
  same_shape st0 st'.
Proof.
  unfold MatSubStride.row. apply for_u32_shape.
  intros n [] st1 [] st2 Hst1. unfold MatSubStride.column.
  intros (x & st3 & [-> _]%load_done
          & (y & st4 & [-> _]%load_done
             & [Hsh _]%store_dst_done)%bind_done_inv)%bind_done_inv.
  apply (same_shape_trans _ st1); assumption.
Qed.

(** ** When a run completes *)

Section Completion.

Context {T : Type}.
Variable st0 : store.
Variable body : Z -> T -> cmd T.
Variable needs : Z -> Prop.

Hypothesis body_shape : forall r acc st acc' st',
  same_shape st0 st -> body r acc st = Done (acc', st') -> same_shape st0 st'.
Hypothesis body_done : forall r acc st,
  same_shape st0 st -> needs r -> exists acc' st', body r acc st = Done (acc', st').
Hypothesis body_needs : forall r acc st acc' st',
  same_shape st0 st -> body r acc st = Done (acc', st') -> needs r.

Lemma run_list_completes (rs : list Z) acc st :
  same_shape st0 st -> (forall r, r ∈ rs -> needs r) ->
  exists acc' st', run_list body rs acc st = Done (acc', st').
Proof.
  revert acc st. induction rs as [|r rs IH]; intros acc st Hst Hrs.
  - exists acc, st. reflexivity.
  - destruct (body_done r acc st Hst) as (acc1 & st1 & Hb); [apply Hrs; left|].
    destruct (IH acc1 st1) as (acc2 & st2 & Hrun).
    + apply (body_shape r acc st acc1 st1 Hst Hb).
    + intros r' Hr'. apply Hrs. right. exact Hr'.
    + exists acc2, st2. cbn [run_list].
      rewrite (bind_done _ _ _ _ _ Hb). exact Hrun.
Qed.

Lemma run_list_completed (rs : list Z) acc st acc' st' :
  same_shape st0 st -> run_list body rs acc st = Done (acc', st') ->
  forall r, r ∈ rs -> needs r.
Proof.
  revert acc st. induction rs as [|r rs IH]; intros acc st Hst Hrun r' Hr'.
  - apply elem_of_nil in Hr'. contradiction.
  - cbn [run_list] in Hrun.
    apply bind_done_inv in Hrun as (acc1 & st1 & Hb & Hrun).
    apply elem_of_cons in Hr' as [->|Hr'].
    + apply (body_needs r acc st acc1 st1 Hst Hb).
    + apply (IH acc1 st1); auto.
      apply (body_shape r acc st acc1 st1 Hst Hb).
Qed.

(** The same for a loop [for (n = 0; n < bound; n++)]. *)
Lemma unit_loop_completes fuel bound acc st :
  0 <= bound < 2 ^ 32 -> (Z.to_nat bound <= fuel)%nat ->
  same_shape st0 st -> (forall r, 0 <= r < bound -> needs r) ->
  exists acc' st', for_u32 fuel 0 bound 1 body acc st = Done (acc', st').
Proof.
  intros Hb Hf Hst Hneeds.
  rewrite (for_u32_trace _ _ _ _ _ (seqZ 0 (bound - 0)))
    by (apply loop_trace_unit; lia).
  apply run_list_completes; [exact Hst|].
  intros r Hr%elem_of_seqZ. apply Hneeds. lia.
Qed.

Lemma unit_loop_completed fuel bound acc st acc' st' :
  0 <= bound < 2 ^ 32 -> (Z.to_nat bound <= fuel)%nat ->
  same_shape st0 st ->
  for_u32 fuel 0 bound 1 body acc st = Done (acc', st') ->
  forall r, 0 <= r < bound -> needs r.
Proof.
  intros Hb Hf Hst Hrun r Hr.
  rewrite (for_u32_trace _ _ _ _ _ (seqZ 0 (bound - 0))) in Hrun
    by (apply loop_trace_unit; lia).
  apply (run_list_completed _ _ _ _ _ Hst Hrun).
  apply elem_of_seqZ. lia.
Qed.

End Completion.

Lemma inside_same_shape st0 st :
  same_shape st0 st ->
  (forall i, inside (pSrcA st) i <-> inside (pSrcA st0) i)
  /\ (forall i, inside (pSrcB st) i <-> inside (pSrcB st0) i)
  /\ (forall i, inside (pDst st) i <-> inside (pDst st0) i).
Proof.
  intros (HA & HB & HL). unfold inside. rewrite HA, HB, HL. tauto.
Qed.

Section SubCompletion.

Import MatSubStride.

Variable a : plp_mat_sub_stride_instance_i16.
Variable st0 : store.

Lemma sub_column_completes m n u st :
  same_shape st0 st -> sub_cell_inside a st0 m n ->
  exists u' st', column a m n u st = Done (u', st').
Proof.
  intros Hst (HA & HB & HY).
  destruct (inside_same_shape st0 st Hst) as (EA & EB & EY).
  unfold column.
  rewrite (bind_done _ _ _ _ _ (load_inside pSrcA _ st (proj2 (EA _) HA))).
  rewrite (bind_done _ _ _ _ _ (load_inside pSrcB _ st (proj2 (EB _) HB))).
  destruct (store_dst_inside (add_u32 (mul_u32 m (strideY a)) n)
              (wrap_i16 (sub_i32 (elt (pSrcA st) (add_u32 (mul_u32 m (strideA a)) n))
                                 (elt (pSrcB st) (add_u32 (mul_u32 m (strideB a)) n))))
              st (proj2 (EY _) HY)) as (st' & Hs).
  exists tt, st'. exact Hs.
Qed.

Lemma sub_column_completed m n u st u' st' :
  same_shape st0 st -> column a m n u st = Done (u', st') ->
  sub_cell_inside a st0 m n.
Proof.
  intros Hst.
  destruct (inside_same_shape st0 st Hst) as (EA & EB & EY).
  unfold column.
  intros (x & st1 & [-> [HA _]]%load_done
          & (y & st2 & [-> [HB _]]%load_done
             & [_ HY]%store_dst_done)%bind_done_inv)%bind_done_inv.
  split; [|split]; [apply EA|apply EB|apply EY]; assumption.
Qed.

Lemma sub_column_shape m n u st u' st' :
  same_shape st0 st -> column a m n u st = Done (u', st') ->
  same_shape st0 st'.
Proof.
  intros Hst. unfold column.
  intros (x & st1 & [-> _]%load_done
          & (y & st2 & [-> _]%load_done
             & [Hsh _]%store_dst_done)%bind_done_inv)%bind_done_inv.
  apply (same_shape_trans _ st); assumption.
Qed.

Lemma sub_row_completes fuel m u st :
  typed a -> (Z.to_nat (N a) <= fuel)%nat -> same_shape st0 st ->
  (forall n, 0 <= n < N a -> sub_cell_inside a st0 m n) ->
  exists u' st', row fuel a m u st = Done (u', st').
Proof.
  intros Ht Hf Hst Hin. unfold row.
  apply (unit_loop_completes st0 (column a m) (sub_cell_inside a st0 m));
    auto.
  - intros n u1 st1 u2 st2. apply sub_column_shape.
  - intros n u1 st1. apply sub_column_completes.
  - destruct Ht. lia.
Qed.

Lemma sub_row_completed fuel m u st u' st' :
  typed a -> (Z.to_nat (N a) <= fuel)%nat -> same_shape st0 st ->
  row fuel a m u st = Done (u', st') ->
  forall n, 0 <= n < N a -> sub_cell_inside a st0 m n.
Proof.
  intros Ht Hf Hst. unfold row.
  apply (unit_loop_completed st0 (column a m) (sub_cell_inside a st0 m));
    auto.
  - intros n u1 st1 u2 st2. apply sub_column_shape.
  - intros n u1 st1 u2 st2. apply sub_column_completed.
  - destruct Ht. lia.
Qed.

End SubCompletion.

(** Under the no-wrap condition the rows a worker goes through are its
    assigned rows. *)
Lemma traversal_assigned fuel core_id M nPE :
  1 <= nPE -> M + nPE <= 2 ^ 32 -> 0 <= core_id < 2 ^ 32 ->
  (Z.to_nat M <= fuel)%nat ->
  exists rs, loop_trace fuel (wrap_u32 core_id) M nPE = Some rs
             /\ forall m, m ∈ rs <-> assigned M nPE core_id m.
Proof.
  intros HnPE Hnowrap Hc Hf.
  rewrite wrap_u32_small by lia.
  destruct (loop_trace_small_step fuel core_id M nPE) as [rs Hrs]; try lia.
  exists rs. split; [exact Hrs|].
  destruct (loop_trace_nowrap _ _ _ _ _ Hrs) as [Hmem _]; try lia.
  intros m. rewrite Hmem. unfold assigned. lia.
Qed.

(** X2.  Memory safety of the subtraction kernel, exactly.  For a
    descriptor with [M + nPE <= 2^32], a worker completes when the three
    accesses [pSrcA[m*strideA + n]], [pSrcB[m*strideB + n]] and
    [pDst[m*strideY + n]] (indices in [uint32_t] arithmetic) stay inside
    their buffers for every assigned row [m] and every [n] below [N], and
    only then: if one of them falls outside, the run is a fault. *)
Theorem X2_sub_completes_iff_inside a st fuel core_id :
  MatSubStride.typed a -> 1 <= MatSubStride.nPE a ->
  MatSubStride.M a + MatSubStride.nPE a <= 2 ^ 32 ->
  0 <= core_id < 2 ^ 32 -> (MatSubStride.budget a <= fuel)%nat ->
  ((exists st',
      MatSubStride.plp_mat_sub_stride_i16p_xpulpv2 fuel core_id a st
      = Done (tt, st'))
   <-> (forall m n,
          assigned (MatSubStride.M a) (MatSubStride.nPE a) core_id m ->
          0 <= n < MatSubStride.N a -> sub_cell_inside a st m n))
  /\ ((exists m n,
         assigned (MatSubStride.M a) (MatSubStride.nPE a) core_id m
         /\ 0 <= n < MatSubStride.N a /\ ~ sub_cell_inside a st m n) ->
      MatSubStride.plp_mat_sub_stride_i16p_xpulpv2 fuel core_id a st = Fault).
Proof.
  intros Ht HnPE Hnowrap Hc Hf.
  pose proof Hf as Hf'. unfold MatSubStride.budget in Hf'.
  destruct (traversal_assigned fuel core_id (MatSubStride.M a)
              (MatSubStride.nPE a)) as (rs & Hrs & Hmem); auto; [lia|].
  assert (Hrun : MatSubStride.plp_mat_sub_stride_i16p_xpulpv2 fuel core_id a st
                 = run_list (MatSubStride.row fuel a) rs tt st)
    by (apply for_u32_trace, Hrs).
  assert (Hiff : (exists st',
                    MatSubStride.plp_mat_sub_stride_i16p_xpulpv2 fuel core_id a st
                    = Done (tt, st'))
                 <-> (forall m n,
                        assigned (MatSubStride.M a) (MatSubStride.nPE a)
                          core_id m ->
                        0 <= n < MatSubStride.N a -> sub_cell_inside a st m n)).
  { rewrite Hrun. split.
    - intros [st' Hdone] m n Hm Hn.
      apply (run_list_completed st (MatSubStride.row fuel a)
               (fun m => forall n, 0 <= n < MatSubStride.N a ->
                                   sub_cell_inside a st m n))
        with (rs := rs) (acc := tt) (st := st) (acc' := tt) (st' := st')
             (r := m); auto using same_shape_refl.
      + intros r u1 st1 u2 st2. apply sub_row_shape.
      + intros r u1 st1 u2 st2 Hst1.
        apply (sub_row_completed a st fuel r u1 st1 u2 st2); auto. lia.
      + apply Hmem, Hm.
    - intros Hin.
      destruct (run_list_completes st (MatSubStride.row fuel a)
                  (fun m => forall n, 0 <= n < MatSubStride.N a ->
                                      sub_cell_inside a st m n))
        with (rs := rs) (acc := tt) (st := st) as ([] & st' & Hdone).
      + intros r u1 st1 u2 st2. apply sub_row_shape.
      + intros r u1 st1 Hst1 Hr.
        apply (sub_row_completes a st fuel r u1 st1); auto. lia.
      + apply same_shape_refl.
      + intros m Hm n Hn. apply Hin; [apply Hmem, Hm|exact Hn].
      + exists st'. exact Hdone. }
  split; [exact Hiff|].
  intros (m & n & Hm & Hn & Hout).
  destruct (MatSubStride.plp_mat_sub_stride_i16p_xpulpv2 fuel core_id a st)
    as [[[] st']| |] eqn:E.
  - exfalso. apply Hout. apply (proj1 Hiff); eauto.
  - reflexivity.
  - exfalso.
    apply (run_list_in_time (MatSubStride.row fuel a) rs tt st);
      [|symmetry; exact Hrun].
    intros r u st1. apply sub_row_in_time; assumption.
Qed.

Section MultCompletion.

Import MatMultTransStride.

Variable a : plp_mat_mult_stride_instance_i32.
Variable st0 : store.
Variable fuel : nat.
Hypothesis Htyped : typed a.
Hypothesis Hfuel : (budget a <= fuel)%nat.

Lemma mult_mac_shape m o n s st s' st' :
  same_shape st0 st -> mac a m o n s st = Done (s', st') -> same_shape st0 st'.
Proof.
  intros Hst. unfold mac.
  intros (vA & st1 & [-> _]%load_done
          & (vB & st2 & [-> _]%load_done & Hret)%bind_done_inv)%bind_done_inv.
  injection Hret as _ <-. exact Hst.
Qed.

Lemma mult_mac_completes m o n s st :
  same_shape st0 st ->
  inside (pSrcA st0) (add_u32 (mul_u32 m (strideA a)) n)
  /\ inside (pSrcB st0) (add_u32 (mul_u32 o (strideB a)) n) ->
  exists s' st', mac a m o n s st = Done (s', st').
Proof.
  intros Hst [HA HB].
  destruct (inside_same_shape st0 st Hst) as (EA & EB & _).
  unfold mac.
  rewrite (bind_done _ _ _ _ _ (load_inside pSrcA _ st (proj2 (EA _) HA))).
  rewrite (bind_done _ _ _ _ _ (load_inside pSrcB _ st (proj2 (EB _) HB))).
  eexists _, _. reflexivity.
Qed.

Lemma mult_mac_completed m o n s st s' st' :
  same_shape st0 st -> mac a m o n s st = Done (s', st') ->
  inside (pSrcA st0) (add_u32 (mul_u32 m (strideA a)) n)
  /\ inside (pSrcB st0) (add_u32 (mul_u32 o (strideB a)) n).
Proof.
  intros Hst.
  destruct (inside_same_shape st0 st Hst) as (EA & EB & _).
  unfold mac.
  intros (vA & st1 & [-> [HA _]]%load_done
          & (vB & st2 & [-> [HB _]]%load_done & _)%bind_done_inv)%bind_done_inv.
  split; [apply EA|apply EB]; assumption.
Qed.

Lemma mult_column_shape m o u st u' st' :
  same_shape st0 st -> column fuel a m o u st = Done (u', st') ->
  same_shape st0 st'.
Proof.
  intros Hst. unfold column.
  intros (sum & st1 & Hin & [Hsh _]%store_dst_done)%bind_done_inv.
  apply (same_shape_trans _ st1); [|exact Hsh].
  revert Hin. unfold inner. apply for_u32_shape; [|exact Hst].
  intros n s st2 s' st3. apply mult_mac_shape.
Qed.

Lemma mult_column_completes m o u st :
  same_shape st0 st -> mult_cell_inside a st0 m o ->
  exists u' st', column fuel a m o u st = Done (u', st').
Proof.
  intros Hst [Hloads Hstore]. unfold column, budget in *.
  destruct (unit_loop_completes st0 (mac a m o)
              (fun n => inside (pSrcA st0) (add_u32 (mul_u32 m (strideA a)) n)
                        /\ inside (pSrcB st0)
                             (add_u32 (mul_u32 o (strideB a)) n)))
    with (fuel := fuel) (bound := N a) (acc := 0) (st := st)
    as (sum & st1 & Hin); auto.
  - intros n s st2 s' st3. apply mult_mac_shape.
  - intros n s st2. apply mult_mac_completes.
  - destruct Htyped. lia.
  - lia.
  - unfold inner. rewrite (bind_done _ _ _ _ _ Hin).
    assert (Hst1 : same_shape st0 st1).
    { revert Hin. apply for_u32_shape; [|exact Hst].
      intros n s st2 s' st3. apply mult_mac_shape. }
    destruct (inside_same_shape st0 st1 Hst1) as (_ & _ & EC).
    destruct (store_dst_inside (add_u32 (mul_u32 m (strideC a)) o) sum st1
                (proj2 (EC _) Hstore)) as (st' & Hs).
    exists tt, st'. exact Hs.
Qed.

Lemma mult_column_completed m o u st u' st' :
  same_shape st0 st -> column fuel a m o u st = Done (u', st') ->
  mult_cell_inside a st0 m o.
Proof.
  intros Hst. unfold column, budget in *.
  intros (sum & st1 & Hin & [_ HC]%store_dst_done)%bind_done_inv.
  assert (Hst1 : same_shape st0 st1).
  { revert Hin. unfold inner. apply for_u32_shape; [|exact Hst].
    intros n s st2 s' st3. apply mult_mac_shape. }
  destruct (inside_same_shape st0 st1 Hst1) as (_ & _ & EC).
  split; [|apply EC, HC].
  unfold inner in Hin.
  apply (unit_loop_completed st0 (mac a m o)
           (fun n => inside (pSrcA st0) (add_u32 (mul_u32 m (strideA a)) n)
                     /\ inside (pSrcB st0)
                          (add_u32 (mul_u32 o (strideB a)) n)))
    with (fuel := fuel) (acc := 0) (st := st) (acc' := sum) (st' := st1);
    auto.
  - intros n s st2 s' st3. apply mult_mac_shape.
  - intros n s st2 s' st3. apply mult_mac_completed.
  - destruct Htyped. lia.
  - lia.
Qed.

Lemma mult_row_completes m u st :
  same_shape st0 st ->
  (forall o, 0 <= o < O a -> mult_cell_inside a st0 m o) ->
  exists u' st', row fuel a m u st = Done (u', st').
Proof.
  intros Hst Hin. unfold row, budget in *.
  apply (unit_loop_completes st0 (column fuel a m) (mult_cell_inside a st0 m));
    auto.
  - intros o u1 st1 u2 st2. apply mult_column_shape.
  - intros o u1 st1. apply mult_column_completes.
  - destruct Htyped. lia.
  - lia.
Qed.

Lemma mult_row_completed m u st u' st' :
  same_shape st0 st -> row fuel a m u st = Done (u', st') ->
  forall o, 0 <= o < O a -> mult_cell_inside a st0 m o.
Proof.
  intros Hst. unfold row, budget in *.
  apply (unit_loop_completed st0 (column fuel a m) (mult_cell_inside a st0 m));
    auto.
  - intros o u1 st1 u2 st2. apply mult_column_shape.
  - intros o u1 st1 u2 st2. apply mult_column_completed.
  - destruct Htyped. lia.
  - lia.
Qed.

End MultCompletion.

(** X3.  Memory safety of the 32-bit multiply-transpose kernel, exactly.
    For a descriptor with [M + nPE <= 2^32], a worker completes when, for
    every assigned row [m] and every [o] below [O], the loads
    [pSrcA[m*strideA + n]] and [pSrcB[o*strideB + n]] for all [n] below [N]
    and the store [pDstC[m*strideC + o]] (indices in [uint32_t]
    arithmetic) stay inside their buffers, and only then: if one of them
    falls outside, the run is a fault. *)
Theorem X3_mult_completes_iff_inside a st fuel core_id :
  MatMultTransStride.typed a -> 1 <= MatMultTransStride.nPE a ->
  MatMultTransStride.M a + MatMultTransStride.nPE a <= 2 ^ 32 ->
  0 <= core_id < 2 ^ 32 -> (MatMultTransStride.budget a <= fuel)%nat ->
  ((exists st',
      MatMultTransStride.plp_mat_mult_trans_stride_i32p_xpulpv2
        fuel core_id a st = Done (tt, st'))
   <-> (forall m o,
          assigned (MatMultTransStride.M a) (MatMultTransStride.nPE a)
            core_id m ->
          0 <= o < MatMultTransStride.O a -> mult_cell_inside a st m o))
  /\ ((exists m o,
         assigned (MatMultTransStride.M a) (MatMultTransStride.nPE a)
           core_id m
         /\ 0 <= o < MatMultTransStride.O a /\ ~ mult_cell_inside a st m o) ->
      MatMultTransStride.plp_mat_mult_trans_stride_i32p_xpulpv2
        fuel core_id a st = Fault).
Proof.
  intros Ht HnPE Hnowrap Hc Hf.
  pose proof Hf as Hf'. unfold MatMultTransStride.budget in Hf'.
  destruct (traversal_assigned fuel core_id (MatMultTransStride.M a)
              (MatMultTransStride.nPE a)) as (rs & Hrs & Hmem); auto; [lia|].
  assert (Hrun : MatMultTransStride.plp_mat_mult_trans_stride_i32p_xpulpv2
                   fuel core_id a st
                 = run_list (MatMultTransStride.row fuel a) rs tt st)
    by (apply for_u32_trace, Hrs).
  assert (Hiff : (exists st',
                    MatMultTransStride.plp_mat_mult_trans_stride_i32p_xpulpv2
                      fuel core_id a st = Done (tt, st'))
                 <-> (forall m o,
                        assigned (MatMultTransStride.M a)
                          (MatMultTransStride.nPE a) core_id m ->
                        0 <= o < MatMultTransStride.O a ->
                        mult_cell_inside a st m o)).
  { rewrite Hrun. split.
    - intros [st' Hdone] m o Hm Ho.
      apply (run_list_completed st (MatMultTransStride.row fuel a)
               (fun m => forall o, 0 <= o < MatMultTransStride.O a ->
                                   mult_cell_inside a st m o))
        with (rs := rs) (acc := tt) (st := st) (acc' := tt) (st' := st')
             (r := m); auto using same_shape_refl.
      + intros r u1 st1 u2 st2. apply mult_row_shape.
      + intros r u1 st1 u2 st2 Hst1.
        apply (mult_row_completed a st fuel Ht Hf r u1 st1 u2 st2 Hst1).
      + apply Hmem, Hm.
    - intros Hin.
      destruct (run_list_completes st (MatMultTransStride.row fuel a)
                  (fun m => forall o, 0 <= o < MatMultTransStride.O a ->
                                      mult_cell_inside a st m o))
        with (rs := rs) (acc := tt) (st := st) as ([] & st' & Hdone).
      + intros r u1 st1 u2 st2. apply mult_row_shape.
      + intros r u1 st1 Hst1 Hr.
        apply (mult_row_completes a st fuel Ht Hf r u1 st1 Hst1 Hr).
      + apply same_shape_refl.
      + intros m Hm o Ho. apply Hin; [apply Hmem, Hm|exact Ho].
      + exists st'. exact Hdone. }
  split; [exact Hiff|].
  intros (m & o & Hm & Ho & Hout).
  destruct (MatMultTransStride.plp_mat_mult_trans_stride_i32p_xpulpv2
              fuel core_id a st) as [[[] st']| |] eqn:E.
  - exfalso. apply Hout. apply (proj1 Hiff); eauto.
  - reflexivity.
  - exfalso.
    apply (run_list_in_time (MatMultTransStride.row fuel a) rs tt st);
      [|symmetry; exact Hrun].
    intros r u st1. apply mult_row_in_time; assumption.
Qed.

(** ** Running the workers again, in another order, with another count *)

Lemma rows_written_again (rv : Z -> nat -> option Z) (rs : list Z) st st1 :
  rows_written rv rs st st1 -> rows_written rv rs st1 st1.
Proof.
  intros (_ & _ & HL & Hw & _). repeat split.
  intros m i v Hm Hi Hv. apply (Hw m i v Hm); [lia|exact Hv].
Qed.

Lemma rows_written_shape (rv : Z -> nat -> option Z) (rs : list Z) st st1 :
  rows_written rv rs st st1 -> same_shape st st1.
Proof. intros (HA & HB & HL & _). repeat split; assumption. Qed.

Lemma mult_valid_same_shape a st st1 :
  MatMultTransStride.valid a st -> same_shape st st1 ->
  MatMultTransStride.valid a st1.
Proof.
  intros (Ht & Hs & Hd) (HA & HB & HL). unfold MatMultTransStride.valid.
  rewrite HA, HB, HL. auto.
Qed.

Lemma cmplx_valid_same_shape a st st1 :
  MatMultTransCmplxStride.valid a st -> same_shape st st1 ->
  MatMultTransCmplxStride.valid a st1.
Proof.
  intros (Ht & Hs & Hd) (HA & HB & HL). unfold MatMultTransCmplxStride.valid.
  rewrite HA, HB, HL. auto.
Qed.

Lemma sub_valid_same_shape a st st1 :
  MatSubStride.valid a st -> same_shape st st1 -> MatSubStride.valid a st1.
Proof.
  intros (Ht & Hs & Hd) (HA & HB & HL). unfold MatSubStride.valid.
  rewrite HA, HB, HL. auto.
Qed.

(** X4.  The subtraction kernel does not depend on the number of workers
    either: for every valid descriptor with at least one column and every
    [nPE >= 1], running the kernel once per [core_id] in [0, nPE), in any
    order, ends in the store that the same descriptor with [nPE = 1]
    produces. *)
Theorem X4_sub_independent_of_nPE a st fuel (cores : list Z) :
  MatSubStride.valid a st -> 0 < MatSubStride.N a ->
  1 <= MatSubStride.nPE a -> (MatSubStride.budget a <= fuel)%nat ->
  cores ≡ₚ seqZ 0 (MatSubStride.nPE a) ->
  exists st',
    run_cores (fun c => MatSubStride.plp_mat_sub_stride_i16p_xpulpv2 fuel c a)
      cores st = Done (tt, st')
    /\ MatSubStride.plp_mat_sub_stride_i16p_xpulpv2 fuel 0
         (MatSubStride.with_nPE a 1) st = Done (tt, st').
Proof.
  intros Hv HN HnPE Hf Hcores.
  destruct (sub_valid_workers a st fuel cores Hv HN HnPE Hf Hcores)
    as (st1 & Hrun1 & Hw1).
  assert (Hv' : MatSubStride.valid (MatSubStride.with_nPE a 1) st).
  { destruct Hv as ([] & Hs & Hd). split; [|split].
    - constructor; cbn; try assumption. unwrap. lia.
    - destruct Hs. constructor; assumption.
    - destruct Hd. constructor; assumption. }
  destruct (sub_valid_workers (MatSubStride.with_nPE a 1) st fuel [0]
              Hv' HN ltac:(cbn; lia) Hf single_schedule)
    as (st2 & Hrun2 & Hw2).
  rewrite (run_cores_single
             (fun c => MatSubStride.plp_mat_sub_stride_i16p_xpulpv2 fuel c
                         (MatSubStride.with_nPE a 1))) in Hrun2.
  exists st1. split; [exact Hrun1|].
  rewrite Hrun2. do 2 f_equal. symmetry.
  eapply rows_written_unique; [|exact Hw1|exact Hw2]. reflexivity.
Qed.


(** ** What one worker of a multiply-transpose kernel leaves alone *)

(** X6.  The frame of the two multiply-transpose kernels.  For every valid
    descriptor with [M + nPE <= 2^32] and every [core_id] in [0, nPE), one
    invocation leaves the input buffers as they were and changes only
    output elements of rows assigned to [core_id]: element [m*strideC + o]
    in the 32-bit kernel, the pair at [(m*strideC + o)*2] in the complex
    one.  The rows of the other workers are unchanged. *)
Theorem X6_mult_kernels_write_own_rows :
  (forall a st fuel core_id,
     MatMultTransStride.valid a st -> 1 <= MatMultTransStride.nPE a ->
     0 <= core_id < MatMultTransStride.nPE a ->
     MatMultTransStride.M a + MatMultTransStride.nPE a <= 2 ^ 32 ->
     (MatMultTransStride.budget a <= fuel)%nat ->
     exists st',
       MatMultTransStride.plp_mat_mult_trans_stride_i32p_xpulpv2
         fuel core_id a st = Done (tt, st')
       /\ same_shape st st'
       /\ mult_leaves_other_rows a core_id st st'
       /\ (forall m o,
             0 <= m < MatMultTransStride.M a ->
             m mod MatMultTransStride.nPE a <> core_id ->
             0 <= o < MatMultTransStride.O a ->
             pDst st' !! Z.to_nat (m * MatMultTransStride.strideC a + o)
             = pDst st !! Z.to_nat (m * MatMultTransStride.strideC a + o)))
  /\ (forall a st fuel core_id,
        MatMultTransCmplxStride.valid a st ->
        1 <= MatMultTransCmplxStride.nPE a ->
        0 <= core_id < MatMultTransCmplxStride.nPE a ->
        MatMultTransCmplxStride.M a + MatMultTransCmplxStride.nPE a <= 2 ^ 32 ->
        (MatMultTransCmplxStride.budget a <= fuel)%nat ->
        exists st',
          MatMultTransCmplxStride.plp_mat_mult_trans_cmplx_stride_i16p_xpulpv2
            fuel core_id a st = Done (tt, st')
          /\ same_shape st st'
          /\ cmplx_leaves_other_rows a core_id st st'
          /\ (forall m o k,
                0 <= m < MatMultTransCmplxStride.M a ->
                m mod MatMultTransCmplxStride.nPE a <> core_id ->
                0 <= o < MatMultTransCmplxStride.O a -> 0 <= k <= 1 ->
                pDst st' !! Z.to_nat
                              ((m * MatMultTransCmplxStride.strideC a + o) * 2 + k)
                = pDst st !! Z.to_nat
                               ((m * MatMultTransCmplxStride.strideC a + o) * 2 + k))).
Proof.
  split.
  - intros a st fuel core_id Hv HnPE Hc Hnowrap Hf.
    pose proof Hv as (Ht & Hs & Hd).
    pose proof (MatMultTransStride.nPE_u32 _ Ht) as HnPE32.
    destruct (traversal_assigned fuel core_id (MatMultTransStride.M a)
                (MatMultTransStride.nPE a)) as (rs & Hrs & Hmem);
      [lia|lia|lia|unfold MatMultTransStride.budget in Hf; lia|].
    destruct (mult_valid_worker a st fuel core_id rs Hv Hf Hrs)
      as (st' & Hrun & Hw).
    pose proof (rows_written_shape _ _ _ _ Hw) as Hsh.
    destruct Hw as (_ & _ & _ & _ & Hk).
    assert (Hleaves : mult_leaves_other_rows a core_id st st').
    { intros i Hi. apply Hk. intros m Hm%Hmem.
      unfold MatMultTransStride.rowval.
      destruct (decide (_ <= _ < _)) as [Hin|]; [|reflexivity].
      exfalso.
      apply (Hi m (Z.of_nat i - m * MatMultTransStride.strideC a) Hm); lia. }
    exists st'. repeat (split; [assumption|]).
    intros m o Hm Hother Ho. apply Hleaves.
    intros m' o' Hm' Ho'.
    assert (m' mod MatMultTransStride.nPE a = core_id).
    { destruct Hm' as (? & ? & ?).
      apply (residue_progression (MatMultTransStride.M a)
               (MatMultTransStride.nPE a) core_id m'); lia. }
    assert (Hne : m <> m') by congruence.
    destruct Hm' as (Hm' & _).
    pose proof (MatMultTransStride.cols_fit _ _ Hd) as Hfit.
    pose proof (MatMultTransStride.strideC_u32 _ Ht) as HsC.
    assert (0 <= m * MatMultTransStride.strideC a) by nia.
    assert (0 <= m' * MatMultTransStride.strideC a) by nia.
    intros Heq. apply Z2Nat.inj in Heq; [|lia..].
    destruct (Z.lt_trichotomy m m') as [Hlt|[->|Hgt]]; [|congruence|].
    + pose proof (rows_apart _ _ m m' o o' Hfit Ho Ho' Hlt). lia.
    + pose proof (rows_apart _ _ m' m o' o Hfit Ho' Ho Hgt). lia.
  - intros a st fuel core_id Hv HnPE Hc Hnowrap Hf.
    pose proof Hv as (Ht & Hs & Hd).
    pose proof (MatMultTransCmplxStride.nPE_u32 _ Ht) as HnPE32.
    destruct (traversal_assigned fuel core_id (MatMultTransCmplxStride.M a)
                (MatMultTransCmplxStride.nPE a)) as (rs & Hrs & Hmem);
      [lia|lia|lia|unfold MatMultTransCmplxStride.budget in Hf; lia|].
    destruct (cmplx_valid_worker a st fuel core_id rs Hv Hf Hrs)
      as (st' & Hrun & Hw).
    pose proof (rows_written_shape _ _ _ _ Hw) as Hsh.
    destruct Hw as (_ & _ & _ & _ & Hk).
    assert (Hleaves : cmplx_leaves_other_rows a core_id st st').
    { intros i Hi. apply Hk. intros m Hm%Hmem.
      unfold MatMultTransCmplxStride.rowval.
      destruct (decide (_ <= _ < _)) as [Hin|]; [|reflexivity].
      exfalso.
      destruct (Hi m (Z.of_nat i / 2 - m * MatMultTransCmplxStride.strideC a)
                  Hm) as [H0 H1].
      - Z.div_mod_to_equations. lia.
      - Z.div_mod_to_equations. lia. }
    exists st'. repeat (split; [assumption|]).
    intros m o k Hm Hother Ho Hk01. apply Hleaves.
    intros m' o' Hm' Ho'.
    assert (m' mod MatMultTransCmplxStride.nPE a = core_id).
    { destruct Hm' as (? & ? & ?).
      apply (residue_progression (MatMultTransCmplxStride.M a)
               (MatMultTransCmplxStride.nPE a) core_id m'); lia. }
    assert (Hne : m <> m') by congruence.
    destruct Hm' as (Hm' & _).
    pose proof (MatMultTransCmplxStride.cols_fit _ _ Hd) as Hfit.
    pose proof (MatMultTransCmplxStride.strideC_u32 _ Ht) as HsC.
    assert (0 <= m * MatMultTransCmplxStride.strideC a) by nia.
    assert (0 <= m' * MatMultTransCmplxStride.strideC a) by nia.
    assert (Hapart : m * MatMultTransCmplxStride.strideC a + o
                     <> m' * MatMultTransCmplxStride.strideC a + o').
    { destruct (Z.lt_trichotomy m m') as [Hlt|[->|Hgt]]; [|congruence|].
      - pose proof (rows_apart _ _ m m' o o' Hfit Ho Ho' Hlt). lia.
      - pose proof (rows_apart _ _ m' m o' o Hfit Ho' Ho Hgt). lia. }
    split; intros Heq; apply Z2Nat.inj in Heq; lia.
Qed.

(** ** Termination when the row counter may wrap *)

Lemma cmplx_row_in_time fuel a m u st :
  MatMultTransCmplxStride.typed a ->
  (MatMultTransCmplxStride.budget a <= fuel)%nat ->
  MatMultTransCmplxStride.row fuel a m u st <> OutOfFuel.
Proof.
  intros [] Hf. unfold MatMultTransCmplxStride.budget in Hf.
  unfold MatMultTransCmplxStride.row.
  apply unit_loop_in_time; [lia..|].
  intros o [] st1. unfold MatMultTransCmplxStride.column.
  apply bind_in_time.
  - unfold MatMultTransCmplxStride.inner.
    apply unit_loop_in_time; [lia..|].
    intros n sums st2. unfold MatMultTransCmplxStride.mac.
    repeat (apply bind_in_time; [apply load_in_time|intros]).
    discriminate.
  - intros sums st2.
    apply bind_in_time; intros; apply store_dst_in_time.
Qed.

(** X7.  Termination without the no-wrap condition.  With at most 2^31
    rows, every invocation of the three kernels ends within the budget for
    every [nPE] from 1 to 2^32 - 1, also when the row counter wraps in
    [m += nPE]: it goes through rows below [M] only, and through every
    row assigned to its worker. *)
Theorem X7_terminates_up_to_2_31_rows fuel core_id M nPE :
  1 <= nPE < 2 ^ 32 -> M <= 2 ^ 31 -> 0 <= core_id < 2 ^ 32 ->
  (Z.to_nat M <= fuel)%nat ->
  (exists rs,
     traversal fuel core_id M nPE = Some rs
     /\ (forall r, r ∈ rs -> 0 <= r < M)
     /\ (forall r, assigned M nPE core_id r -> r ∈ rs))
  /\ (forall a st,
        MatMultTransStride.typed a ->
        MatMultTransStride.M a = M -> MatMultTransStride.nPE a = nPE ->
        (MatMultTransStride.budget a <= fuel)%nat ->
        MatMultTransStride.plp_mat_mult_trans_stride_i32p_xpulpv2
          fuel core_id a st <> OutOfFuel)
  /\ (forall a st,
        MatMultTransCmplxStride.typed a ->
        MatMultTransCmplxStride.M a = M ->
        MatMultTransCmplxStride.nPE a = nPE ->
        (MatMultTransCmplxStride.budget a <= fuel)%nat ->
        MatMultTransCmplxStride.plp_mat_mult_trans_cmplx_stride_i16p_xpulpv2
          fuel core_id a st <> OutOfFuel)
  /\ (forall a st,
        MatSubStride.typed a ->
        MatSubStride.M a = M -> MatSubStride.nPE a = nPE ->
        (MatSubStride.budget a <= fuel)%nat ->
        MatSubStride.plp_mat_sub_stride_i16p_xpulpv2 fuel core_id a st
        <> OutOfFuel).
Proof.
  intros HnPE HM Hc Hf.
  destruct (worker_trace fuel core_id M nPE HnPE HM Hf) as [rs Hrs].
  split; [|split; [|split]].
  - exists rs. split; [exact Hrs|]. split.
    + intros r Hr.
      apply (loop_trace_bound _ _ _ _ _ _ Hrs); [apply wrap_u32_range|exact Hr].
    + intros r (Hr & Hge & Hmod).
      rewrite wrap_u32_small in Hrs by lia.
      apply (loop_trace_covers _ _ _ _ _ _ Hrs); unwrap; lia.
  - intros a st Ht <- <- Hb.
    unfold MatMultTransStride.plp_mat_mult_trans_stride_i32p_xpulpv2.
    rewrite (for_u32_trace _ _ _ _ _ _ _ _ Hrs).
    apply run_list_in_time. intros r u st1.
    apply mult_row_in_time; assumption.
  - intros a st Ht <- <- Hb.
    unfold MatMultTransCmplxStride.plp_mat_mult_trans_cmplx_stride_i16p_xpulpv2.
    rewrite (for_u32_trace _ _ _ _ _ _ _ _ Hrs).
    apply run_list_in_time. intros r u st1.
    apply cmplx_row_in_time; assumption.
  - intros a st Ht <- <- Hb.
    unfold MatSubStride.plp_mat_sub_stride_i16p_xpulpv2.
    rewrite (for_u32_trace _ _ _ _ _ _ _ _ Hrs).
    apply run_list_in_time. intros r u st1.
    apply sub_row_in_time; assumption.
Qed.

(** ** The whole output of a run *)

Lemma mult_outputs a st fuel (cores : list Z) :
  MatMultTransStride.valid a st -> 0 < MatMultTransStride.O a ->
  1 <= MatMultTransStride.nPE a -> (MatMultTransStride.budget a <= fuel)%nat ->
  cores ≡ₚ seqZ 0 (MatMultTransStride.nPE a) ->
  exists st',
    run_cores
      (fun c => MatMultTransStride.plp_mat_mult_trans_stride_i32p_xpulpv2
                  fuel c a) cores st = Done (tt, st')
    /\ forall m o,
         0 <= m < MatMultTransStride.M a -> 0 <= o < MatMultTransStride.O a ->
         pDst st' !! Z.to_nat (m * MatMultTransStride.strideC a + o)
         = Some (wrap_i32 (MatMultTransStride.dot a (pSrcA st) (pSrcB st) m o)).
Proof.
  intros Hv HO HnPE Hf Hcores.
  destruct (mult_valid_workers a st fuel cores Hv HO HnPE Hf Hcores)
    as (st' & Hrun & _ & _ & _ & Hw & _).
  exists st'. split; [exact Hrun|].
  intros m o Hm Ho. destruct Hv as (Ht & _ & Hd).
  pose proof (MatMultTransStride.C_fits _ _ Hd m o Hm Ho).
  pose proof (MatMultTransStride.strideC_u32 _ Ht).
  assert (0 <= m * MatMultTransStride.strideC a) by nia.
  apply (Hw m); [apply elem_of_seqZ; lia|lia|].
  apply mult_rowval_at; lia.
Qed.

Lemma cmplx_outputs a st fuel (cores : list Z) :
  MatMultTransCmplxStride.valid a st -> 0 < MatMultTransCmplxStride.O a ->
  1 <= MatMultTransCmplxStride.nPE a ->
  (MatMultTransCmplxStride.budget a <= fuel)%nat ->
  cores ≡ₚ seqZ 0 (MatMultTransCmplxStride.nPE a) ->
  exists st',
    run_cores
      (fun c =>
         MatMultTransCmplxStride.plp_mat_mult_trans_cmplx_stride_i16p_xpulpv2
           fuel c a) cores st = Done (tt, st')
    /\ forall m o,
         0 <= m < MatMultTransCmplxStride.M a ->
         0 <= o < MatMultTransCmplxStride.O a ->
         pDst st' !! Z.to_nat ((m * MatMultTransCmplxStride.strideC a + o) * 2)
         = Some (wrap_i32
                   (MatMultTransCmplxStride.dot_re a (pSrcA st) (pSrcB st) m o))
         /\ pDst st' !! Z.to_nat
                         ((m * MatMultTransCmplxStride.strideC a + o) * 2 + 1)
            = Some (wrap_i32
                      (MatMultTransCmplxStride.dot_im a (pSrcA st) (pSrcB st)
                         m o)).
Proof.
  intros Hv HO HnPE Hf Hcores.
  destruct (cmplx_valid_workers a st fuel cores Hv HO HnPE Hf Hcores)
    as (st' & Hrun & _ & _ & _ & Hw & _).
  exists st'. split; [exact Hrun|].
  intros m o Hm Ho. destruct Hv as (Ht & _ & Hd).
  pose proof (MatMultTransCmplxStride.C_fits _ _ Hd m o Hm Ho).
  pose proof (MatMultTransCmplxStride.strideC_u32 _ Ht).
  assert (0 <= m * MatMultTransCmplxStride.strideC a) by nia.
  split; apply (Hw m); try (apply elem_of_seqZ; lia); try lia.
  - rewrite <- (Z.add_0_r (_ * 2)). apply cmplx_rowval_re; lia.
  - apply cmplx_rowval_im; lia.
Qed.

Lemma sub_outputs a st fuel (cores : list Z) :
  MatSubStride.valid a st -> 0 < MatSubStride.N a ->
  1 <= MatSubStride.nPE a -> (MatSubStride.budget a <= fuel)%nat ->
  cores ≡ₚ seqZ 0 (MatSubStride.nPE a) ->
  exists st',
    run_cores (fun c => MatSubStride.plp_mat_sub_stride_i16p_xpulpv2 fuel c a)
      cores st = Done (tt, st')
    /\ forall m n,
         0 <= m < MatSubStride.M a -> 0 <= n < MatSubStride.N a ->
         pDst st' !! Z.to_nat (m * MatSubStride.strideY a + n)
         = Some (MatSubStride.diff a (pSrcA st) (pSrcB st) m n).
Proof.
  intros Hv HN HnPE Hf Hcores.
  destruct (sub_valid_workers a st fuel cores Hv HN HnPE Hf Hcores)
    as (st' & Hrun & _ & _ & _ & Hw & _).
  exists st'. split; [exact Hrun|].
  intros m n Hm Hn. destruct Hv as (Ht & _ & Hd).
  pose proof (MatSubStride.Y_fits _ _ Hd m n Hm Hn).
  pose proof (MatSubStride.strideY_u32 _ Ht).
  assert (0 <= m * MatSubStride.strideY a) by nia.
  apply (Hw m); [apply elem_of_seqZ; lia|lia|].
  apply sub_rowval_at; lia.
Qed.

(** ** What the output buffer holds after a run *)

(** X5.  The output matrix is a function of the inputs alone.  For each
    of the three kernels and every valid descriptor, two runs of all the
    workers on the same input buffers, in any two orders and whatever the
    output buffers held before, complete and leave the same value at
    every element of the output matrix; the elements of the output buffer
    outside the matrix (the padding of the rows) keep what they held; and
    running all the workers a second time, in another order, changes
    nothing. *)
Theorem X5_output_depends_on_inputs_only :
  (forall a st1 st2 fuel (cores cores' : list Z),
     MatMultTransStride.valid a st1 -> MatMultTransStride.valid a st2 ->
     pSrcA st2 = pSrcA st1 -> pSrcB st2 = pSrcB st1 ->
     0 < MatMultTransStride.O a -> 1 <= MatMultTransStride.nPE a ->
     (MatMultTransStride.budget a <= fuel)%nat ->
     cores ≡ₚ seqZ 0 (MatMultTransStride.nPE a) ->
     cores' ≡ₚ seqZ 0 (MatMultTransStride.nPE a) ->
     exists st1' st2',
       run_cores
         (fun c => MatMultTransStride.plp_mat_mult_trans_stride_i32p_xpulpv2
                     fuel c a) cores st1 = Done (tt, st1')
       /\ run_cores
            (fun c => MatMultTransStride.plp_mat_mult_trans_stride_i32p_xpulpv2
                        fuel c a) cores' st2 = Done (tt, st2')
       /\ (forall m o,
             0 <= m < MatMultTransStride.M a ->
             0 <= o < MatMultTransStride.O a ->
             pDst st1' !! Z.to_nat (m * MatMultTransStride.strideC a + o)
             = pDst st2' !! Z.to_nat (m * MatMultTransStride.strideC a + o))
       /\ (forall i,
             (forall m o,
                0 <= m < MatMultTransStride.M a ->
                0 <= o < MatMultTransStride.O a ->
                i <> Z.to_nat (m * MatMultTransStride.strideC a + o)) ->
             pDst st1' !! i = pDst st1 !! i)
       /\ run_cores
            (fun c => MatMultTransStride.plp_mat_mult_trans_stride_i32p_xpulpv2
                        fuel c a) cores' st1' = Done (tt, st1'))
  /\ (forall a st1 st2 fuel (cores cores' : list Z),
        MatMultTransCmplxStride.valid a st1 ->
        MatMultTransCmplxStride.valid a st2 ->
        pSrcA st2 = pSrcA st1 -> pSrcB st2 = pSrcB st1 ->
        0 < MatMultTransCmplxStride.O a ->
        1 <= MatMultTransCmplxStride.nPE a ->
        (MatMultTransCmplxStride.budget a <= fuel)%nat ->
        cores ≡ₚ seqZ 0 (MatMultTransCmplxStride.nPE a) ->
        cores' ≡ₚ seqZ 0 (MatMultTransCmplxStride.nPE a) ->
        exists st1' st2',
          run_cores
            (fun c =>
               MatMultTransCmplxStride.plp_mat_mult_trans_cmplx_stride_i16p_xpulpv2
                 fuel c a) cores st1 = Done (tt, st1')
          /\ run_cores
               (fun c =>
                  MatMultTransCmplxStride.plp_mat_mult_trans_cmplx_stride_i16p_xpulpv2
                    fuel c a) cores' st2 = Done (tt, st2')
          /\ (forall m o k,
                0 <= m < MatMultTransCmplxStride.M a ->
                0 <= o < MatMultTransCmplxStride.O a -> 0 <= k <= 1 ->
                pDst st1' !! Z.to_nat
                               ((m * MatMultTransCmplxStride.strideC a + o) * 2
                                + k)
                = pDst st2' !! Z.to_nat
                                 ((m * MatMultTransCmplxStride.strideC a + o) * 2
                                  + k))
          /\ (forall i,
                (forall m o k,
                   0 <= m < MatMultTransCmplxStride.M a ->
                   0 <= o < MatMultTransCmplxStride.O a -> 0 <= k <= 1 ->
                   i <> Z.to_nat
                          ((m * MatMultTransCmplxStride.strideC a + o) * 2
                           + k)) ->
                pDst st1' !! i = pDst st1 !! i)
          /\ run_cores
               (fun c =>
                  MatMultTransCmplxStride.plp_mat_mult_trans_cmplx_stride_i16p_xpulpv2
                    fuel c a) cores' st1' = Done (tt, st1'))
  /\ (forall a st1 st2 fuel (cores cores' : list Z),
        MatSubStride.valid a st1 -> MatSubStride.valid a st2 ->
        pSrcA st2 = pSrcA st1 -> pSrcB st2 = pSrcB st1 ->
        0 < MatSubStride.N a ->
        1 <= MatSubStride.nPE a -> (MatSubStride.budget a <= fuel)%nat ->
        cores ≡ₚ seqZ 0 (MatSubStride.nPE a) ->
        cores' ≡ₚ seqZ 0 (MatSubStride.nPE a) ->
        exists st1' st2',
          run_cores
            (fun c => MatSubStride.plp_mat_sub_stride_i16p_xpulpv2 fuel c a)
            cores st1 = Done (tt, st1')
          /\ run_cores
               (fun c => MatSubStride.plp_mat_sub_stride_i16p_xpulpv2 fuel c a)
               cores' st2 = Done (tt, st2')
          /\ (forall m n,
                0 <= m < MatSubStride.M a -> 0 <= n < MatSubStride.N a ->
                pDst st1' !! Z.to_nat (m * MatSubStride.strideY a + n)
                = pDst st2' !! Z.to_nat (m * MatSubStride.strideY a + n))
          /\ (forall i,
                (forall m n,
                   0 <= m < MatSubStride.M a -> 0 <= n < MatSubStride.N a ->
                   i <> Z.to_nat (m * MatSubStride.strideY a + n)) ->
                pDst st1' !! i = pDst st1 !! i)
          /\ run_cores
               (fun c => MatSubStride.plp_mat_sub_stride_i16p_xpulpv2 fuel c a)
               cores' st1' = Done (tt, st1')).
Proof.
  split; [|split];
    intros a st1 st2 fuel cores cores' Hv1 Hv2 HA HB Hpos HnPE Hf Hc Hc'.
  - destruct (mult_valid_workers a st1 fuel cores Hv1 Hpos HnPE Hf Hc)
      as (st1' & Hrun1 & Hw1).
    destruct (mult_outputs a st1 fuel cores Hv1 Hpos HnPE Hf Hc)
      as (s1 & Hs1 & Hout1).
    assert (s1 = st1') as -> by congruence.
    destruct (mult_outputs a st2 fuel cores' Hv2 Hpos HnPE Hf Hc')
      as (st2' & Hrun2 & Hout2).
    pose proof (rows_written_shape _ _ _ _ Hw1) as Hsh.
    destruct (mult_valid_workers a st1' fuel cores'
                (mult_valid_same_shape a st1 st1' Hv1 Hsh) Hpos HnPE Hf Hc')
      as (st3 & Hrun3 & Hw3).
    exists st1', st2'. split; [exact Hrun1|]. split; [exact Hrun2|].
    split; [|split].
    + intros m o Hm Ho.
      rewrite (Hout1 m o Hm Ho), (Hout2 m o Hm Ho), HA, HB. reflexivity.
    + intros i Hi. destruct Hw1 as (_ & _ & _ & _ & Hk). apply Hk.
      intros m Hm%elem_of_seqZ. unfold MatMultTransStride.rowval.
      destruct (decide (_ <= _ < _)) as [Hin|]; [|reflexivity].
      exfalso.
      apply (Hi m (Z.of_nat i - m * MatMultTransStride.strideC a)); lia.
    + destruct Hsh as (HA' & HB' & _). rewrite HA', HB' in Hw3.
      rewrite Hrun3. do 2 f_equal. symmetry.
      eapply rows_written_unique;
        [|exact (rows_written_again _ _ _ _ Hw1)|exact Hw3]. reflexivity.
  - destruct (cmplx_valid_workers a st1 fuel cores Hv1 Hpos HnPE Hf Hc)
      as (st1' & Hrun1 & Hw1).
    destruct (cmplx_outputs a st1 fuel cores Hv1 Hpos HnPE Hf Hc)
      as (s1 & Hs1 & Hout1).
    assert (s1 = st1') as -> by congruence.
    destruct (cmplx_outputs a st2 fuel cores' Hv2 Hpos HnPE Hf Hc')
      as (st2' & Hrun2 & Hout2).
    pose proof (rows_written_shape _ _ _ _ Hw1) as Hsh.
    destruct (cmplx_valid_workers a st1' fuel cores'
                (cmplx_valid_same_shape a st1 st1' Hv1 Hsh) Hpos HnPE Hf Hc')
      as (st3 & Hrun3 & Hw3).
    exists st1', st2'. split; [exact Hrun1|]. split; [exact Hrun2|].
    split; [|split].
    + intros m o k Hm Ho Hk.
      destruct (Hout1 m o Hm Ho) as [Hre1 Him1].
      destruct (Hout2 m o Hm Ho) as [Hre2 Him2].
      assert (k = 0 \/ k = 1) as [-> | ->] by lia.
      * rewrite Z.add_0_r, Hre1, Hre2, HA, HB. reflexivity.
      * rewrite Him1, Him2, HA, HB. reflexivity.
    + intros i Hi. destruct Hw1 as (_ & _ & _ & _ & Hk). apply Hk.
      intros m Hm%elem_of_seqZ. unfold MatMultTransCmplxStride.rowval.
      destruct (decide (_ <= _ < _)) as [Hin|]; [|reflexivity].
      exfalso.
      apply (Hi m (Z.of_nat i / 2 - m * MatMultTransCmplxStride.strideC a)
               (Z.of_nat i mod 2)).
      * lia.
      * Z.div_mod_to_equations. lia.
      * Z.div_mod_to_equations. lia.
      * rewrite <- (Nat2Z.id i) at 1. f_equal.
        Z.div_mod_to_equations. lia.
    + destruct Hsh as (HA' & HB' & _). rewrite HA', HB' in Hw3.
      rewrite Hrun3. do 2 f_equal. symmetry.
      eapply rows_written_unique;
        [|exact (rows_written_again _ _ _ _ Hw1)|exact Hw3]. reflexivity.
  - destruct (sub_valid_workers a st1 fuel cores Hv1 Hpos HnPE Hf Hc)
      as (st1' & Hrun1 & Hw1).
    destruct (sub_outputs a st1 fuel cores Hv1 Hpos HnPE Hf Hc)
      as (s1 & Hs1 & Hout1).
    assert (s1 = st1') as -> by congruence.
    destruct (sub_outputs a st2 fuel cores' Hv2 Hpos HnPE Hf Hc')
      as (st2' & Hrun2 & Hout2).
    pose proof (rows_written_shape _ _ _ _ Hw1) as Hsh.
    destruct (sub_valid_workers a st1' fuel cores'
                (sub_valid_same_shape a st1 st1' Hv1 Hsh) Hpos HnPE Hf Hc')
      as (st3 & Hrun3 & Hw3).
    exists st1', st2'. split; [exact Hrun1|]. split; [exact Hrun2|].
    split; [|split].
    + intros m n Hm Hn.
      rewrite (Hout1 m n Hm Hn), (Hout2 m n Hm Hn), HA, HB. reflexivity.
    + intros i Hi. destruct Hw1 as (_ & _ & _ & _ & Hk). apply Hk.
      intros m Hm%elem_of_seqZ. unfold MatSubStride.rowval.
      destruct (decide (_ <= _ < _)) as [Hin|]; [|reflexivity].
      exfalso.
      apply (Hi m (Z.of_nat i - m * MatSubStride.strideY a)); lia.
    + destruct Hsh as (HA' & HB' & _). rewrite HA', HB' in Hw3.
      rewrite Hrun3. do 2 f_equal. symmetry.
      eapply rows_written_unique;
        [|exact (rows_written_again _ _ _ _ Hw1)|exact Hw3]. reflexivity.
Qed.

(** ** Identities of the computed matrices *)

(** X8.  Exchanging the operands transposes the product.  The kernel run
    on [(A, B)] and the kernel run on [(B, A)] with [M] and [O] and the
    two input strides exchanged store the same value at [(m, o)] of the
    first output and at [(o, m)] of the second. *)
Theorem X8_exchanged_operands_transpose a strideC' st st2 fuel
    (cores : list Z) :
  MatMultTransStride.valid a st ->
  MatMultTransStride.valid (exchanged a strideC') st2 ->
  pSrcA st2 = pSrcB st -> pSrcB st2 = pSrcA st ->
  0 < MatMultTransStride.M a -> 0 < MatMultTransStride.O a ->
  1 <= MatMultTransStride.nPE a ->
  (MatMultTransStride.budget a <= fuel)%nat ->
  cores ≡ₚ seqZ 0 (MatMultTransStride.nPE a) ->
  exists st' st2',
    run_cores
      (fun c => MatMultTransStride.plp_mat_mult_trans_stride_i32p_xpulpv2
                  fuel c a) cores st = Done (tt, st')
    /\ run_cores
         (fun c => MatMultTransStride.plp_mat_mult_trans_stride_i32p_xpulpv2
                     fuel c (exchanged a strideC')) cores st2
       = Done (tt, st2')
    /\ forall m o,
         0 <= m < MatMultTransStride.M a -> 0 <= o < MatMultTransStride.O a ->
         pDst st2' !! Z.to_nat (o * strideC' + m)
         = pDst st' !! Z.to_nat (m * MatMultTransStride.strideC a + o).
Proof.
  intros Hv Hv2 HA HB HM HO HnPE Hf Hcores.
  destruct (mult_outputs a st fuel cores Hv HO HnPE Hf Hcores)
    as (st' & Hrun & Hout).
  destruct (mult_outputs (exchanged a strideC') st2 fuel cores Hv2)
    as (st2' & Hrun2 & Hout2); auto.
  { unfold MatMultTransStride.budget in *. cbn. lia. }
  exists st', st2'. split; [exact Hrun|]. split; [exact Hrun2|].
  intros m o Hm Ho.
  rewrite (Hout m o Hm Ho).
  etransitivity; [exact (Hout2 o m Ho Hm)|].
  do 2 f_equal. rewrite HA, HB.
  unfold MatMultTransStride.dot, exchanged.
  cbn [MatMultTransStride.N MatMultTransStride.strideA
       MatMultTransStride.strideB].
  apply sum_over_ext_in. intros n _. apply Z.mul_comm.
Qed.

(** X9.  Multiplying by an identity copies the matrix.  When [B] holds the
    [N] by [N] identity (so [O = N]), the kernel stores [A[m*strideA + o]]
    at [m*strideC + o], for every [m] below [M] and [o] below [N]. *)
Theorem X9_identity_copies a st fuel (cores : list Z) :
  MatMultTransStride.valid a st ->
  MatMultTransStride.O a = MatMultTransStride.N a ->
  0 < MatMultTransStride.O a ->
  (forall o n, 0 <= o < MatMultTransStride.O a ->
               0 <= n < MatMultTransStride.N a ->
               elt (pSrcB st) (o * MatMultTransStride.strideB a + n)
               = if decide (n = o) then 1 else 0) ->
  (forall m n, 0 <= m < MatMultTransStride.M a ->
               0 <= n < MatMultTransStride.N a ->
               in_i32 (elt (pSrcA st) (m * MatMultTransStride.strideA a + n))) ->
  1 <= MatMultTransStride.nPE a -> (MatMultTransStride.budget a <= fuel)%nat ->
  cores ≡ₚ seqZ 0 (MatMultTransStride.nPE a) ->
  exists st',
    run_cores
      (fun c => MatMultTransStride.plp_mat_mult_trans_stride_i32p_xpulpv2
                  fuel c a) cores st = Done (tt, st')
    /\ forall m o,
         0 <= m < MatMultTransStride.M a -> 0 <= o < MatMultTransStride.O a ->
         pDst st' !! Z.to_nat (m * MatMultTransStride.strideC a + o)
         = Some (elt (pSrcA st) (m * MatMultTransStride.strideA a + o)).
Proof.
  intros Hv HON HO Hid HA HnPE Hf Hcores.
  destruct (mult_outputs a st fuel cores Hv HO HnPE Hf Hcores)
    as (st' & Hrun & Hout).
  exists st'. split; [exact Hrun|].
  intros m o Hm Ho. rewrite (Hout m o Hm Ho). f_equal.
  unfold MatMultTransStride.dot.
  rewrite (sum_over_pick _ o).
  - rewrite Hid by lia. rewrite decide_True by reflexivity.
    rewrite Z.mul_1_r. apply wrap_i32_small, HA; lia.
  - apply NoDup_seqZ.
  - apply elem_of_seqZ. lia.
  - intros n Hn%elem_of_seqZ Hne.
    rewrite Hid by lia. rewrite decide_False by exact Hne. lia.
Qed.

(** X10.  The stored difference is exact whenever it fits 16 bits.  After
    the subtraction kernel has run, the element at [m*strideY + n] is
    [A[m*strideA + n] - B[m*strideB + n]] itself when that lies in the
    16-bit range: in particular 0 where the two inputs agree, and the
    element of [A] where that of [B] is 0. *)
Theorem X10_sub_exact a st fuel (cores : list Z) :
  MatSubStride.valid a st -> 0 < MatSubStride.N a ->
  1 <= MatSubStride.nPE a -> (MatSubStride.budget a <= fuel)%nat ->
  cores ≡ₚ seqZ 0 (MatSubStride.nPE a) ->
  exists st',
    run_cores (fun c => MatSubStride.plp_mat_sub_stride_i16p_xpulpv2 fuel c a)
      cores st = Done (tt, st')
    /\ forall m n,
         0 <= m < MatSubStride.M a -> 0 <= n < MatSubStride.N a ->
         let x := elt (pSrcA st) (m * MatSubStride.strideA a + n) in
         let y := elt (pSrcB st) (m * MatSubStride.strideB a + n) in
         let cell := pDst st' !! Z.to_nat (m * MatSubStride.strideY a + n) in
         (in_i16 (x - y) -> cell = Some (x - y))
         /\ (x = y -> cell = Some 0)
         /\ (y = 0 -> in_i16 x -> cell = Some x).
Proof.
  intros Hv HN HnPE Hf Hcores.
  destruct (sub_outputs a st fuel cores Hv HN HnPE Hf Hcores)
    as (st' & Hrun & Hout).
  exists st'. split; [exact Hrun|].
  intros m n Hm Hn x y cell. subst cell. rewrite (Hout m n Hm Hn).
  unfold MatSubStride.diff. fold x y.
  split; [|split].
  - intros Hfit. f_equal. apply wrap_i16_small, Hfit.
  - intros ->. rewrite Z.sub_diag. reflexivity.
  - intros -> Hx. rewrite Z.sub_0_r. f_equal. apply wrap_i16_small, Hx.
Qed.

(** X11.  On operands without imaginary part the complex kernel computes
    the real product.  When the imaginary part of every element of [A] and
    of [B] is 0, the real cell at [(m*strideC + o)*2] holds the sum over
    [n] of the products of the real parts, in 32-bit arithmetic, and the
    imaginary cell next to it holds 0. *)
Theorem X11_cmplx_on_real_operands a st fuel (cores : list Z) :
  MatMultTransCmplxStride.valid a st -> 0 < MatMultTransCmplxStride.O a ->
  (forall m n, 0 <= m < MatMultTransCmplxStride.M a ->
               0 <= n < MatMultTransCmplxStride.N a ->
               elt (pSrcA st)
                 ((m * MatMultTransCmplxStride.strideA a + n) * 2 + 1) = 0) ->
  (forall o n, 0 <= o < MatMultTransCmplxStride.O a ->
               0 <= n < MatMultTransCmplxStride.N a ->
               elt (pSrcB st)
                 ((o * MatMultTransCmplxStride.strideB a + n) * 2 + 1) = 0) ->
  1 <= MatMultTransCmplxStride.nPE a ->
  (MatMultTransCmplxStride.budget a <= fuel)%nat ->
  cores ≡ₚ seqZ 0 (MatMultTransCmplxStride.nPE a) ->
  exists st',
    run_cores
      (fun c =>
         MatMultTransCmplxStride.plp_mat_mult_trans_cmplx_stride_i16p_xpulpv2
           fuel c a) cores st = Done (tt, st')
    /\ forall m o,
         0 <= m < MatMultTransCmplxStride.M a ->
         0 <= o < MatMultTransCmplxStride.O a ->
         pDst st' !! Z.to_nat ((m * MatMultTransCmplxStride.strideC a + o) * 2)
         = Some (wrap_i32 (sum_over
                   (fun n =>
                      elt (pSrcA st)
                        ((m * MatMultTransCmplxStride.strideA a + n) * 2)
                      * elt (pSrcB st)
                          ((o * MatMultTransCmplxStride.strideB a + n) * 2))
                   (seqZ 0 (MatMultTransCmplxStride.N a))))
         /\ pDst st' !! Z.to_nat
                         ((m * MatMultTransCmplxStride.strideC a + o) * 2 + 1)
            = Some 0.
Proof.
  intros Hv HO HimA HimB HnPE Hf Hcores.
  destruct (cmplx_outputs a st fuel cores Hv HO HnPE Hf Hcores)
    as (st' & Hrun & Hout).
  exists st'. split; [exact Hrun|].
  intros m o Hm Ho. destruct (Hout m o Hm Ho) as [Hre Him].
  rewrite Hre, Him. split.
  - do 2 f_equal. unfold MatMultTransCmplxStride.dot_re.
    apply sum_over_ext_in. intros n Hn%elem_of_seqZ.
    unfold MatMultTransCmplxStride.re, MatMultTransCmplxStride.im.
    rewrite (HimA m n) by lia. rewrite !Z.add_0_r. lia.
  - unfold MatMultTransCmplxStride.dot_im.
    rewrite sum_over_zero; [reflexivity|].
    intros n Hn%elem_of_seqZ.
    unfold MatMultTransCmplxStride.re, MatMultTransCmplxStride.im.
    rewrite (HimA m n), (HimB o n) by lia. lia.
Qed.

(** ** Sums that do not leave the accumulator *)

(** X12.  No wrap below the accumulator's capacity.  When every element of
    [A] is within [-K, K] and every element of [B] within [-K', K'], the
    32-bit kernel stores the exact sum of products as soon as
    [N * K * K' < 2^31], and the complex kernel stores the two exact sums
    as soon as [2 * N * K * K' < 2^31]. *)
Theorem X12_exact_below_capacity :
  (forall a st fuel (cores : list Z) K K',
     MatMultTransStride.valid a st -> 0 < MatMultTransStride.O a ->
     (forall m n, 0 <= m < MatMultTransStride.M a ->
                  0 <= n < MatMultTransStride.N a ->
                  - K <= elt (pSrcA st) (m * MatMultTransStride.strideA a + n)
                  <= K) ->
     (forall o n, 0 <= o < MatMultTransStride.O a ->
                  0 <= n < MatMultTransStride.N a ->
                  - K' <= elt (pSrcB st) (o * MatMultTransStride.strideB a + n)
                  <= K') ->
     MatMultTransStride.N a * (K * K') < 2 ^ 31 ->
     1 <= MatMultTransStride.nPE a ->
     (MatMultTransStride.budget a <= fuel)%nat ->
     cores ≡ₚ seqZ 0 (MatMultTransStride.nPE a) ->
     exists st',
       run_cores
         (fun c => MatMultTransStride.plp_mat_mult_trans_stride_i32p_xpulpv2
                     fuel c a) cores st = Done (tt, st')
       /\ forall m o,
            0 <= m < MatMultTransStride.M a ->
            0 <= o < MatMultTransStride.O a ->
            pDst st' !! Z.to_nat (m * MatMultTransStride.strideC a + o)
            = Some (sum_over
                      (fun n =>
                         elt (pSrcA st) (m * MatMultTransStride.strideA a + n)
                         * elt (pSrcB st)
                             (o * MatMultTransStride.strideB a + n))
                      (seqZ 0 (MatMultTransStride.N a))))
  /\ (forall a st fuel (cores : list Z) K K',
        MatMultTransCmplxStride.valid a st ->
        0 < MatMultTransCmplxStride.O a ->
        (forall m n k, 0 <= m < MatMultTransCmplxStride.M a ->
                       0 <= n < MatMultTransCmplxStride.N a -> 0 <= k <= 1 ->
                       - K <= elt (pSrcA st)
                                ((m * MatMultTransCmplxStride.strideA a + n) * 2
                                 + k) <= K) ->
        (forall o n k, 0 <= o < MatMultTransCmplxStride.O a ->
                       0 <= n < MatMultTransCmplxStride.N a -> 0 <= k <= 1 ->
                       - K' <= elt (pSrcB st)
                                 ((o * MatMultTransCmplxStride.strideB a + n) * 2
                                  + k) <= K') ->
        MatMultTransCmplxStride.N a * (2 * (K * K')) < 2 ^ 31 ->
        1 <= MatMultTransCmplxStride.nPE a ->
        (MatMultTransCmplxStride.budget a <= fuel)%nat ->
        cores ≡ₚ seqZ 0 (MatMultTransCmplxStride.nPE a) ->
        exists st',
          run_cores
            (fun c =>
               MatMultTransCmplxStride.plp_mat_mult_trans_cmplx_stride_i16p_xpulpv2
                 fuel c a) cores st = Done (tt, st')
          /\ forall m o,
               0 <= m < MatMultTransCmplxStride.M a ->
               0 <= o < MatMultTransCmplxStride.O a ->
               pDst st' !! Z.to_nat
                             ((m * MatMultTransCmplxStride.strideC a + o) * 2)
               = Some (MatMultTransCmplxStride.dot_re a (pSrcA st) (pSrcB st)
                         m o)
               /\ pDst st' !! Z.to_nat
                               ((m * MatMultTransCmplxStride.strideC a + o) * 2
                                + 1)
                  = Some (MatMultTransCmplxStride.dot_im a (pSrcA st)
                            (pSrcB st) m o)).
Proof.
  split.
  - intros a st fuel cores K K' Hv HO HA HB Hcap HnPE Hf Hcores.
    destruct (mult_outputs a st fuel cores Hv HO HnPE Hf Hcores)
      as (st' & Hrun & Hout).
    exists st'. split; [exact Hrun|].
    intros m o Hm Ho. rewrite (Hout m o Hm Ho). f_equal.
    apply wrap_i32_small. unfold MatMultTransStride.dot.
    pose proof (MatMultTransStride.N_u32 _ (proj1 Hv)) as HN.
    pose proof (sum_over_bound
                  (fun n =>
                     elt (pSrcA st) (m * MatMultTransStride.strideA a + n)
                     * elt (pSrcB st) (o * MatMultTransStride.strideB a + n))
                  (K * K') (seqZ 0 (MatMultTransStride.N a))) as Hb.
    rewrite length_seqZ, Z2Nat.id in Hb by lia.
    unfold in_i32.
    enough (- (MatMultTransStride.N a * (K * K'))
            <= sum_over
                 (fun n =>
                    elt (pSrcA st) (m * MatMultTransStride.strideA a + n)
                    * elt (pSrcB st) (o * MatMultTransStride.strideB a + n))
                 (seqZ 0 (MatMultTransStride.N a))
            <= MatMultTransStride.N a * (K * K')) by lia.
    apply Hb. intros n Hn%elem_of_seqZ.
    apply product_bound; [apply HA|apply HB]; lia.
  - intros a st fuel cores K K' Hv HO HA HB Hcap HnPE Hf Hcores.
    destruct (cmplx_outputs a st fuel cores Hv HO HnPE Hf Hcores)
      as (st' & Hrun & Hout).
    exists st'. split; [exact Hrun|].
    intros m o Hm Ho. destruct (Hout m o Hm Ho) as [Hre Him].
    rewrite Hre, Him.
    pose proof (MatMultTransCmplxStride.N_u32 _ (proj1 Hv)) as HN.
    assert (Hterm : forall n k k', 0 <= n < MatMultTransCmplxStride.N a ->
              0 <= k <= 1 -> 0 <= k' <= 1 ->
              - (K * K')
              <= elt (pSrcA st)
                   ((m * MatMultTransCmplxStride.strideA a + n) * 2 + k)
                 * elt (pSrcB st)
                     ((o * MatMultTransCmplxStride.strideB a + n) * 2 + k')
              <= K * K').
    { intros n k k' Hn Hk Hk'.
      apply product_bound; [apply HA|apply HB]; lia. }
    split; f_equal; apply wrap_i32_small; unfold in_i32.
    + pose proof (sum_over_bound
                    (fun n =>
                       MatMultTransCmplxStride.re (pSrcA st)
                         (m * MatMultTransCmplxStride.strideA a + n)
                       * MatMultTransCmplxStride.re (pSrcB st)
                           (o * MatMultTransCmplxStride.strideB a + n)
                       - MatMultTransCmplxStride.im (pSrcA st)
                           (m * MatMultTransCmplxStride.strideA a + n)
                         * MatMultTransCmplxStride.im (pSrcB st)
                             (o * MatMultTransCmplxStride.strideB a + n))
                    (2 * (K * K')) (seqZ 0 (MatMultTransCmplxStride.N a)))
        as Hb.
      rewrite length_seqZ, Z2Nat.id in Hb by lia.
      unfold MatMultTransCmplxStride.dot_re.
      enough (Hall : forall n, n ∈ seqZ 0 (MatMultTransCmplxStride.N a) ->
                - (2 * (K * K'))
                <= MatMultTransCmplxStride.re (pSrcA st)
                     (m * MatMultTransCmplxStride.strideA a + n)
                   * MatMultTransCmplxStride.re (pSrcB st)
                       (o * MatMultTransCmplxStride.strideB a + n)
                   - MatMultTransCmplxStride.im (pSrcA st)
                       (m * MatMultTransCmplxStride.strideA a + n)
                     * MatMultTransCmplxStride.im (pSrcB st)
                         (o * MatMultTransCmplxStride.strideB a + n)
                <= 2 * (K * K')) by (specialize (Hb Hall); lia).
      intros n Hn%elem_of_seqZ.
      unfold MatMultTransCmplxStride.re, MatMultTransCmplxStride.im.
      pose proof (Hterm n 0 0 ltac:(lia) ltac:(lia) ltac:(lia)).
      pose proof (Hterm n 1 1 ltac:(lia) ltac:(lia) ltac:(lia)).
      lia.
    + pose proof (sum_over_bound
                    (fun n =>
                       MatMultTransCmplxStride.re (pSrcA st)
                         (m * MatMultTransCmplxStride.strideA a + n)
                       * MatMultTransCmplxStride.im (pSrcB st)
                           (o * MatMultTransCmplxStride.strideB a + n)
                       + MatMultTransCmplxStride.im (pSrcA st)
                           (m * MatMultTransCmplxStride.strideA a + n)
                         * MatMultTransCmplxStride.re (pSrcB st)
                             (o * MatMultTransCmplxStride.strideB a + n))
                    (2 * (K * K')) (seqZ 0 (MatMultTransCmplxStride.N a)))
        as Hb.
      rewrite length_seqZ, Z2Nat.id in Hb by lia.
      unfold MatMultTransCmplxStride.dot_im.
      enough (Hall : forall n, n ∈ seqZ 0 (MatMultTransCmplxStride.N a) ->
                - (2 * (K * K'))
                <= MatMultTransCmplxStride.re (pSrcA st)
                     (m * MatMultTransCmplxStride.strideA a + n)
                   * MatMultTransCmplxStride.im (pSrcB st)
                       (o * MatMultTransCmplxStride.strideB a + n)
                   + MatMultTransCmplxStride.im (pSrcA st)
                       (m * MatMultTransCmplxStride.strideA a + n)
                     * MatMultTransCmplxStride.re (pSrcB st)
                         (o * MatMultTransCmplxStride.strideB a + n)
                <= 2 * (K * K')) by (specialize (Hb Hall); lia).
      intros n Hn%elem_of_seqZ.
      unfold MatMultTransCmplxStride.re, MatMultTransCmplxStride.im.
      pose proof (Hterm n 0 1 ltac:(lia) ltac:(lia) ltac:(lia)).
      pose proof (Hterm n 1 0 ltac:(lia) ltac:(lia) ltac:(lia)).
      lia.
Qed.

(** ** The further statements at sample descriptors *)

Ltac sample_cells :=
  cbn; intros;
  repeat match goal with
         | H : 0 <= ?x < 2 |- _ =>
             let Hx := fresh in
             assert (x = 0 \/ x = 1) as Hx by lia; clear H;
             destruct Hx as [-> | ->]
         | H : 0 <= ?x < 1 |- _ =>
             let Hx := fresh in
             assert (x = 0) as Hx by lia; clear H; rewrite Hx
         | H : 0 <= ?x <= 1 |- _ =>
             let Hx := fresh in
             assert (x = 0 \/ x = 1) as Hx by lia; clear H;
             destruct Hx as [-> | ->]
         end;
  first [reflexivity | cbn; unwrap; lia | vm_compute; split; congruence].

Lemma X2_witness :
  MatSubStride.typed Sample.sub_a
  /\ ((exists st',
         MatSubStride.plp_mat_sub_stride_i16p_xpulpv2 4 1 Sample.sub_a
           Sample.sub_st = Done (tt, st'))
      <-> (forall m n,
             assigned (MatSubStride.M Sample.sub_a)
               (MatSubStride.nPE Sample.sub_a) 1 m ->
             0 <= n < MatSubStride.N Sample.sub_a ->
             sub_cell_inside Sample.sub_a Sample.sub_st m n)).
Proof.
  split; [sample_valid|].
  apply (X2_sub_completes_iff_inside Sample.sub_a Sample.sub_st 4%nat 1);
    [sample_valid|sample_arith|sample_arith|sample_arith|sample_arith].
Defined.

Lemma X3_witness :
  MatMultTransStride.typed Sample.mult_a
  /\ ((exists st',
         MatMultTransStride.plp_mat_mult_trans_stride_i32p_xpulpv2 2 1
           Sample.mult_a Sample.mult_st = Done (tt, st'))
      <-> (forall m o,
             assigned (MatMultTransStride.M Sample.mult_a)
               (MatMultTransStride.nPE Sample.mult_a) 1 m ->
             0 <= o < MatMultTransStride.O Sample.mult_a ->
             mult_cell_inside Sample.mult_a Sample.mult_st m o)).
Proof.
  split; [sample_valid|].
  apply (X3_mult_completes_iff_inside Sample.mult_a Sample.mult_st 2%nat 1);
    [sample_valid|sample_arith|sample_arith|sample_arith|sample_arith].
Defined.

Lemma X4_witness :
  MatSubStride.valid Sample.sub_a Sample.sub_st
  /\ exists st',
       run_cores
         (fun c => MatSubStride.plp_mat_sub_stride_i16p_xpulpv2
                     4 c Sample.sub_a) [1; 0] Sample.sub_st = Done (tt, st')
       /\ MatSubStride.plp_mat_sub_stride_i16p_xpulpv2 4 0
            (MatSubStride.with_nPE Sample.sub_a 1) Sample.sub_st
          = Done (tt, st').
Proof.
  split; [sample_valid|].
  apply (X4_sub_independent_of_nPE Sample.sub_a Sample.sub_st 4%nat [1; 0]);
    [sample_valid|sample_arith|sample_arith|sample_arith|].
  change (seqZ 0 (MatSubStride.nPE Sample.sub_a)) with [0; 1].
  apply perm_swap.
Defined.

Lemma X5_witness :
  MatSubStride.valid Sample.sub_a Sample.sub_st
  /\ exists st1' st2',
       run_cores
         (fun c => MatSubStride.plp_mat_sub_stride_i16p_xpulpv2
                     4 c Sample.sub_a) [0; 1] Sample.sub_st = Done (tt, st1')
       /\ run_cores
            (fun c => MatSubStride.plp_mat_sub_stride_i16p_xpulpv2
                        4 c Sample.sub_a) [1; 0]
            (mkStore (pSrcA Sample.sub_st) (pSrcB Sample.sub_st)
               [7; 7; 7; 7; 7; 7; 7; 7; 7; 7; 7; 7]) = Done (tt, st2')
       /\ pDst st1' !! 7%nat = pDst st2' !! 7%nat
       /\ run_cores
            (fun c => MatSubStride.plp_mat_sub_stride_i16p_xpulpv2
                        4 c Sample.sub_a) [1; 0] st1' = Done (tt, st1').
Proof.
  split; [sample_valid|].
  destruct (proj2 (proj2 X5_output_depends_on_inputs_only) Sample.sub_a
              Sample.sub_st
              (mkStore (pSrcA Sample.sub_st) (pSrcB Sample.sub_st)
                 [7; 7; 7; 7; 7; 7; 7; 7; 7; 7; 7; 7])
              4%nat [0; 1] [1; 0])
    as (st1' & st2' & Hrun1 & Hrun2 & Hcells & _ & Hagain);
    [sample_valid|sample_valid|reflexivity|reflexivity|sample_arith
    |sample_arith|sample_arith|reflexivity|apply perm_swap|].
  exists st1', st2'. split; [exact Hrun1|]. split; [exact Hrun2|].
  split; [|exact Hagain].
  apply (Hcells 2 1); sample_arith.
Defined.

Lemma X6_witness :
  MatMultTransStride.valid Sample.mult_a Sample.mult_st
  /\ exists st',
       MatMultTransStride.plp_mat_mult_trans_stride_i32p_xpulpv2 2 1
         Sample.mult_a Sample.mult_st = Done (tt, st')
       /\ same_shape Sample.mult_st st'
       /\ mult_leaves_other_rows Sample.mult_a 1 Sample.mult_st st'.
Proof.
  split; [sample_valid|].
  destruct (proj1 X6_mult_kernels_write_own_rows Sample.mult_a Sample.mult_st
              2%nat 1)
    as (st' & Hrun & Hshape & Hleaves & _);
    [sample_valid|sample_arith|sample_arith|sample_arith|sample_arith|].
  exists st'. split; [exact Hrun|]. split; [exact Hshape|exact Hleaves].
Defined.

Lemma X7_witness :
  exists rs,
    traversal 2 1 2 4294967295 = Some rs
    /\ (forall r, r ∈ rs -> 0 <= r < 2)
    /\ (forall r, assigned 2 4294967295 1 r -> r ∈ rs).
Proof.
  apply (X7_terminates_up_to_2_31_rows 2%nat 1 2 4294967295);
    [sample_arith|sample_arith|sample_arith|sample_arith].
Defined.

Lemma X8_witness :
  MatMultTransStride.valid Sample.mult_a Sample.mult_st
  /\ MatMultTransStride.valid (exchanged Sample.mult_a 2)
       (mkStore [5; 6; 7; 8] [1; 2; 3; 4] [0; 0; 0; 0])
  /\ exists st' st2',
       run_cores
         (fun c => MatMultTransStride.plp_mat_mult_trans_stride_i32p_xpulpv2
                     2 c Sample.mult_a) [0; 1; 2] Sample.mult_st
       = Done (tt, st')
       /\ run_cores
            (fun c => MatMultTransStride.plp_mat_mult_trans_stride_i32p_xpulpv2
                        2 c (exchanged Sample.mult_a 2)) [0; 1; 2]
            (mkStore [5; 6; 7; 8] [1; 2; 3; 4] [0; 0; 0; 0])
          = Done (tt, st2')
       /\ pDst st2' !! 2%nat = pDst st' !! 1%nat.
Proof.
  split; [sample_valid|]. split; [sample_valid|].
  destruct (X8_exchanged_operands_transpose Sample.mult_a 2 Sample.mult_st
              (mkStore [5; 6; 7; 8] [1; 2; 3; 4] [0; 0; 0; 0]) 2%nat [0; 1; 2])
    as (st' & st2' & Hrun & Hrun2 & Hval);
    [sample_valid|sample_valid|reflexivity|reflexivity|sample_arith
    |sample_arith|sample_arith|sample_arith|reflexivity|].
  exists st', st2'. split; [exact Hrun|]. split; [exact Hrun2|].
  apply (Hval 0 1); sample_arith.
Defined.

Lemma X9_witness :
  MatMultTransStride.valid Sample.mult_a
    (mkStore [1; 2; 3; 4] [1; 0; 0; 1] [0; 0; 0; 0])
  /\ exists st',
       run_cores
         (fun c => MatMultTransStride.plp_mat_mult_trans_stride_i32p_xpulpv2
                     2 c Sample.mult_a) [0; 1; 2]
         (mkStore [1; 2; 3; 4] [1; 0; 0; 1] [0; 0; 0; 0]) = Done (tt, st')
       /\ pDst st' !! 2%nat = Some 3.
Proof.
  split; [sample_valid|].
  destruct (X9_identity_copies Sample.mult_a
              (mkStore [1; 2; 3; 4] [1; 0; 0; 1] [0; 0; 0; 0]) 2%nat [0; 1; 2])
    as (st' & Hrun & Hval);
    [sample_valid|reflexivity|sample_arith|sample_cells|sample_cells
    |sample_arith|sample_arith|reflexivity|].
  exists st'. split; [exact Hrun|].
  apply (Hval 1 0); sample_arith.
Defined.

Lemma X10_witness :
  MatSubStride.valid Sample.sub_a Sample.sub_st
  /\ exists st',
       run_cores
         (fun c => MatSubStride.plp_mat_sub_stride_i16p_xpulpv2
                     4 c Sample.sub_a) [0; 1] Sample.sub_st = Done (tt, st')
       /\ pDst st' !! 10%nat = Some 72.
Proof.
  split; [sample_valid|].
  destruct (X10_sub_exact Sample.sub_a Sample.sub_st 4%nat [0; 1])
    as (st' & Hrun & Hval);
    [sample_valid|sample_arith|sample_arith|sample_arith|reflexivity|].
  exists st'. split; [exact Hrun|].
  apply (proj1 (Hval 3 1 ltac:(sample_arith) ltac:(sample_arith))).
  vm_compute. split; congruence.
Defined.

Lemma X11_witness :
  MatMultTransCmplxStride.valid Sample.cmplx_a
    (mkStore [1; 0; 2; 0] [3; 0] [9; 9; 9; 9])
  /\ exists st',
       run_cores
         (fun c =>
            MatMultTransCmplxStride.plp_mat_mult_trans_cmplx_stride_i16p_xpulpv2
              2 c Sample.cmplx_a) [0; 1; 2]
         (mkStore [1; 0; 2; 0] [3; 0] [9; 9; 9; 9]) = Done (tt, st')
       /\ pDst st' !! 3%nat = Some 0.
Proof.
  split; [sample_valid|].
  destruct (X11_cmplx_on_real_operands Sample.cmplx_a
              (mkStore [1; 0; 2; 0] [3; 0] [9; 9; 9; 9]) 2%nat [0; 1; 2])
    as (st' & Hrun & Hval);
    [sample_valid|sample_arith|sample_cells|sample_cells
    |sample_arith|sample_arith|reflexivity|].
  exists st'. split; [exact Hrun|].
  apply (proj2 (Hval 1 0 ltac:(sample_arith) ltac:(sample_arith))).
Defined.

Lemma X12_witness :
  MatMultTransStride.valid Sample.mult_a Sample.mult_st
  /\ exists st',
       run_cores
         (fun c => MatMultTransStride.plp_mat_mult_trans_stride_i32p_xpulpv2
                     2 c Sample.mult_a) [0; 1; 2] Sample.mult_st
       = Done (tt, st')
       /\ pDst st' !! 3%nat = Some 53.
Proof.
  split; [sample_valid|].
  destruct (proj1 X12_exact_below_capacity Sample.mult_a Sample.mult_st 2%nat
              [0; 1; 2] 4 8)
    as (st' & Hrun & Hval);
    [sample_valid|sample_arith|sample_cells|sample_cells|sample_arith
    |sample_arith|sample_arith|reflexivity|].
  exists st'. split; [exact Hrun|].
  apply (Hval 1 1); sample_arith.
Defined.
